(** * containerfs: data-partition raft glue, stream client and extent keys

    A shallow embedding of

    - [proto.ExtentKey] and its two serialisations,
    - [stream.StreamConn] (the leader-aware retrying client),
    - the raft side of [datanode.dataPartition] (control loop, configuration
      changes, applied-index persistence, apply-error repair, applied-index
      poll),
    - [log.asyncFileWriter] (the buffered writer of the log files),

    together with the properties the specification states about them and
    further properties read off the code.

    Unsigned machine integers are [Z] with their range written out, byte
    slices are [list Z] of values below 256, Go strings are [string].
    Calls that leave the repository (connection pool, consensus engine,
    extent store, operating system) are either oracles of a [Section] or
    events of a trace. *)

From Stdlib Require Import ZArith Lia List String Ascii Bool.
From stdpp Require Import gmap list strings.

Local Open Scope Z_scope.

(** * Part I: the model *)

(** ** Errors and byte order *)

(** Go [error] values.  [NotLeaderError] is the sentinel of package
    [stream], compared by identity in the source; [EOF] and
    [ErrUnexpectedEOF] are those of package [io], [ErrNotExist] that of
    package [os]; every other error is an [Errorf] carrying its message. *)
Inductive error : Type :=
| NotLeaderError
| EOF
| ErrUnexpectedEOF
| ErrNotExist
| Errorf (msg : string).

Definition error_eqb (a b : error) : bool :=
  match a, b with
  | NotLeaderError, NotLeaderError => true
  | EOF, EOF => true
  | ErrUnexpectedEOF, ErrUnexpectedEOF => true
  | ErrNotExist, ErrNotExist => true
  | Errorf x, Errorf y => String.eqb x y
  | _, _ => false
  end.

(** A method that updates its receiver and returns [err]. *)
Definition andThen {S : Type} (f g : S -> S * option error) (s : S) : S * option error :=
  let (s1, e) := f s in
  match e with
  | Some _ => (s1, e)
  | None => g s1
  end.

Notation "f ;;; g" := (andThen f g) (at level 61, left associativity).

(** The conversion [byte(v)]. *)
Definition byte_of (v : Z) : Z := Z.land v 255.

(** [encoding/binary]: [BigEndian.PutUint32] and [BigEndian.Uint32]. *)
Definition PutUint32 (v : Z) : list Z :=
  [byte_of (Z.shiftr v 24); byte_of (Z.shiftr v 16); byte_of (Z.shiftr v 8); byte_of v].

Definition Uint32 (b : list Z) : option Z :=
  match b with
  | b0 :: b1 :: b2 :: b3 :: _ =>
      Some (Z.lor (Z.lor (Z.lor b3 (Z.shiftl b2 8)) (Z.shiftl b1 16)) (Z.shiftl b0 24))
  | _ => None
  end.

(** [BigEndian.PutUint64] and [BigEndian.Uint64]; [None] is the index
    panic of a slice shorter than eight bytes. *)
Definition PutUint64 (v : Z) : list Z :=
  [byte_of (Z.shiftr v 56); byte_of (Z.shiftr v 48); byte_of (Z.shiftr v 40);
   byte_of (Z.shiftr v 32); byte_of (Z.shiftr v 24); byte_of (Z.shiftr v 16);
   byte_of (Z.shiftr v 8); byte_of v].

Definition Uint64 (b : list Z) : option Z :=
  match b with
  | b0 :: b1 :: b2 :: b3 :: b4 :: b5 :: b6 :: b7 :: _ =>
      Some (Z.lor (Z.lor (Z.lor (Z.lor (Z.lor (Z.lor (Z.lor
              b7 (Z.shiftl b6 8)) (Z.shiftl b5 16)) (Z.shiftl b4 24))
              (Z.shiftl b3 32)) (Z.shiftl b2 40)) (Z.shiftl b1 48)) (Z.shiftl b0 56))
  | _ => None
  end.

(** [binary.Read(buf, binary.BigEndian, &x)] for an [x] of [n] bytes reads
    through [io.ReadFull]: an empty buffer is [io.EOF], a short one is
    drained and gives [io.ErrUnexpectedEOF]. *)
Definition readFull (n : nat) (buf : list Z) : list Z * (error + list Z) :=
  match buf with
  | [] => ([], inl EOF)
  | _ => if (length buf <? n)%nat then ([], inl ErrUnexpectedEOF)
         else (drop n buf, inr (take n buf))
  end.

(** ** Package [fmt]: printing and scanning unsigned integers

    The part of [fmt] the repository calls: [%v] and [%d] of an unsigned
    integer in [Sprintf], and [%d] and [%v] into a [*uint64] or [*uint32]
    in [Sscanf], with [strconv.ParseUint] underneath, as in Go 1.13 and
    later: the [%v] scanner takes [_] as a digit separator and leaves the
    base to [ParseUint].  (Up to Go 1.12 [%v] took no [_] and chose the
    base itself.) *)
Module Fmt.

Definition digitChar (d : Z) : ascii := ascii_of_nat (Z.to_nat (48 + d)).

(** [strconv]'s digit loop: least significant digit first, written from
    the end of the buffer.  Twenty digits hold every 64-bit value. *)
Fixpoint fmtDigits (fuel : nat) (v : Z) (acc : string) : string :=
  match fuel with
  | O => acc
  | S f =>
      let acc' := String (digitChar (v mod 10)) acc in
      if v <? 10 then acc' else fmtDigits f (v / 10) acc'
  end.

Definition FormatUint (v : Z) : string := fmtDigits 20 v "".

(** Value of a digit character, for bases up to sixteen. *)
Definition digitVal (c : ascii) : option Z :=
  let n := Z.of_nat (nat_of_ascii c) in
  if (48 <=? n) && (n <=? 57) then Some (n - 48)
  else if (97 <=? n) && (n <=? 102) then Some (n - 87)
  else if (65 <=? n) && (n <=? 70) then Some (n - 55)
  else None.

Definition inBase (base : Z) (c : ascii) : bool :=
  match digitVal c with
  | Some d => d <? base
  | None => false
  end.

Definition isSpace (c : ascii) : bool :=
  let n := nat_of_ascii c in
  (n =? 32)%nat || (n =? 9)%nat || (n =? 11)%nat || (n =? 12)%nat || (n =? 13)%nat.

(** [ss.SkipSpace] under [Sscanf], where a newline is not a space. *)
Fixpoint SkipSpace (s : string) : error + string :=
  match s with
  | EmptyString => inr s
  | String c r =>
      if (nat_of_ascii c =? 10)%nat then inl (Errorf "unexpected newline")
      else if isSpace c then SkipSpace r
      else inr s
  end.

(** The digit sets of [fmt/scan.go]. *)
Definition binaryDigits : string := "01".
Definition octalDigits : string := "01234567".
Definition decimalDigits : string := "0123456789".
Definition hexadecimalDigits : string := "0123456789aAbBcCdDeEfF".

(** [indexRune(ok, r) >= 0]: what [s.accept(ok)] and [s.peek(ok)] test. *)
Fixpoint accepts (ok : string) (c : ascii) : bool :=
  match ok with
  | EmptyString => false
  | String a r => Ascii.eqb a c || accepts r c
  end.

(** The loop [for s.accept(digits) {}]: the longest prefix of digits. *)
Fixpoint acceptRun (digits : string) (s : string) : string * string :=
  match s with
  | EmptyString => (EmptyString, EmptyString)
  | String c r =>
      if accepts digits c
      then let (tok, rest) := acceptRun digits r in (String c tok, rest)
      else (EmptyString, s)
  end.

(** [ss.scanNumber(digits, haveDigits)]: what it adds to the token, and
    the rest of the input.  [s.notEOF()] panics with [io.EOF]. *)
Definition scanNumber (digits : string) (haveDigits : bool) (s : string)
  : error + (string * string) :=
  if haveDigits then inr (acceptRun digits s)
  else
    match s with
    | EmptyString => inl EOF
    | String c _ =>
        if accepts digits c then inr (acceptRun digits s)
        else inl (Errorf "expected integer")
    end.

(** The value of a run of digits, without bound. *)
Fixpoint parseDigits (base : Z) (s : string) (acc : Z) : option Z :=
  match s with
  | EmptyString => Some acc
  | String c r =>
      match digitVal c with
      | Some d => if d <? base then parseDigits base r (acc * base + d) else None
      | None => None
      end
  end.

(** *** [strconv.ParseUint] *)

Definition maxUint64 : Z := 2 ^ 64 - 1.

(** [lower(c)]: [c | ('x' - 'X')]. *)
Definition lower (c : ascii) : Z := Z.lor (Z.of_nat (nat_of_ascii c)) 32.

(** The digit a byte stands for in [ParseUint]: ['0'..'9'], then the
    letters of either case from 10 on. *)
Definition digitOf (c : ascii) : option Z :=
  let n := Z.of_nat (nat_of_ascii c) in
  if (48 <=? n) && (n <=? 57) then Some (n - 48)
  else if (97 <=? lower c) && (lower c <=? 122) then Some (lower c - 97 + 10)
  else None.

Inductive numErr := ErrSyntax | ErrRange.

(** [NumError.Error()] for a token that [strconv.Quote] leaves as it is. *)
Definition numError (num : string) (e : numErr) : error :=
  Errorf ("strconv.ParseUint: parsing " +:+ String "034" num +:+ String "034" ": " +:+
          match e with
          | ErrSyntax => "invalid syntax"
          | ErrRange => "value out of range"
          end).

(** The loop over the bytes of the number: the value so far and whether an
    underscore was seen.  [n >= cutoff] is the test for [n * base]
    overflowing, [n1 < n || n1 > maxVal] that for [n + d]. *)
Fixpoint parseLoop (base0 : bool) (base : Z) (s : string) (n : Z) (underscores : bool)
  : numErr + (Z * bool) :=
  match s with
  | EmptyString => inr (n, underscores)
  | String c r =>
      if Ascii.eqb c "_" && base0 then parseLoop base0 base r n true
      else
        match digitOf c with
        | None => inl ErrSyntax
        | Some d =>
            if base <=? d then inl ErrSyntax
            else if maxUint64 / base + 1 <=? n then inl ErrRange
            else
              let n1 := n * base + d in
              if maxUint64 <? n1 then inl ErrRange
              else parseLoop base0 base r n1 underscores
        end
  end.

(** What [underscoreOK] saw last. *)
Inductive seen := SawStart | SawDigit | SawUnderscore | SawOther.

Fixpoint underscoreScan (hex : bool) (s : string) (saw : seen) : bool :=
  match s with
  | EmptyString => match saw with SawUnderscore => false | _ => true end
  | String c r =>
      let n := Z.of_nat (nat_of_ascii c) in
      if (48 <=? n) && (n <=? 57) || hex && (97 <=? lower c) && (lower c <=? 102)
      then underscoreScan hex r SawDigit
      else if Ascii.eqb c "_"
      then match saw with SawDigit => underscoreScan hex r SawUnderscore | _ => false end
      else match saw with SawUnderscore => false | _ => underscoreScan hex r SawOther end
  end.

(** [underscoreOK(s)]: underscores only between digits, or between a base
    prefix and a digit. *)
Definition underscoreOK (s : string) : bool :=
  let s1 :=
    match s with
    | String "-" r => r
    | String "+" r => r
    | _ => s
    end in
  match s1 with
  | String "0" (String c r) =>
      if (lower c =? 98) || (lower c =? 111) || (lower c =? 120)
      then underscoreScan (lower c =? 120) r SawDigit
      else underscoreScan false s1 SawStart
  | _ => underscoreScan false s1 SawStart
  end.

(** [strconv.ParseUint(s, base, 64)], for [base] 0 or from 2 to 36. *)
Definition ParseUint (s : string) (base : Z) : error + Z :=
  match s with
  | EmptyString => inl (numError s ErrSyntax)
  | _ =>
      let base0 := base =? 0 in
      let '(b, digits) :=
        if base0 then
          match s with
          | String "0" r =>
              match r with
              | String c r' =>
                  if (3 <=? String.length s)%nat && (lower c =? 98) then (2, r')
                  else if (3 <=? String.length s)%nat && (lower c =? 111) then (8, r')
                  else if (3 <=? String.length s)%nat && (lower c =? 120) then (16, r')
                  else (8, r)
              | EmptyString => (8, r)
              end
          | _ => (10, s)
          end
        else (base, s) in
      match parseLoop base0 b digits 0 false with
      | inl e => inl (numError s e)
      | inr (n, underscores) =>
          if underscores && negb (underscoreOK s) then inl (numError s ErrSyntax)
          else inr n
      end
  end.

(** *** Scanning an unsigned integer *)

(** [ss.scanBasePrefix], called for [%v] only: the base (always 0), the
    digits to accept, whether a zero was found, what it put into the token,
    and the rest of the input. *)
Definition scanBasePrefix (s : string) : Z * string * bool * string * string :=
  match s with
  | String "0" r =>
      match r with
      | String c r' =>
          if accepts "bB" c then (0, binaryDigits +:+ "_", true, String "0" (String c ""), r')
          else if accepts "oO" c then (0, octalDigits +:+ "_", true, String "0" (String c ""), r')
          else if accepts "xX" c
          then (0, hexadecimalDigits +:+ "_", true, String "0" (String c ""), r')
          else (0, octalDigits +:+ "_", true, "0", r)
      | EmptyString => (0, octalDigits +:+ "_", true, "0", r)
      end
  | _ => (0, decimalDigits +:+ "_", false, "", s)
  end.

Inductive verb := VerbD | VerbV.

(** [ss.scanUint(verb, bitSize)]: the value and the rest of the input.  At
    the end of the input [s.notEOF()] panics with [io.EOF], which
    [Sscanf] returns as it is. *)
Definition scanUint (vb : verb) (bitSize : Z) (s : string) : error + (Z * string) :=
  match SkipSpace s with
  | inl e => inl e
  | inr EmptyString => inl EOF
  | inr s1 =>
      let '(base, digits, haveDigits, buf, s2) :=
        match vb with
        | VerbD => (10, decimalDigits, false, EmptyString, s1)
        | VerbV => scanBasePrefix s1
        end in
      match scanNumber digits haveDigits s2 with
      | inl e => inl e
      | inr (run, rest) =>
          let tok := buf +:+ run in
          match ParseUint tok base with
          | inl e => inl e
          | inr i =>
              if i <? 2 ^ bitSize then inr (i, rest)
              else inl (Errorf ("unsigned integer overflow on token " +:+ tok))
          end
      end
  end.

(** A literal character of a [Sscanf] format: [s.mustReadRune()] turns
    the end of the input into [io.ErrUnexpectedEOF]. *)
Definition expectChar (c : ascii) (s : string) : error + string :=
  match s with
  | EmptyString => inl ErrUnexpectedEOF
  | String c' r =>
      if Ascii.eqb c c' then inr r else inl (Errorf "input does not match format")
  end.

(** Every character of [s] is a digit of the base. *)
Fixpoint allIn (base : Z) (s : string) : bool :=
  match s with
  | EmptyString => true
  | String c r => inBase base c && allIn base r
  end.

End Fmt.

(** ** Package [proto]: [ExtentKey] *)
Module Proto.

Record ExtentKey := mkExtentKey {
  FileOffset : Z;   (* uint64 *)
  PartitionId : Z;  (* uint32 *)
  ExtentId : Z;     (* uint64 *)
  Size : Z;         (* uint32 *)
  Crc : Z           (* uint32 *)
}.

(** The ranges the Go field types impose. *)
Definition in_range (k : ExtentKey) : Prop :=
  0 <= FileOffset k < 2 ^ 64 /\ 0 <= PartitionId k < 2 ^ 32 /\
  0 <= ExtentId k < 2 ^ 64 /\ 0 <= Size k < 2 ^ 32 /\ 0 <= Crc k < 2 ^ 32.

Definition set_FileOffset (v : Z) (k : ExtentKey) : ExtentKey :=
  mkExtentKey v (PartitionId k) (ExtentId k) (Size k) (Crc k).
Definition set_PartitionId (v : Z) (k : ExtentKey) : ExtentKey :=
  mkExtentKey (FileOffset k) v (ExtentId k) (Size k) (Crc k).
Definition set_ExtentId (v : Z) (k : ExtentKey) : ExtentKey :=
  mkExtentKey (FileOffset k) (PartitionId k) v (Size k) (Crc k).
Definition set_Size (v : Z) (k : ExtentKey) : ExtentKey :=
  mkExtentKey (FileOffset k) (PartitionId k) (ExtentId k) v (Crc k).
Definition set_Crc (v : Z) (k : ExtentKey) : ExtentKey :=
  mkExtentKey (FileOffset k) (PartitionId k) (ExtentId k) (Size k) v.

Definition Less (k that : ExtentKey) : bool := FileOffset k <? FileOffset that.

(** [Marshal]: [Sprintf("%v_%v_%v_%v_%v", ...)]. *)
Definition Marshal (k : ExtentKey) : string :=
  Fmt.FormatUint (FileOffset k) +:+ "_" +:+
  Fmt.FormatUint (PartitionId k) +:+ "_" +:+
  Fmt.FormatUint (ExtentId k) +:+ "_" +:+
  Fmt.FormatUint (Size k) +:+ "_" +:+
  Fmt.FormatUint (Crc k).

(** [MarshalBinary]: five [binary.Write] calls into a [bytes.Buffer], none
    of which can fail. *)
Definition MarshalBinary (k : ExtentKey) : list Z * option error :=
  (PutUint64 (FileOffset k) ++ PutUint32 (PartitionId k) ++
   PutUint64 (ExtentId k) ++ PutUint32 (Size k) ++ PutUint32 (Crc k), None).

(** One [binary.Read] into a field: the receiver and the buffer are the
    state, the field is stored only when the read succeeded. *)
Definition readField (n : nat) (dec : list Z -> option Z)
    (set : Z -> ExtentKey -> ExtentKey) (st : ExtentKey * list Z)
  : (ExtentKey * list Z) * option error :=
  let (k, buf) := st in
  match readFull n buf with
  | (buf', inl e) => ((k, buf'), Some e)
  | (buf', inr bs) =>
      match dec bs with
      | Some v => ((set v k, buf'), None)
      | None => ((k, buf'), Some ErrUnexpectedEOF)
      end
  end.

Definition UnmarshalBinary (k : ExtentKey) (buf : list Z)
  : (ExtentKey * list Z) * option error :=
  (readField 8 Uint64 set_FileOffset ;;;
   readField 4 Uint32 set_PartitionId ;;;
   readField 8 Uint64 set_ExtentId ;;;
   readField 4 Uint32 set_Size ;;;
   readField 4 Uint32 set_Crc) (k, buf).

(** One [%v] of the [Sscanf] in [UnMarshal], stored through the pointer as
    soon as it is scanned. *)
Definition scanField (bitSize : Z) (set : Z -> ExtentKey -> ExtentKey)
    (st : ExtentKey * string) : (ExtentKey * string) * option error :=
  let (k, s) := st in
  match Fmt.scanUint Fmt.VerbV bitSize s with
  | inl e => ((k, s), Some e)
  | inr (v, rest) => ((set v k, rest), None)
  end.

Definition scanSep (st : ExtentKey * string) : (ExtentKey * string) * option error :=
  let (k, s) := st in
  match Fmt.expectChar "_" s with
  | inl e => ((k, s), Some e)
  | inr rest => ((k, rest), None)
  end.

(** [UnMarshal]: [Sscanf(m, "%v_%v_%v_%v_%v", ...)]; input left over after
    the last verb is not an error. *)
Definition UnMarshal (k : ExtentKey) (m : string) : ExtentKey * option error :=
  let '((k', _), e) :=
    (scanField 64 set_FileOffset ;;; scanSep ;;;
     scanField 32 set_PartitionId ;;; scanSep ;;;
     scanField 64 set_ExtentId ;;; scanSep ;;;
     scanField 32 set_Size ;;; scanSep ;;;
     scanField 32 set_Crc) (k, m) in
  (k', e).

Definition key0 : ExtentKey := mkExtentKey 0 0 0 0 0.
Definition key1 : ExtentKey := mkExtentKey 4096 7 18446744073709551615 131072 3735928559.

(** [GetExtentKey]: [Sprintf("%v", k.FileOffset)]. *)
Definition GetExtentKey (k : ExtentKey) : string := Fmt.FormatUint (FileOffset k).

(** A byte slice as Go has it: every element below 256. *)
Definition isBytes (b : list Z) : Prop := Forall (fun x => 0 <= x < 256) b.

(** The lengths at which a buffer ends between two fields of the binary
    form. *)
Definition atFieldBoundary (n : nat) : bool :=
  existsb (Nat.eqb n) [0; 8; 12; 20; 24]%nat.

End Proto.

(** ** Package [stream]: [StreamConn] *)
Module Stream.

Definition StreamSendMaxRetry : nat := 100.

Record StreamConn := mkStreamConn {
  partition : Z;
  currAddr : string;
  hosts : list string
}.

Definition set_currAddr (a : string) (sc : StreamConn) : StreamConn :=
  mkStreamConn (partition sc) a (hosts sc).

(** The world a [StreamConn] talks to, with state [W]: the connection pool
    and the peers behind it.  A connection is named by the address it was
    obtained for.  [getReply] is the caller's [GetReplyFunc], which returns
    [(err, again)]. *)
Class Net (W : Type) := {
  poolGet : string -> W -> W * option error;
  writeToConn : string -> W -> W * option error;
  getReply : string -> W -> W * (option error * bool)
}.

(** What a send does to the pool and to the peers, in order. *)
Inductive event :=
| EvGet (addr : string) (ok : bool)
| EvDeliver (addr : string)
| EvPut (addr : string) (broken : bool).

Definition isNotLeader (e : error) : bool := error_eqb e NotLeaderError.

Section WithNet.
Context {W : Type} `{Net W}.

(** [sendToConn]: [n] iterations of the loop are left, [err] is the value
    the variable holds when the loop is left by its bound. *)
Fixpoint sendToConnLoop (n : nat) (conn : string) (err : option error) (w : W)
  : W * option error :=
  match n with
  | O => (w, err)
  | S n' =>
      let (w1, e1) := writeToConn conn w in
      match e1 with
      | Some _ => (w1, e1)
      | None =>
          let '(w2, (e2, again)) := getReply conn w1 in
          if again then sendToConnLoop n' conn e2 w2 else (w2, e2)
      end
  end.

Definition sendToConn (conn : string) (w : W) : W * option error :=
  sendToConnLoop StreamSendMaxRetry conn None w.

(** The [range sc.hosts] loop of [sendToPartition]. *)
Fixpoint tryHosts (hs : list string) (sc : StreamConn) (w : W) (tr : list event)
  : StreamConn * W * list event * option error :=
  match hs with
  | [] => (sc, w, tr, Some (Errorf "sendToPatition Failed"))
  | addr :: rest =>
      match poolGet addr w with
      | (w1, Some _) => tryHosts rest sc w1 (tr ++ [EvGet addr false])
      | (w1, None) =>
          let sc1 := set_currAddr addr sc in
          let (w2, e) := sendToConn addr w1 in
          match e with
          | None =>
              (sc1, w2, tr ++ [EvGet addr true; EvDeliver addr; EvPut addr false], None)
          | Some er =>
              let tr' := tr ++ [EvGet addr true; EvDeliver addr; EvPut addr true] in
              if isNotLeader er then tryHosts rest sc1 w2 tr'
              else (sc1, w2, tr', Some er)
          end
      end
  end.

Definition sendToPartition (sc : StreamConn) (w : W)
  : StreamConn * W * list event * option error :=
  let a := currAddr sc in
  match poolGet a w with
  | (w1, None) =>
      let (w2, e) := sendToConn a w1 in
      match e with
      | None => (sc, w2, [EvGet a true; EvDeliver a; EvPut a false], None)
      | Some er =>
          let tr := [EvGet a true; EvDeliver a; EvPut a true] in
          if isNotLeader er then tryHosts (hosts sc) sc w2 tr
          else (sc, w2, tr, Some er)
      end
  | (w1, Some _) => tryHosts (hosts sc) sc w1 [EvGet a false]
  end.

(** [Send]: [n] attempts are left. *)
Fixpoint SendLoop (n : nat) (sc : StreamConn) (w : W) (tr : list event)
  : StreamConn * W * list event * option error :=
  match n with
  | O => (sc, w, tr, Some (Errorf "StreamConn Send: retried and still failed"))
  | S n' =>
      let '(sc1, w1, tr1, e) := sendToPartition sc w in
      match e with
      | None => (sc1, w1, tr ++ tr1, None)
      | Some _ => SendLoop n' sc1 w1 (tr ++ tr1)
      end
  end.

Definition Send (sc : StreamConn) (w : W)
  : StreamConn * W * list event * option error :=
  SendLoop StreamSendMaxRetry sc w [].

End WithNet.

(** The addresses a trace delivered the request to. *)
Definition delivered (tr : list event) : list string :=
  flat_map (fun e => match e with EvDeliver a => [a] | _ => [] end) tr.

(** The request went to [A] and [B] only, and last to [B]. *)
Definition onlyAB (A B : string) (tr : list event) : Prop :=
  Forall (fun a => a = A \/ a = B) (delivered tr) /\ last (delivered tr) = Some B.

(** *** Two concrete worlds *)

(** A world whose peers never change: [A] always answers "not leader",
    [B] always accepts, every other host times out; every connection
    attempt succeeds. *)
Definition steadyReply (addr : string) : option error * bool :=
  if String.eqb addr "A" then (Some NotLeaderError, false)
  else if String.eqb addr "B" then (None, false)
  else (Some (Errorf "read timeout"), false).

Definition steadyNet : Net unit := {|
  poolGet _ w := (w, None);
  writeToConn _ w := (w, None);
  getReply addr w := (w, steadyReply addr)
|}.

(** A world with a clock that counts the calls made so far.  [A] answers
    every request with a read timeout and refuses connections from the
    fourth call on; [B] accepts. *)
Definition clockGet (addr : string) (t : nat) : option error :=
  if String.eqb addr "A" && (3 <=? t)%nat then Some (Errorf "connection refused")
  else None.

Definition clockReply (addr : string) : option error * bool :=
  if String.eqb addr "A" then (Some (Errorf "read timeout"), false)
  else (None, false).

Definition clockNet : Net nat := {|
  poolGet addr t := (S t, clockGet addr t);
  writeToConn _ t := (S t, None);
  getReply addr t := (S t, clockReply addr)
|}.

Definition scABC : StreamConn := mkStreamConn 1 "A" ["A"; "B"; "C"].

(** *** Counting the calls, and the shape of a trace *)

(** How many times the pool and the connections were called. *)
Record calls := mkCalls { gets : nat; writes : nat; reads : nat }.

(** The world [N] with a count of the calls made on it. *)
Definition counting {W : Type} (N : Net W) : Net (W * calls) := {|
  poolGet addr s :=
    let (w, e) := @poolGet W N addr (fst s) in
    ((w, mkCalls (S (gets (snd s))) (writes (snd s)) (reads (snd s))), e);
  writeToConn conn s :=
    let (w, e) := @writeToConn W N conn (fst s) in
    ((w, mkCalls (gets (snd s)) (S (writes (snd s))) (reads (snd s))), e);
  getReply conn s :=
    let (w, r) := @getReply W N conn (fst s) in
    ((w, mkCalls (gets (snd s)) (writes (snd s)) (S (reads (snd s)))), r)
|}.

(** Every connection obtained from the pool is delivered on once and put
    back at once, under the address it was obtained for. *)
Fixpoint bracketed (tr : list event) : bool :=
  match tr with
  | [] => true
  | EvGet _ false :: rest => bracketed rest
  | EvGet a true :: EvDeliver b :: EvPut c _ :: rest =>
      String.eqb a b && String.eqb a c && bracketed rest
  | _ => false
  end.

(** The addresses whose connection went back to the pool as healthy. *)
Definition healthyPuts (tr : list event) : list string :=
  flat_map (fun e => match e with EvPut a false => [a] | _ => [] end) tr.

(** The addresses for which the pool was asked for a connection. *)
Definition poolCalls (tr : list event) : list string :=
  flat_map (fun e => match e with EvGet a _ => [a] | _ => [] end) tr.

(** [NewStreamConn], from the three fields of [wrapper.DataPartition] it
    reads. *)
Definition NewStreamConn (PartitionID : Z) (LeaderAddr : string) (Hosts : list string)
  : StreamConn := mkStreamConn PartitionID LeaderAddr Hosts.

(** A trace in pieces: one piece per call of the pool, a connection
    refused, or a connection obtained, delivered on and put back. *)
Inductive block :=
| Refused (addr : string)
| Delivered (addr : string) (broken : bool).

Definition blockAddr (b : block) : string :=
  match b with
  | Refused a => a
  | Delivered a _ => a
  end.

Definition render (b : block) : list event :=
  match b with
  | Refused a => [EvGet a false]
  | Delivered a broken => [EvGet a true; EvDeliver a; EvPut a broken]
  end.

Definition renderAll (bs : list block) : list event := flat_map render bs.

Definition deliveredTo (bs : list block) : list string :=
  flat_map (fun b => match b with Delivered a _ => [a] | Refused _ => [] end) bs.

Definition allBroken (bs : list block) : bool :=
  forallb (fun b => match b with Delivered _ false => false | _ => true end) bs.

(** What one attempt, and a whole [Send], does, in pieces. *)
Definition pieces (known : list string) (bound : nat)
    (sc sc' : StreamConn) (tr : list event) (e : option error) (bs : list block) : Prop :=
  tr = renderAll bs /\
  hosts sc' = hosts sc /\ partition sc' = partition sc /\
  Forall (fun b => In (blockAddr b) known) bs /\
  (length bs <= bound)%nat /\
  currAddr sc' = List.last (deliveredTo bs) (currAddr sc) /\
  (e = None ->
     exists bs0, bs = bs0 ++ [Delivered (currAddr sc') false] /\ allBroken bs0 = true) /\
  (e <> None -> allBroken bs = true).


End Stream.

(** ** Package [datanode]: the raft side of a data partition *)
Module Datanode.

(** *** Data *)

Record Peer := mkPeer { peer_ID : Z; peer_Addr : string }.

Record DataPartitionOfflineRequest := mkOfflineRequest {
  AddPeer : Peer;
  RemovePeer : Peer
}.

(** The handle [raftstore.Partition] the consensus engine gives out. *)
Inductive RaftPartition := RaftHandle (id : Z).

(** Modelled from the spec: the operation codes carried by [raftC], whose
    declaration is not part of the sources at hand; "a single operation
    code meaning ensure consensus is running". *)
Inductive opRaftCode := opStartRaft | opOther (code : Z).

Definition opRaftCode_eqb (a b : opRaftCode) : bool :=
  match a, b with
  | opStartRaft, opStartRaft => true
  | opOther x, opOther y => x =? y
  | _, _ => false
  end.

(** The fields of [dataPartition] the raft code reads and writes.  The
    channels are the queues of values sent and not yet received. *)
Record dataPartition := mkDataPartition {
  partitionId : Z;
  path : string;
  Peers : list Peer;               (* config.Peers *)
  NodeId : Z;                      (* config.NodeId *)
  raftPartition : option RaftPartition;
  applyId : Z;
  minAppliedId : Z;
  lastTruncateId : Z;
  replicaHosts : list string;
  storeC : list Z;
  raftC : list opRaftCode;
  repairC : list Z
}.

Definition set_Peers (v : list Peer) (dp : dataPartition) : dataPartition :=
  mkDataPartition (partitionId dp) (path dp) v (NodeId dp) (raftPartition dp)
    (applyId dp) (minAppliedId dp) (lastTruncateId dp) (replicaHosts dp)
    (storeC dp) (raftC dp) (repairC dp).
Definition set_raftPartition (v : option RaftPartition) (dp : dataPartition) : dataPartition :=
  mkDataPartition (partitionId dp) (path dp) (Peers dp) (NodeId dp) v
    (applyId dp) (minAppliedId dp) (lastTruncateId dp) (replicaHosts dp)
    (storeC dp) (raftC dp) (repairC dp).
Definition set_applyId (v : Z) (dp : dataPartition) : dataPartition :=
  mkDataPartition (partitionId dp) (path dp) (Peers dp) (NodeId dp) (raftPartition dp)
    v (minAppliedId dp) (lastTruncateId dp) (replicaHosts dp)
    (storeC dp) (raftC dp) (repairC dp).
Definition set_minAppliedId (v : Z) (dp : dataPartition) : dataPartition :=
  mkDataPartition (partitionId dp) (path dp) (Peers dp) (NodeId dp) (raftPartition dp)
    (applyId dp) v (lastTruncateId dp) (replicaHosts dp)
    (storeC dp) (raftC dp) (repairC dp).
Definition set_lastTruncateId (v : Z) (dp : dataPartition) : dataPartition :=
  mkDataPartition (partitionId dp) (path dp) (Peers dp) (NodeId dp) (raftPartition dp)
    (applyId dp) (minAppliedId dp) v (replicaHosts dp)
    (storeC dp) (raftC dp) (repairC dp).
Definition set_storeC (v : list Z) (dp : dataPartition) : dataPartition :=
  mkDataPartition (partitionId dp) (path dp) (Peers dp) (NodeId dp) (raftPartition dp)
    (applyId dp) (minAppliedId dp) (lastTruncateId dp) (replicaHosts dp)
    v (raftC dp) (repairC dp).
Definition set_raftC (v : list opRaftCode) (dp : dataPartition) : dataPartition :=
  mkDataPartition (partitionId dp) (path dp) (Peers dp) (NodeId dp) (raftPartition dp)
    (applyId dp) (minAppliedId dp) (lastTruncateId dp) (replicaHosts dp)
    (storeC dp) v (repairC dp).
Definition set_repairC (v : list Z) (dp : dataPartition) : dataPartition :=
  mkDataPartition (partitionId dp) (path dp) (Peers dp) (NodeId dp) (raftPartition dp)
    (applyId dp) (minAppliedId dp) (lastTruncateId dp) (replicaHosts dp)
    (storeC dp) (raftC dp) v.

(** [storage.FileInfo], with the fields the struct literals of the source
    name. *)
Record FileInfo := mkFileInfo {
  Source : string;
  FileId : Z;
  fi_Size : Z;
  Inode : Z
}.

(** Modelled from the spec: the task-type tag of a repair task, whose
    declaration is not part of the sources at hand: "[FixRaftFollower]
    (leader pushes repair instructions to followers) or local
    self-repair". *)
Inductive TaskType := SelfRepair | FixRaftFollower.

Record MemberFileMetas := mkMemberFileMetas {
  files : gmap Z FileInfo;
  NeedAddExtentsTasks : list FileInfo;
  mf_TaskType : TaskType
}.

(** Modelled from the spec: [NewMemberFileMetas], not part of the sources at
    hand: a task set "created fresh per repair cycle", with no file, no
    task and the tag of a local repair. *)
Definition NewMemberFileMetas : MemberFileMetas :=
  mkMemberFileMetas ∅ [] SelfRepair.

(** Constants and collaborators the file uses and does not declare: the two
    file names, the node's address, and for a partition the answers of its
    consensus engine and of its extent store. *)
Class Env := {
  ApplyIndexFile : string;
  TempApplyIndexFile : string;
  LocalIP : string;
  IsLeader : dataPartition -> string * bool;
  GetOneWatermark : dataPartition -> Z -> error + FileInfo
}.

(** [path.Join] of a directory and a file name. *)
Definition pathJoin (dir name : string) : string := dir +:+ "/" +:+ name.

(** [strings.Split(s, ":")[0]]: the text before the first colon. *)
Fixpoint hostOf (s : string) : string :=
  match s with
  | EmptyString => EmptyString
  | String c r => if Ascii.eqb c ":" then EmptyString else String c (hostOf r)
  end.

(** *** [stopRaft], [SetMinAppliedId], [GetAppliedId] *)

Inductive repairEvent :=
| EvRaftStop
| EvNotifyRaftFollowerRepair (mf : MemberFileMetas)
| EvDeleteDirtyExtent (extentId : Z)
| EvMergeRepair (mf : MemberFileMetas).

Definition stopRaft (dp : dataPartition) : dataPartition * list repairEvent :=
  match raftPartition dp with
  | Some _ => (set_raftPartition None dp, [EvRaftStop])
  | None => (dp, [])
  end.

Definition SetMinAppliedId (id : Z) (dp : dataPartition) : dataPartition :=
  set_minAppliedId id dp.

Definition GetAppliedId (dp : dataPartition) : Z := applyId dp.

(** *** [confRemoveNode] and the goroutine it starts *)

(** The first position of a peer with the given id. *)
Fixpoint findPeer (id : Z) (ps : list Peer) (i : nat) : option nat :=
  match ps with
  | [] => None
  | p :: rest => if peer_ID p =? id then Some i else findPeer id rest (S i)
  end.

(** [confRemoveNode]: the partition, [updated], [err], and the index handed
    to the goroutine when one is started. *)
Definition confRemoveNode (dp : dataPartition) (req : DataPartitionOfflineRequest)
    (index : Z) : dataPartition * bool * option error * option Z :=
  match raftPartition dp with
  | None => (dp, false, Some (Errorf "raft is not start"), None)
  | Some _ =>
      match findPeer (peer_ID (RemovePeer req)) (Peers dp) 0 with
      | None => (dp, false, None, None)
      | Some peerIndex =>
          if peer_ID (RemovePeer req) =? NodeId dp
          then (dp, false, None, Some index)
          else (set_Peers (take peerIndex (Peers dp) ++ drop (S peerIndex) (Peers dp)) dp,
                true, None, None)
      end
  end.

(** What the goroutine sees in one round of its loop, after the sleep: the
    applied index of the engine ([None] when [dp.raftPartition] is nil at
    the call, a nil dereference), and whether [dp.raftPartition] is still
    set when it is tested before [Delete]. *)
Record observation := mkObservation {
  obs_applied : option Z;
  obs_attached : bool
}.

Inductive teardownEvent :=
| EvRaftDelete
| EvPartitionStop
| EvRemoveAll (dir : string).

Inductive teardownExit := Finished | Panicked | StillWaiting.

(** The goroutine of [confRemoveNode] over the rounds it lives through. *)
Fixpoint removeSelf (index : Z) (dir : string) (rounds : list observation)
  : list teardownEvent * teardownExit :=
  match rounds with
  | [] => ([], StillWaiting)
  | o :: rest =>
      match obs_applied o with
      | None => ([], Panicked)
      | Some applied =>
          if applied <? index then removeSelf index dir rest
          else ((if obs_attached o then [EvRaftDelete] else [])
                  ++ [EvPartitionStop; EvRemoveAll dir], Finished)
      end
  end.

(** The rounds in which the goroutine goes back to sleep, and what it does
    in the round in which it does not. *)
Definition waits (index : Z) (o : observation) : Prop :=
  exists a, obs_applied o = Some a /\ a < index.

Definition teardown (dir : string) (o : observation) : list teardownEvent :=
  (if obs_attached o then [EvRaftDelete] else []) ++ [EvPartitionStop; EvRemoveAll dir].

(** *** [storeApplyIndex] and [LoadApplyIndex] *)

(** The calls [storeApplyIndex] makes to the operating system. *)
Inductive sysCall :=
| SysOpenFile (name : string)
| SysWriteString (name data : string)
| SysRename (old new : string)
| SysSync
| SysClose
| SysRemove (name : string).

(** The position of the first call of a trace that satisfies [P]. *)
Fixpoint position (P : sysCall -> bool) (cs : list sysCall) : option nat :=
  match cs with
  | [] => None
  | c :: rest => if P c then Some 0%nat else option_map S (position P rest)
  end.

Definition isSync (c : sysCall) : bool := match c with SysSync => true | _ => false end.
Definition isRename (c : sysCall) : bool := match c with SysRename _ _ => true | _ => false end.
Definition isWrite (c : sysCall) : bool := match c with SysWriteString _ _ => true | _ => false end.

(** The deferred function: it runs when [storeApplyIndex] returns. *)
Definition storeDeferred (filename : string) : list sysCall :=
  [SysSync; SysClose; SysRemove filename].

(** [storeApplyIndex], given the errors of [OpenFile], [WriteString] and
    [Rename]: the calls made, in order, and the error returned. *)
Definition storeApplyIndex `{Env} (dp : dataPartition) (applyIndex : Z)
    (openErr writeErr renameErr : option error) : list sysCall * option error :=
  let filename := pathJoin (path dp) TempApplyIndexFile in
  match openErr with
  | Some e => ([SysOpenFile filename], Some e)
  | None =>
      let body :=
        match writeErr with
        | Some e =>
            ([SysWriteString filename (Fmt.FormatUint applyIndex)], Some e)
        | None =>
            ([SysWriteString filename (Fmt.FormatUint applyIndex);
              SysRename filename (pathJoin (path dp) ApplyIndexFile)], renameErr)
        end in
      (SysOpenFile filename :: fst body ++ storeDeferred filename, snd body)
  end.

(** A file: the bytes a read returns, the bytes that have reached the disk,
    and whether it can be read at all. *)
Record file := mkFile {
  contents : string;
  synced : string;
  readable : bool
}.

(** A directory tree, by full path name, and the name under which the one
    open descriptor of [storeApplyIndex] is currently reachable. *)
Record disk := mkDisk {
  entries : gmap string file;
  opened : option string
}.

(** The effect of one call on the disk. *)
Definition sysStep (d : disk) (c : sysCall) : disk :=
  match c with
  | SysOpenFile name =>
      let f :=
        match entries d !! name with
        | Some f => mkFile "" (synced f) (readable f)
        | None => mkFile "" "" true
        end in
      mkDisk (<[name := f]> (entries d)) (Some name)
  | SysWriteString name data =>
      match entries d !! name with
      | Some f => mkDisk (<[name := mkFile (contents f +:+ data) (synced f) (readable f)]> (entries d)) (opened d)
      | None => d
      end
  | SysRename old new =>
      match entries d !! old with
      | Some f =>
          mkDisk (<[new := f]> (delete old (entries d)))
                 (if decide (opened d = Some old) then Some new else opened d)
      | None => d
      end
  | SysSync =>
      match opened d with
      | Some name =>
          match entries d !! name with
          | Some f => mkDisk (<[name := mkFile (contents f) (contents f) (readable f)]> (entries d)) (opened d)
          | None => d
          end
      | None => d
      end
  | SysClose => mkDisk (entries d) None
  | SysRemove name => mkDisk (delete name (entries d)) (opened d)
  end.

(** The calls in order.  [opened] follows one descriptor: the calls are
    those of one [storeApplyIndex], or of several that hold the same file
    open. *)
Definition sysRun (d : disk) (cs : list sysCall) : disk := fold_left sysStep cs d.

(** A crash: every file falls back to the bytes that had reached the
    disk, and no descriptor is open. *)
Definition crash (d : disk) : disk :=
  mkDisk ((fun f => mkFile (synced f) (synced f) (readable f)) <$> entries d) None.

Definition Stat (d : disk) (name : string) : option error :=
  match entries d !! name with
  | Some _ => None
  | None => Some (Errorf "stat: no such file or directory")
  end.

Definition ReadFile (d : disk) (name : string) : error + string :=
  match entries d !! name with
  | Some f => if readable f then inr (contents f) else inl (Errorf "open: permission denied")
  | None => inl (Errorf "open: no such file or directory")
  end.

Definition LoadApplyIndex `{Env} (dp : dataPartition) (d : disk)
  : dataPartition * option error :=
  let filename := pathJoin (path dp) ApplyIndexFile in
  match Stat d filename with
  | Some _ => (dp, None)
  | None =>
      match ReadFile d filename with
      | inl e =>
          if error_eqb e ErrNotExist then (dp, None)
          else (dp, Some (Errorf "[loadApplyIndex] OpenFile"))
      | inr data =>
          if (String.length data =? 0)%nat
          then (dp, Some (Errorf "[loadApplyIndex]: ApplyIndex is empty"))
          else
            match Fmt.scanUint Fmt.VerbD 64 data with
            | inl e => (dp, Some (Errorf "[loadApplyID] ReadApplyID"))
            | inr (v, _) => (set_applyId v dp, None)
            end
      end
  end.

(** *** [ExtentRepair] and [ApplyErrRepair] *)

Definition ExtentRepair (extentFiles : list FileInfo) : list repairEvent :=
  let mf := NewMemberFileMetas in
  let tasks :=
    map (fun f => mkFileInfo (Source f) (FileId f) (fi_Size f) (Inode f)) extentFiles in
  [EvMergeRepair (mkMemberFileMetas (files mf) (NeedAddExtentsTasks mf ++ tasks) (mf_TaskType mf))].

Definition ApplyErrRepair `{Env} (dp : dataPartition) (extentId : Z)
  : dataPartition * list repairEvent :=
  let (leaderAddr, isLeader) := IsLeader dp in
  let (dp1, ev) := stopRaft dp in
  match GetOneWatermark dp1 extentId with
  | inl _ => (dp1, ev)
  | inr extentInfo =>
      if isLeader then
        let memberMetas := NewMemberFileMetas in
        let addFile :=
          mkFileInfo leaderAddr (FileId extentInfo) (fi_Size extentInfo) (Inode extentInfo) in
        let memberMetas :=
          mkMemberFileMetas (<[FileId extentInfo := extentInfo]> (files memberMetas))
            (NeedAddExtentsTasks memberMetas ++ [addFile]) FixRaftFollower in
        (dp1, ev ++ [EvNotifyRaftFollowerRepair memberMetas])
      else if negb (String.eqb leaderAddr "") then
        let extentInfo' :=
          mkFileInfo leaderAddr (FileId extentInfo) (fi_Size extentInfo) (Inode extentInfo) in
        (dp1, ev ++ [EvDeleteDirtyExtent extentId] ++ ExtentRepair [extentInfo'])
      else (dp1, ev)
  end.

(** *** [getMinAppliedId] *)

(** What the poll meets at one replica: [gConnPool.Get], [WriteToConn] or
    [ReadFromConn] fails, or the reply's payload arrives. *)
Inductive pollStep :=
| ConnFail (e : error)
| WriteFail (e : error)
| ReadFail (e : error)
| Reply (data : list Z).

Inductive pollExit :=
| PollDone
| PollErr (e : error)
| PollPanic.

(** The loop over [replicaHosts[i]], [i >= 1]: the local [minAppliedId]
    when the loop is left, and how it is left. *)
Fixpoint pollLoop (net : nat -> pollStep) (i : nat) (targets : list string)
    (minAppliedId : Z) : Z * pollExit :=
  match targets with
  | [] => (minAppliedId, PollDone)
  | _ :: rest =>
      match net i with
      | ConnFail e => (minAppliedId, PollErr e)
      | WriteFail e => (minAppliedId, PollErr e)
      | ReadFail e => (minAppliedId, PollErr e)
      | Reply data =>
          match Uint64 data with
          | None => (minAppliedId, PollPanic)
          | Some remoteAppliedId =>
              let minAppliedId' :=
                if (remoteAppliedId <? minAppliedId) && negb (remoteAppliedId =? 0)
                then remoteAppliedId else minAppliedId in
              pollLoop net (S i) rest minAppliedId'
          end
      end
  end.

Inductive pollOutcome :=
| NoHosts
| NotCoordinator
| Polled (localMin : Z) (exit : pollExit).

(** The deferred closure: its parameter was bound when the [defer]
    statement ran, [err] is read when the function returns. *)
Definition pollDeferred (newMinAppliedId : Z) (err : option error)
    (dp : dataPartition) : dataPartition :=
  match err with
  | None => set_minAppliedId newMinAppliedId dp
  | Some _ => dp
  end.

Definition getMinAppliedId `{Env} (dp : dataPartition) (net : nat -> pollStep)
  : dataPartition * pollOutcome :=
  match replicaHosts dp with
  | [] => (dp, NoHosts)
  | first :: others =>
      if negb (String.eqb (hostOf first) LocalIP) then (dp, NotCoordinator)
      else
        (* var minAppliedId uint64: zero when the defer statement
           evaluates the argument of the deferred call *)
        let minAppliedId := 0 in
        let deferred := pollDeferred minAppliedId in
        let minAppliedId := applyId dp in
        let (localMin, exit) := pollLoop net 1 others minAppliedId in
        let err := match exit with PollErr e => Some e | _ => None end in
        (deferred err dp, Polled localMin exit)
  end.

(** *** [StartSchedule]: the control loop *)

(** A [time.Timer]: [armed] until it expires or is stopped; on expiry the
    runtime puts one value into the channel [C].  [time.NewTimer] arms it
    once, and only [Reset] would arm it again. *)
Record Timer := mkTimer { armed : bool; fired : bool }.

Definition NewTimer : Timer := mkTimer true false.
Definition timerStop (t : Timer) : Timer := mkTimer false (fired t).
Definition timerExpire (t : Timer) : option Timer :=
  if armed t then Some (mkTimer false true) else None.
Definition timerReceive (t : Timer) : option Timer :=
  if fired t then Some (mkTimer (armed t) false) else None.

(** Where the loop goroutine stands: before the head of the loop body,
    in the [select], blocked for good on [readyChan <- struct{}{}] (the
    channel holds one value and only this goroutine receives from it), or
    returned. *)
Inductive loopPc := AtHead | AtSelect | BlockedOnReady | Exited.

Record loopState := mkLoopState {
  dp : dataPartition;
  isRunning : bool;
  indexes : list Z;
  readyChan : bool;
  truncRaftlogTimer : Timer;
  storeAppliedTimer : Timer;
  stopC : bool;
  pc : loopPc
}.

(** The state [StartSchedule] leaves behind when it returns. *)
Definition StartSchedule (p : dataPartition) : loopState :=
  mkLoopState p false [] false NewTimer NewTimer false AtHead.

Inductive timerName := TruncRaftlog | StoreApplied.

(** The case the [select] takes, with what the world answers during it. *)
Inductive selectCase :=
| CaseStop
| CaseReady
| CaseStore
| CaseRaftOp (started : option RaftPartition)
| CaseRepair
| CaseTruncTimer (net : nat -> pollStep)
| CaseStoreTimer.

(** What moves the system: the runtime expiring a timer, another goroutine
    sending on a channel of the partition, a [dumpFunc] goroutine
    finishing, the head of the loop body, or the [select]. *)
Inductive label :=
| TimerExpires (t : timerName)
| SendStoreC (applyId : Z)
| SendRepairC (extentId : Z)
| SendStopC
| DumpReturns (applyIndex : Z) (err : option error)
| LoopHead
| Select (c : selectCase).

(** What the loop starts or asks of the outside. *)
Inductive action :=
| GoDump (idx : Z)
| GoTruncate (index : Z)
| Repair (ev : repairEvent)
| Panic.

Definition with_dp (p : dataPartition) (s : loopState) : loopState :=
  mkLoopState p (isRunning s) (indexes s) (readyChan s)
    (truncRaftlogTimer s) (storeAppliedTimer s) (stopC s) (pc s).

Definition with_pc (c : loopPc) (s : loopState) : loopState :=
  mkLoopState (dp s) (isRunning s) (indexes s) (readyChan s)
    (truncRaftlogTimer s) (storeAppliedTimer s) (stopC s) c.

(** The head of the loop body: [if len(indexes) > 0 { if isRunning ==
    false { isRunning = true; readyChan <- struct{}{} } }]. *)
Definition loopHead (s : loopState) : loopState :=
  match indexes s with
  | [] => with_pc AtSelect s
  | _ =>
      if isRunning s then with_pc AtSelect s
      else mkLoopState (dp s) true (indexes s) true
             (truncRaftlogTimer s) (storeAppliedTimer s) (stopC s)
             (if readyChan s then BlockedOnReady else AtSelect)
  end.

(** The case of the truncation timer. *)
Definition truncCycle `{Env} (p : dataPartition) (net : nat -> pollStep)
  : dataPartition * pollOutcome * list action :=
  let (p1, out) := getMinAppliedId p net in
  match out with
  | NoHosts => (p1, out, [Panic])
  | Polled _ PollPanic => (p1, out, [Panic])
  | _ =>
      if lastTruncateId p1 <? minAppliedId p1 then
        match raftPartition p1 with
        | None => (p1, out, [Panic])
        | Some _ =>
            (set_lastTruncateId (minAppliedId p1) p1, out, [GoTruncate (minAppliedId p1)])
        end
      else (p1, out, [])
  end.

Definition hasPanic (acts : list action) : bool :=
  existsb (fun a => match a with Panic => true | _ => false end) acts.

(** One case of the [select]; the loop goes back to its head, or returns
    on [stopC]. *)
Definition selectStep `{Env} (c : selectCase) (s : loopState)
  : option (loopState * list action) :=
  let p := dp s in
  match c with
  | CaseStop =>
      if stopC s then
        Some (mkLoopState p (isRunning s) (indexes s) (readyChan s)
                (timerStop (truncRaftlogTimer s)) (timerStop (storeAppliedTimer s))
                false Exited, [])
      else None
  | CaseReady =>
      if readyChan s then
        Some (mkLoopState p (isRunning s) [] false
                (truncRaftlogTimer s) (storeAppliedTimer s) (stopC s) AtHead,
              map GoDump (indexes s))
      else None
  | CaseStore =>
      match storeC p with
      | [] => None
      | v :: rest =>
          Some (mkLoopState (set_storeC rest p) (isRunning s) (indexes s ++ [v]) (readyChan s)
                  (truncRaftlogTimer s) (storeAppliedTimer s) (stopC s) AtHead, [])
      end
  | CaseRaftOp started =>
      match raftC p with
      | [] => None
      | code :: rest =>
          let p1 := set_raftC rest p in
          match raftPartition p1 with
          | None =>
              if opRaftCode_eqb code opStartRaft then
                match started with
                | Some h => Some (with_pc AtHead (with_dp (set_raftPartition (Some h) p1) s), [])
                | None => Some (with_pc AtHead (with_dp p1 s), [Panic])
                end
              else Some (with_pc AtHead (with_dp p1 s), [])
          | Some _ => Some (with_pc AtHead (with_dp p1 s), [])
          end
      end
  | CaseRepair =>
      match repairC p with
      | [] => None
      | extentId :: rest =>
          let (p1, ev) := ApplyErrRepair (set_repairC rest p) extentId in
          Some (with_pc AtHead (with_dp (set_raftC (raftC p1 ++ [opStartRaft]) p1) s),
                map Repair ev)
      end
  | CaseTruncTimer net =>
      match timerReceive (truncRaftlogTimer s) with
      | None => None
      | Some t =>
          let '(p1, _, acts) := truncCycle p net in
          Some (mkLoopState p1 (isRunning s) (indexes s) (readyChan s)
                  t (storeAppliedTimer s) (stopC s) AtHead, acts)
      end
  | CaseStoreTimer =>
      match timerReceive (storeAppliedTimer s) with
      | None => None
      | Some t =>
          Some (mkLoopState (set_storeC (storeC p ++ [applyId p]) p)
                  (isRunning s) (indexes s) (readyChan s)
                  (truncRaftlogTimer s) t (stopC s) AtHead, [])
      end
  end.

(** One move of the system; [None] when the move is not possible in this
    state (nothing to receive, timer not armed, loop elsewhere or gone). *)
Definition step `{Env} (l : label) (s : loopState) : option (loopState * list action) :=
  match l with
  | TimerExpires TruncRaftlog =>
      match timerExpire (truncRaftlogTimer s) with
      | Some t =>
          Some (mkLoopState (dp s) (isRunning s) (indexes s) (readyChan s)
                  t (storeAppliedTimer s) (stopC s) (pc s), [])
      | None => None
      end
  | TimerExpires StoreApplied =>
      match timerExpire (storeAppliedTimer s) with
      | Some t =>
          Some (mkLoopState (dp s) (isRunning s) (indexes s) (readyChan s)
                  (truncRaftlogTimer s) t (stopC s) (pc s), [])
      | None => None
      end
  | SendStoreC v => Some (with_dp (set_storeC (storeC (dp s) ++ [v]) (dp s)) s, [])
  | SendRepairC e => Some (with_dp (set_repairC (repairC (dp s) ++ [e]) (dp s)) s, [])
  | SendStopC =>
      Some (mkLoopState (dp s) (isRunning s) (indexes s) (readyChan s)
              (truncRaftlogTimer s) (storeAppliedTimer s) true (pc s), [])
  | DumpReturns applyIndex err =>
      let p1 :=
        match err with
        | Some _ => set_storeC (storeC (dp s) ++ [applyIndex]) (dp s)
        | None => dp s
        end in
      Some (mkLoopState p1 false (indexes s) (readyChan s)
              (truncRaftlogTimer s) (storeAppliedTimer s) (stopC s) (pc s), [])
  | LoopHead =>
      match pc s with
      | AtHead => Some (loopHead s, [])
      | _ => None
      end
  | Select c =>
      match pc s with
      | AtSelect => selectStep c s
      | _ => None
      end
  end.

(** A run: the moves in order and the actions they produced.  A panic ends
    the process, so no move follows one. *)
Fixpoint run `{Env} (ls : list label) (s : loopState) : option (loopState * list action) :=
  match ls with
  | [] => Some (s, [])
  | l :: rest =>
      match step l s with
      | None => None
      | Some (s1, acts) =>
          if hasPanic acts then
            match rest with
            | [] => Some (s1, acts)
            | _ => None
            end
          else
            match run rest s1 with
            | None => None
            | Some (s2, acts') => Some (s2, acts ++ acts')
            end
      end
  end.

(** How often the loop took the case of a timer in a run. *)
Definition isTick (t : timerName) (l : label) : bool :=
  match l, t with
  | Select (CaseTruncTimer _), TruncRaftlog => true
  | Select CaseStoreTimer, StoreApplied => true
  | _, _ => false
  end.

Fixpoint ticks (t : timerName) (ls : list label) : nat :=
  match ls with
  | [] => 0%nat
  | l :: rest => ((if isTick t l then 1 else 0) + ticks t rest)%nat
  end.

Definition timerOf (t : timerName) (s : loopState) : Timer :=
  match t with
  | TruncRaftlog => truncRaftlogTimer s
  | StoreApplied => storeAppliedTimer s
  end.

(** The values a timer can still deliver: one while it is armed, one while
    its channel is full. *)
Definition pending (t : timerName) (s : loopState) : nat :=
  (Nat.b2n (armed (timerOf t s)) + Nat.b2n (fired (timerOf t s)))%nat.

(** *** A concrete node *)

Definition env0 : Env := {|
  ApplyIndexFile := "APPLY";
  TempApplyIndexFile := ".apply";
  LocalIP := "10.0.0.1";
  IsLeader p := match raftPartition p with Some _ => ("10.0.0.1:6000", true) | None => ("", false) end;
  GetOneWatermark _ extentId := inr (mkFileInfo "" extentId 4096 9)
|}.

Definition dp0 : dataPartition :=
  mkDataPartition 7 "/data/dp7"
    [mkPeer 1 "10.0.0.1:6000"; mkPeer 2 "10.0.0.2:6000"; mkPeer 3 "10.0.0.3:6000"] 1
    (Some (RaftHandle 7)) 10 3 3
    ["10.0.0.1:6000"; "10.0.0.2:6000"; "10.0.0.3:6000"] [] [] [].

(** A partition directory holding the applied-index file with the given
    bytes, all of them on disk. *)
Definition diskWith (data : string) : disk :=
  mkDisk {[ "/data/dp7/APPLY"%string := mkFile data data true ]} None.

Definition diskWithout : disk := mkDisk ∅ None.

Definition replies (vs : list Z) (i : nat) : pollStep :=
  match (vs : list Z) !! (i - 1)%nat with
  | Some v => Reply (PutUint64 v)
  | None => ConnFail (Errorf "no route to host")
  end.

(** *** [getRaftPort], [StartRaft], [confAddNode], [confUpdateNode] *)

(** [strings.Split(s, ":")]: one part more than there are colons. *)
Fixpoint splitColon (s : string) : list string :=
  match s with
  | EmptyString => [EmptyString]
  | String c r =>
      if Ascii.eqb c ":" then EmptyString :: splitColon r
      else
        match splitColon r with
        | h :: t => String c h :: t
        | [] => [String c EmptyString]
        end
  end.

(** The number of colons in an address. *)
Fixpoint colons (s : string) : nat :=
  match s with
  | EmptyString => 0%nat
  | String c r => ((if Ascii.eqb c ":" then 1 else 0) + colons r)%nat
  end.

(** The ids of a peer list, in order. *)
Definition peerIDs (ps : list Peer) : list Z := map peer_ID ps.

(** [strconv.Atoi] on a 64-bit platform: an optional sign and at least one
    decimal digit; the value and the error, the value being 0 after a
    syntax error and the nearest bound after a range error. *)
Definition Atoi (s : string) : Z * option error :=
  let '(neg, digits) :=
    match s with
    | String "-" r => (true, r)
    | String "+" r => (false, r)
    | _ => (false, s)
    end in
  match digits with
  | EmptyString => (0, Some (Errorf "strconv.Atoi: invalid syntax"))
  | _ =>
      match Fmt.parseDigits 10 digits 0 with
      | None => (0, Some (Errorf "strconv.Atoi: invalid syntax"))
      | Some n =>
          let v := if neg then - n else n in
          if v <? - 2 ^ 63 then (- 2 ^ 63, Some (Errorf "strconv.Atoi: value out of range"))
          else if 2 ^ 63 <=? v then (2 ^ 63 - 1, Some (Errorf "strconv.Atoi: value out of range"))
          else (v, None)
      end
  end.

(** The two addresses of [raftstore.Config] that [RaftConfig()] returns. *)
Record RaftConfig := mkRaftConfig {
  HeartbeatAddr : string;
  ReplicateAddr : string
}.

(** [getRaftPort]: the results [heartbeat], [replicate] and [err]. *)
Definition getRaftPort (raftConfig : RaftConfig) : Z * Z * option error :=
  let heartbeatAddrParts := splitColon (HeartbeatAddr raftConfig) in
  let replicateAddrParts := splitColon (ReplicateAddr raftConfig) in
  if negb (length heartbeatAddrParts =? 2)%nat
  then (0, 0, Some (Errorf "illegal heartbeat address"))
  else if negb (length replicateAddrParts =? 2)%nat
  then (0, 0, Some (Errorf "illegal replicate address"))
  else
    let (heartbeat, err) := Atoi (nth 1 heartbeatAddrParts EmptyString) in
    match err with
    | Some _ => (heartbeat, 0, err)
    | None =>
        let (replicate, err) := Atoi (nth 1 replicateAddrParts EmptyString) in
        (heartbeat, replicate, err)
    end.

(** [raftstore.PeerAddress] and [raftstore.PartitionConfig]. *)
Record PeerAddress := mkPeerAddress {
  pa_ID : Z;
  pa_Address : string;
  HeartbeatPort : Z;
  ReplicatePort : Z
}.

Record PartitionConfig := mkPartitionConfig {
  pc_ID : Z;
  pc_Applied : Z;
  pc_Peers : list PeerAddress;
  pc_WalPath : string
}.

(** [StartRaft], given what [CreatePartition] answers: the partition, the
    error, and the configuration handed to the engine when it was called. *)
Definition StartRaft (raftConfig : RaftConfig)
    (CreatePartition : PartitionConfig -> option RaftPartition * option error)
    (p : dataPartition) : dataPartition * option error * option PartitionConfig :=
  let '(heartbeatPort, replicatePort, err) := getRaftPort raftConfig in
  match err with
  | Some _ => (p, err, None)
  | None =>
      let peers :=
        map (fun peer =>
               mkPeerAddress (peer_ID peer) (hostOf (peer_Addr peer))
                 heartbeatPort replicatePort) (Peers p) in
      let cfg := mkPartitionConfig (partitionId p) (applyId p) peers (path p) in
      let (handle, err) := CreatePartition cfg in
      (set_raftPartition handle p, err, Some cfg)
  end.

(** The call [AddNodeWithPort] on the raft store. *)
Record addNodeCall := mkAddNodeCall {
  an_ID : Z;
  an_Address : string;
  an_HeartbeatPort : Z;
  an_ReplicatePort : Z
}.

(** [confAddNode]: the partition, [updated], [err], and the call made on
    the raft store. *)
Definition confAddNode (raftConfig : RaftConfig) (p : dataPartition)
    (req : DataPartitionOfflineRequest) (index : Z)
  : dataPartition * bool * option error * option addNodeCall :=
  let '(heartbeatPort, replicatePort, err) := getRaftPort raftConfig in
  match err with
  | Some _ => (p, false, err, None)
  | None =>
      let findAddPeer := existsb (fun peer => peer_ID peer =? peer_ID (AddPeer req)) (Peers p) in
      let updated := negb findAddPeer in
      if negb updated then (p, updated, None, None)
      else
        (set_Peers (Peers p ++ [AddPeer req]) p, updated, None,
         Some (mkAddNodeCall (peer_ID (AddPeer req)) (hostOf (peer_Addr (AddPeer req)))
                 heartbeatPort replicatePort))
  end.

Definition confUpdateNode (p : dataPartition) (req : DataPartitionOfflineRequest)
    (index : Z) : dataPartition * bool * option error := (p, false, None).

(** *** [NewGetAppliedId] *)

(** The fields of [Packet] that [NewGetAppliedId] sets. *)
Record Packet := mkPacket {
  Opcode : Z;
  pk_PartitionID : Z;
  Magic : Z;
  ReqID : Z;
  Data : list Z;
  pk_Size : Z
}.

(** [NewGetAppliedId], given the two constants of package [proto] and the
    request id [proto.GetReqID()] hands out. *)
Definition NewGetAppliedId (OpGetAppliedId ProtoMagic reqID : Z)
    (partitionId minAppliedId : Z) : Packet :=
  let data := PutUint64 minAppliedId in
  mkPacket OpGetAppliedId partitionId ProtoMagic reqID data (Z.of_nat (length data)).

(** *** What a run of the control loop receives and starts *)

(** The values a run puts on [storeC], the partition's [applyId] being
    [a]: those other goroutines send, those a failed [dumpFunc] sends back,
    and the one the applied-index timer makes the loop send. *)
Definition sent (a : Z) (ls : list label) : list Z :=
  flat_map (fun l =>
              match l with
              | SendStoreC v => [v]
              | DumpReturns v (Some _) => [v]
              | Select CaseStoreTimer => [a]
              | _ => []
              end) ls.

(** The indexes for which a run started a [dumpFunc] goroutine. *)
Definition dumps (acts : list action) : list Z :=
  flat_map (fun a => match a with GoDump idx => [idx] | _ => [] end) acts.

(** The loop goroutine can still move. *)
Definition loopAlive (s : loopState) : bool :=
  match pc s with
  | AtHead | AtSelect => true
  | BlockedOnReady | Exited => false
  end.

Definition isLoopMove (l : label) : bool :=
  match l with
  | LoopHead | Select _ => true
  | _ => false
  end.

(** The [select] takes the case of [raftC]. *)
Definition isRaftOp (l : label) : bool :=
  match l with
  | Select (CaseRaftOp _) => true
  | _ => false
  end.

(** Consensus detached, and the requests [base] on [raftC], first in
    line. *)
Definition detached (base : list opRaftCode) (s : loopState) : Prop :=
  raftPartition (dp s) = None /\ exists more, raftC (dp s) = base ++ more.

(** The same partition on the node of the second replica. *)
Definition dp1 : dataPartition :=
  mkDataPartition 7 "/data/dp7"
    [mkPeer 1 "10.0.0.1:6000"; mkPeer 2 "10.0.0.2:6000"; mkPeer 3 "10.0.0.3:6000"] 2
    (Some (RaftHandle 7)) 10 3 3
    ["10.0.0.2:6000"; "10.0.0.1:6000"; "10.0.0.3:6000"] [] [] [].

Definition raftConfig0 : RaftConfig := mkRaftConfig "10.0.0.1:5901" "10.0.0.1:5902".

End Datanode.

(** ** Package [log]: [asyncFileWriter] *)
Module Log.

(** Constants of the package that the file uses and does not declare. *)
Class Limits := {
  WriterBufferLenLimit : nat;
  WriterBufferInitSize : nat
}.

(** The [*os.File] behind the writer: the bytes written, the bytes that a
    [Sync] has put on disk, and whether it is closed.  The writer ignores
    the results of [Write], [Sync] and [Close], which fail on a closed
    file. *)
Record osFile := mkOsFile {
  written : list Z;
  onDisk : list Z;
  fileClosed : bool
}.

Definition fileWrite (b : list Z) (f : osFile) : osFile :=
  if fileClosed f then f else mkOsFile (written f ++ b) (onDisk f) false.

Definition fileSync (f : osFile) : osFile :=
  if fileClosed f then f else mkOsFile (written f) (written f) false.

Definition fileClose (f : osFile) : osFile :=
  mkOsFile (written f) (onDisk f) true.

(** [mu] is [true] while the mutex is held, [closeC] once the channel is
    closed, [closeOnce] once the function given to [Do] has returned. *)
Record asyncFileWriter := mkWriter {
  file : osFile;
  buffer : list Z;
  mu : bool;
  closeC : bool;
  closeOnce : bool
}.

Definition set_file (f : osFile) (w : asyncFileWriter) : asyncFileWriter :=
  mkWriter f (buffer w) (mu w) (closeC w) (closeOnce w).
Definition set_buffer (b : list Z) (w : asyncFileWriter) : asyncFileWriter :=
  mkWriter (file w) b (mu w) (closeC w) (closeOnce w).
Definition set_mu (m : bool) (w : asyncFileWriter) : asyncFileWriter :=
  mkWriter (file w) (buffer w) m (closeC w) (closeOnce w).
Definition set_closeC (c : bool) (w : asyncFileWriter) : asyncFileWriter :=
  mkWriter (file w) (buffer w) (mu w) c (closeOnce w).
Definition set_closeOnce (c : bool) (w : asyncFileWriter) : asyncFileWriter :=
  mkWriter (file w) (buffer w) (mu w) (closeC w) c.

(** How a call ends: it returns, or its goroutine waits for the mutex with
    nobody left to release it. *)
Inductive callExit := Returned | Blocked.

(** [mu.Lock()]: a [sync.Mutex] is not reentrant, so it cannot be taken
    while it is held, by whomever. *)
Definition Lock (w : asyncFileWriter) : option asyncFileWriter :=
  if mu w then None else Some (set_mu true w).

Definition Unlock (w : asyncFileWriter) : asyncFileWriter := set_mu false w.

Definition flushToFile (w : asyncFileWriter) : asyncFileWriter * callExit :=
  match Lock w with
  | None => (w, Blocked)
  | Some w1 =>
      let flushLength := length (buffer w1) in
      if (flushLength =? 0)%nat then (Unlock w1, Returned)
      else
        let flushBytes := buffer w1 in
        let w2 := Unlock (set_buffer [] w1) in
        let w3 := set_file (fileWrite (take flushLength flushBytes) (file w2)) w2 in
        (set_file (fileSync (file w3)) w3, Returned)
  end.

(** [Write]: the writer, the results [n] and [err], and how the call
    ends.  The named results are never assigned. *)
Definition Write `{Limits} (p : list Z) (w : asyncFileWriter)
  : asyncFileWriter * Z * option error * callExit :=
  match Lock w with
  | None => (w, 0, None, Blocked)
  | Some w1 =>
      let w2 := Unlock (set_buffer (buffer w1 ++ p) w1) in
      if (WriterBufferLenLimit <? length (buffer w2))%nat then
        let (w3, ex) := flushToFile w2 in (w3, 0, None, ex)
      else (w2, 0, None, Returned)
  end.

(** [Close]: the mutex is taken for the whole call, and released by the
    deferred [Unlock] when the call returns. *)
Definition Close (w : asyncFileWriter) : asyncFileWriter * option error * callExit :=
  match Lock w with
  | None => (w, None, Blocked)
  | Some w1 =>
      if closeOnce w1 then (Unlock w1, None, Returned)
      else
        let w2 := set_closeC true w1 in
        match flushToFile w2 with
        | (w3, Blocked) => (w3, None, Blocked)
        | (w3, Returned) =>
            let w4 := set_file (fileClose (fileSync (file w3))) w3 in
            (Unlock (set_closeOnce true w4), None, Returned)
        end
  end.

Definition Flush (w : asyncFileWriter) : asyncFileWriter * callExit := flushToFile w.

(** The goroutine of [flushScheduler]: running, returned after it saw
    [closeC] closed, or waiting for the mutex. *)
Inductive scheduler := Running | Stopped | Stuck.

Record system := mkSystem {
  writer : asyncFileWriter;
  sched : scheduler
}.

(** [NewAsyncFileWriter(out)]. *)
Definition NewAsyncFileWriter (out : osFile) : system :=
  mkSystem (mkWriter out [] false false false) Running.

(** What happens next: a caller's [Write], [Flush] or [Close], or the
    scheduler taking the ticker or the [closeC] case of its [select]. *)
Inductive op :=
| OpWrite (p : list Z)
| OpFlush
| OpClose
| OpTick
| OpSeeClose.

(** One operation on the system, run from its start to its end with
    nothing coming in between; [None] when the scheduler cannot take that
    case.  What goroutines do to each other when they interleave is in
    [LogConc]. *)
Definition apply `{Limits} (o : op) (s : system) : option (system * callExit) :=
  match o with
  | OpWrite p =>
      let '(w, _, _, ex) := Write p (writer s) in Some (mkSystem w (sched s), ex)
  | OpFlush =>
      let (w, ex) := Flush (writer s) in Some (mkSystem w (sched s), ex)
  | OpClose =>
      let '(w, _, ex) := Close (writer s) in Some (mkSystem w (sched s), ex)
  | OpTick =>
      match sched s with
      | Running =>
          let (w, ex) := flushToFile (writer s) in
          Some (mkSystem w (match ex with Returned => Running | Blocked => Stuck end), ex)
      | _ => None
      end
  | OpSeeClose =>
      match sched s with
      | Running => if closeC (writer s) then Some (mkSystem (writer s) Stopped, Returned) else None
      | _ => None
      end
  end.

(** The operations in order; the bytes of the [Write] calls that
    returned, in order. *)
Fixpoint runOps `{Limits} (os : list op) (s : system) : option (system * list Z) :=
  match os with
  | [] => Some (s, [])
  | o :: rest =>
      match apply o s with
      | None => None
      | Some (s1, ex) =>
          match runOps rest s1 with
          | None => None
          | Some (s2, bytes) =>
              Some (s2, match o, ex with
                        | OpWrite p, Returned => p ++ bytes
                        | _, _ => bytes
                        end)
          end
      end
  end.

(** The bytes the writer holds: those in the file, then those in the
    buffer. *)
Definition held (w : asyncFileWriter) : list Z := written (file w) ++ buffer w.

(** What every operation keeps: [Close] never got through, the file is
    open, and the mutex is held only once [closeC] is closed. *)
Definition sound (s : system) : Prop :=
  closeOnce (writer s) = false /\ fileClosed (file (writer s)) = false /\
  (mu (writer s) = true -> closeC (writer s) = true).

Definition limits8 : Limits := {| WriterBufferLenLimit := 8; WriterBufferInitSize := 4 |}.

End Log.

(** ** Package [log]: [asyncFileWriter], goroutine by goroutine

    The calls of [Module Log] run from start to end.  Here every goroutine
    stops where another one can come in between: before each [mu.Lock()],
    and, in [flushToFile], between [mu.Unlock()] and [file.Write] and
    between [file.Write] and [file.Sync], the file being written with the
    mutex released.  What runs under the mutex touches the buffer only and
    is one step. *)
Module LogConc.
Import Log.

(** Where a goroutine stands in [flushToFile]: before [mu.Lock()], before
    [file.Write(flushBytes[:flushLength])], before [file.Sync()]. *)
Inductive flushPc :=
| AtLock
| AtFileWrite (flushBytes : list Z)
| AtFileSync.

(** Where a goroutine stands: the scheduler in its [select] or in its
    [flushToFile]; a caller of [Write] before [mu.Lock()] or before the
    test of the buffer length; a caller in the [flushToFile] of [Write] or
    [Flush]; a caller of [Close] before [mu.Lock()], in the
    [flushToFile] inside [closeOnce.Do], or after it, before
    [file.Sync()]; or returned. *)
Inductive goroutine :=
| SchedSelect
| SchedFlush (pc : flushPc)
| InWrite (p : list Z)
| InWriteCheck
| InFlush (pc : flushPc)
| InClose
| InCloseFlush (pc : flushPc)
| InCloseEnd
| Finished.

(** What is observed: bytes appended to the buffer by [Write], bytes
    handed to [file.Write]. *)
Inductive event :=
| Buffered (p : list Z)
| ToFile (b : list Z).

(** One step of [flushToFile]: the writer, where the goroutine stands
    next ([None] when [flushToFile] returns), and what was observed; no
    step while the mutex is held. *)
Definition flushStep (pc : flushPc) (w : asyncFileWriter)
  : option (asyncFileWriter * option flushPc * list event) :=
  match pc with
  | AtLock =>
      match Lock w with
      | None => None
      | Some w1 =>
          let flushLength := length (buffer w1) in
          if (flushLength =? 0)%nat then Some (Unlock w1, None, [])
          else
            let flushBytes := buffer w1 in
            Some (Unlock (set_buffer [] w1), Some (AtFileWrite (take flushLength flushBytes)), [])
      end
  | AtFileWrite b => Some (set_file (fileWrite b (file w)) w, Some AtFileSync, [ToFile b])
  | AtFileSync => Some (set_file (fileSync (file w)) w, None, [])
  end.

(** One step of a goroutine. *)
Definition goStep `{Limits} (g : goroutine) (w : asyncFileWriter)
  : option (asyncFileWriter * goroutine * list event) :=
  match g with
  | SchedSelect => None
  | SchedFlush pc =>
      match flushStep pc w with
      | None => None
      | Some (w1, Some pc1, ev) => Some (w1, SchedFlush pc1, ev)
      | Some (w1, None, ev) => Some (w1, SchedSelect, ev)
      end
  | InWrite p =>
      match Lock w with
      | None => None
      | Some w1 => Some (Unlock (set_buffer (buffer w1 ++ p) w1), InWriteCheck, [Buffered p])
      end
  | InWriteCheck =>
      Some (w, if (WriterBufferLenLimit <? length (buffer w))%nat then InFlush AtLock
               else Finished, [])
  | InFlush pc =>
      match flushStep pc w with
      | None => None
      | Some (w1, Some pc1, ev) => Some (w1, InFlush pc1, ev)
      | Some (w1, None, ev) => Some (w1, Finished, ev)
      end
  | InClose =>
      match Lock w with
      | None => None
      | Some w1 =>
          if closeOnce w1 then Some (Unlock w1, Finished, [])
          else Some (set_closeC true w1, InCloseFlush AtLock, [])
      end
  | InCloseFlush pc =>
      match flushStep pc w with
      | None => None
      | Some (w1, Some pc1, ev) => Some (w1, InCloseFlush pc1, ev)
      | Some (w1, None, ev) => Some (w1, InCloseEnd, ev)
      end
  | InCloseEnd =>
      Some (Unlock (set_closeOnce true (set_file (fileClose (fileSync (file w))) w)),
            Finished, [])
  | Finished => None
  end.

(** The writer and the goroutines that run its code. *)
Record conc := mkConc {
  shared : asyncFileWriter;
  goroutines : list goroutine
}.

(** [NewAsyncFileWriter(out)], with [go w.flushScheduler()]. *)
Definition NewAsyncFileWriter (out : osFile) : conc :=
  mkConc (mkWriter out [] false false false) [SchedSelect].

Inductive call := CallWrite (p : list Z) | CallFlush | CallClose.

Definition enter (c : call) : goroutine :=
  match c with
  | CallWrite p => InWrite p
  | CallFlush => InFlush AtLock
  | CallClose => InClose
  end.

(** What happens next: a new goroutine calls into the writer, goroutine
    [i] makes its next step, or goroutine [i], the scheduler in its
    [select], takes the ticker or the closed [closeC]. *)
Inductive move :=
| Go (c : call)
| Step (i : nat)
| Tick (i : nat)
| SeeClose (i : nat).

(** One move; [None] when it is not possible (no such goroutine, mutex
    held, goroutine elsewhere or returned). *)
Definition step `{Limits} (m : move) (s : conc) : option (conc * list event) :=
  match m with
  | Go c => Some (mkConc (shared s) (goroutines s ++ [enter c]), [])
  | Step i =>
      match goroutines s !! i with
      | None => None
      | Some g =>
          match goStep g (shared s) with
          | None => None
          | Some (w1, g1, ev) => Some (mkConc w1 (<[i := g1]> (goroutines s)), ev)
          end
      end
  | Tick i =>
      match goroutines s !! i with
      | Some SchedSelect =>
          Some (mkConc (shared s) (<[i := SchedFlush AtLock]> (goroutines s)), [])
      | _ => None
      end
  | SeeClose i =>
      match goroutines s !! i with
      | Some SchedSelect =>
          if closeC (shared s)
          then Some (mkConc (shared s) (<[i := Finished]> (goroutines s)), [])
          else None
      | _ => None
      end
  end.

Fixpoint run `{Limits} (ms : list move) (s : conc) : option (conc * list event) :=
  match ms with
  | [] => Some (s, [])
  | m :: rest =>
      match step m s with
      | None => None
      | Some (s1, ev) =>
          match run rest s1 with
          | None => None
          | Some (s2, ev') => Some (s2, ev ++ ev')
          end
      end
  end.

(** The pieces [Write] put into the buffer, and the pieces handed to
    [file.Write], each in the order of the run. *)
Definition bufferedOf (ev : list event) : list (list Z) :=
  flat_map (fun e => match e with Buffered p => [p] | ToFile _ => [] end) ev.

Definition filedOf (ev : list event) : list (list Z) :=
  flat_map (fun e => match e with ToFile b => [b] | Buffered _ => [] end) ev.

(** The pieces taken out of the buffer that a goroutine still holds. *)
Definition holds (g : goroutine) : list (list Z) :=
  match g with
  | SchedFlush (AtFileWrite b) | InFlush (AtFileWrite b) | InCloseFlush (AtFileWrite b) => [b]
  | _ => []
  end.

Definition inFlight (s : conc) : list (list Z) := flat_map holds (goroutines s).

(** What the run keeps: the file holds what it held at the start followed
    by the pieces filed; and the pieces taken out of the buffer so far, in
    the order they were taken and followed by the buffer, are the bytes
    [Write] buffered, while up to their order they are the pieces filed
    and those in flight. *)
Definition conserved (out : osFile) (ev : list event) (s : conc) : Prop :=
  written (file (shared s)) = written out ++ concat (filedOf ev) /\
  exists taken,
    concat taken ++ buffer (shared s) = concat (bufferedOf ev) /\
    Permutation taken (filedOf ev ++ inFlight s).

(** A goroutine inside [closeOnce.Do] is before the [mu.Lock()] of
    [flushToFile], with the mutex held. *)
Definition closing (m : bool) (g : goroutine) : Prop :=
  match g with
  | InCloseFlush AtLock => m = true
  | InCloseFlush _ | InCloseEnd => False
  | _ => True
  end.

(** No [Close] got past its [flushToFile], and the file is open. *)
Definition closeStuck (s : conc) : Prop :=
  closeOnce (shared s) = false /\ fileClosed (file (shared s)) = false /\
  Forall (closing (mu (shared s))) (goroutines s).

End LogConc.

(** * Part II: properties *)

(** ** Big-endian encoding *)

Lemma testbit_255 i : 0 <= i -> Z.testbit 255 i = (i <? 8).
Proof.
  intros Hi. change 255 with (Z.ones 8).
  destruct (Z.ltb_spec i 8).
  - apply Z.ones_spec_low; lia.
  - apply Z.ones_spec_high; lia.
Qed.

(** Bit [i] of the byte taken at offset [k] of [v] and put at offset [j]. *)
Lemma byte_lane_bit v k j i :
  0 <= k -> 0 <= j ->
  Z.testbit (Z.shiftl (byte_of (Z.shiftr v k)) j) i
  = (j <=? i) && (i <? j + 8) && Z.testbit v (i - j + k).
Proof.
  intros Hk Hj. unfold byte_of.
  destruct (Z.leb_spec j i) as [Hji|Hji]; simpl.
  - rewrite Z.shiftl_spec, Z.land_spec, Z.shiftr_spec, testbit_255 by lia.
    replace (i - j <? 8) with (i <? j + 8)
      by (destruct (Z.ltb_spec i (j + 8)), (Z.ltb_spec (i - j) 8); lia || reflexivity).
    apply andb_comm.
  - destruct (Z.neg_nonneg_cases i) as [Hn|Hn]; [now rewrite Z.testbit_neg_r|].
    rewrite Z.shiftl_spec by lia. apply Z.testbit_neg_r; lia.
Qed.

Lemma high_bits_zero v n i : 0 <= v < 2 ^ n -> 0 <= n <= i -> Z.testbit v i = false.
Proof.
  intros Hv Hn. destruct (Z.eq_dec v 0) as [->|Hnz]; [apply Z.bits_0|].
  apply Z.bits_above_log2; [lia|].
  apply Z.lt_le_trans with n; [|lia]. apply Z.log2_lt_pow2; lia.
Qed.

(** Decides every lane test [a <=? i] and [i <? a] of the goal from the
    bounds on [i] in the context. *)
Ltac lane_decide i :=
  repeat match goal with
  | |- context [Z.leb ?a i] =>
      first [ replace (Z.leb a i) with true by (symmetry; apply Z.leb_le; lia)
            | replace (Z.leb a i) with false by (symmetry; apply Z.leb_gt; lia) ]
  | |- context [Z.ltb i ?a] =>
      first [ replace (Z.ltb i a) with true by (symmetry; apply Z.ltb_lt; lia)
            | replace (Z.ltb i a) with false by (symmetry; apply Z.ltb_ge; lia) ]
  end;
  simpl; rewrite ?orb_false_r; try reflexivity; try (f_equal; lia).

Lemma Uint32_PutUint32 v rest :
  0 <= v < 2 ^ 32 -> Uint32 (PutUint32 v ++ rest) = Some v.
Proof.
  intros Hv. unfold PutUint32, Uint32. simpl. f_equal.
  apply Z.bits_inj'. intros i Hi.
  rewrite !Z.lor_spec.
  rewrite <- (Z.shiftl_0_r (byte_of v)), <- (Z.shiftr_0_r v) at 1.
  rewrite !byte_lane_bit by lia.
  destruct (Z.ltb_spec i 8); [lane_decide i|].
  destruct (Z.ltb_spec i 16); [lane_decide i|].
  destruct (Z.ltb_spec i 24); [lane_decide i|].
  destruct (Z.ltb_spec i 32); [lane_decide i|].
  rewrite (high_bits_zero v 32 i) by lia. lane_decide i.
Qed.

Lemma Uint64_PutUint64 v rest :
  0 <= v < 2 ^ 64 -> Uint64 (PutUint64 v ++ rest) = Some v.
Proof.
  intros Hv. unfold PutUint64, Uint64. simpl. f_equal.
  apply Z.bits_inj'. intros i Hi.
  rewrite !Z.lor_spec.
  rewrite <- (Z.shiftl_0_r (byte_of v)), <- (Z.shiftr_0_r v) at 1.
  rewrite !byte_lane_bit by lia.
  destruct (Z.ltb_spec i 8); [lane_decide i|].
  destruct (Z.ltb_spec i 16); [lane_decide i|].
  destruct (Z.ltb_spec i 24); [lane_decide i|].
  destruct (Z.ltb_spec i 32); [lane_decide i|].
  destruct (Z.ltb_spec i 40); [lane_decide i|].
  destruct (Z.ltb_spec i 48); [lane_decide i|].
  destruct (Z.ltb_spec i 56); [lane_decide i|].
  destruct (Z.ltb_spec i 64); [lane_decide i|].
  rewrite (high_bits_zero v 64 i) by lia. lane_decide i.
Qed.

(** ** Printing then scanning an unsigned integer *)
Module FmtFacts.
Import Fmt.

Ltac digit_cases d :=
  let H := fresh in
  assert (H : d = 0 \/ d = 1 \/ d = 2 \/ d = 3 \/ d = 4 \/ d = 5 \/ d = 6 \/
              d = 7 \/ d = 8 \/ d = 9) by lia;
  repeat (destruct H as [H|H]; [subst d|]); [..|subst d].

Lemma digitVal_digitChar d : 0 <= d <= 9 -> digitVal (digitChar d) = Some d.
Proof. intros Hd. digit_cases d; reflexivity. Qed.

Lemma inBase_digitChar d : 0 <= d <= 9 -> inBase 10 (digitChar d) = true.
Proof. intros Hd. digit_cases d; reflexivity. Qed.

Lemma digitChar_plain d :
  1 <= d <= 9 ->
  (nat_of_ascii (digitChar d) =? 10)%nat = false /\
  isSpace (digitChar d) = false /\
  forall r, scanBasePrefix (String (digitChar d) r) =
            (0, decimalDigits +:+ "_", false, EmptyString, String (digitChar d) r).
Proof. intros Hd. digit_cases d; try lia; repeat split. Qed.

Lemma append_nil (t : string) : "" +:+ t = t.
Proof. reflexivity. Qed.

Lemma append_cons c (s t : string) : String c s +:+ t = String c (s +:+ t).
Proof. reflexivity. Qed.

Lemma append_assoc (s t u : string) : (s +:+ t) +:+ u = s +:+ (t +:+ u).
Proof.
  induction s as [|c s IH]; [reflexivity|].
  rewrite !append_cons. f_equal. exact IH.
Qed.

Lemma fmtDigits_app fuel : forall v acc,
  fmtDigits fuel v acc = fmtDigits fuel v "" +:+ acc.
Proof.
  induction fuel as [|f IH]; intros v acc; simpl; [reflexivity|].
  destruct (v <? 10); [reflexivity|].
  rewrite (IH _ (String _ acc)), (IH _ (String _ "")). rewrite append_assoc. reflexivity.
Qed.

Lemma allIn_app base s t : allIn base (s +:+ t) = allIn base s && allIn base t.
Proof.
  induction s as [|c s IH]; [reflexivity|].
  rewrite append_cons. simpl. rewrite IH. apply andb_assoc.
Qed.

Lemma fmtDigits_allIn fuel : forall v, 0 <= v -> allIn 10 (fmtDigits fuel v "") = true.
Proof.
  induction fuel as [|f IH]; intros v Hv; simpl; [reflexivity|].
  assert (Hd : inBase 10 (digitChar (v mod 10)) = true)
    by (apply inBase_digitChar; pose proof (Z.mod_pos_bound v 10); lia).
  destruct (v <? 10); simpl.
  - now rewrite Hd.
  - rewrite fmtDigits_app, allIn_app, IH by (apply Z.div_pos; lia). simpl. now rewrite Hd.
Qed.

(** The first digit printed for a positive value is not zero. *)
Lemma fmtDigits_head fuel : forall v,
  0 < v < 10 ^ Z.of_nat fuel ->
  exists d t, 1 <= d <= 9 /\ fmtDigits fuel v "" = String (digitChar d) t.
Proof.
  induction fuel as [|f IH]; intros v Hv.
  - simpl in Hv. lia.
  - simpl. destruct (Z.ltb_spec v 10) as [Hlt|Hge].
    + exists v, EmptyString. split; [lia|]. now rewrite Z.mod_small by lia.
    + rewrite fmtDigits_app.
      destruct (IH (v / 10)) as (d & t & Hd & E).
      { rewrite Nat2Z.inj_succ, Z.pow_succ_r in Hv by lia.
        split; [apply Z.div_str_pos; lia | apply Z.div_lt_upper_bound; lia]. }
      exists d, (t +:+ String (digitChar (v mod 10)) ""). split; [exact Hd|].
      now rewrite E.
Qed.

Lemma parseDigits_app base s t : forall acc,
  parseDigits base (s +:+ t) acc =
  match parseDigits base s acc with
  | Some a => parseDigits base t a
  | None => None
  end.
Proof.
  induction s as [|c s IH]; intros acc; simpl; [reflexivity|].
  destruct (digitVal c) as [d|]; [|reflexivity].
  destruct (d <? base); [apply IH|reflexivity].
Qed.

Lemma parseDigits_fmtDigits fuel : forall v,
  0 <= v < 10 ^ Z.of_nat fuel -> parseDigits 10 (fmtDigits fuel v "") 0 = Some v.
Proof.
  induction fuel as [|f IH]; intros v Hv.
  - simpl in Hv. assert (v = 0) by lia. subst v. reflexivity.
  - simpl. pose proof (Z.mod_pos_bound v 10 ltac:(lia)) as Hm.
    destruct (Z.ltb_spec v 10) as [Hlt|Hge].
    + simpl. rewrite digitVal_digitChar by lia.
      replace (v mod 10 <? 10) with true by (symmetry; apply Z.ltb_lt; lia).
      now rewrite Z.mod_small by lia.
    + rewrite fmtDigits_app, parseDigits_app, IH.
      * simpl. rewrite digitVal_digitChar by lia.
        replace (v mod 10 <? 10) with true by (symmetry; apply Z.ltb_lt; lia).
        f_equal. pose proof (Z.div_mod v 10). lia.
      * rewrite Nat2Z.inj_succ, Z.pow_succ_r in Hv by lia.
        split; [apply Z.div_pos; lia | apply Z.div_lt_upper_bound; lia].
Qed.

(** [accepts] against the digit tests used elsewhere. *)
Lemma accepts_decimal c : accepts decimalDigits c = inBase 10 c.
Proof. destruct c as [[] [] [] [] [] [] [] []]; reflexivity. Qed.

Lemma accepts_app a b c : accepts (a +:+ b) c = accepts a c || accepts b c.
Proof.
  induction a as [|x a IH]; [reflexivity|].
  rewrite append_cons. simpl. rewrite IH. apply orb_assoc.
Qed.

(** Where a run of digits stops: at the end of the input or at a
    character that is not one of the digits. *)
Lemma acceptRun_rest digits s :
  match snd (acceptRun digits s) with
  | EmptyString => True
  | String c _ => accepts digits c = false
  end.
Proof.
  induction s as [|c s IH]; simpl; [exact I|].
  destruct (accepts digits c) eqn:Hc.
  - destruct (acceptRun digits s) as [tok rest]. exact IH.
  - exact Hc.
Qed.

Lemma acceptRun_all digits s :
  allIn 10 s = true ->
  (forall c, inBase 10 c = true -> accepts digits c = true) ->
  acceptRun digits s = (s, EmptyString).
Proof.
  intros Hs Hd. induction s as [|c s IH]; [reflexivity|].
  simpl in *. apply andb_true_iff in Hs as [Hc Hs]. now rewrite (Hd c Hc), IH.
Qed.

(** A decimal digit has the same value for [ParseUint] and is no
    underscore. *)
Lemma digitOf_decimal c :
  inBase 10 c = true -> digitOf c = digitVal c /\ Ascii.eqb c "_" = false.
Proof.
  destruct c as [[] [] [] [] [] [] [] []]; vm_compute; intros H;
    try discriminate; split; reflexivity.
Qed.

Lemma parseDigits_ge s : forall acc v,
  0 <= acc -> parseDigits 10 s acc = Some v -> acc <= v.
Proof.
  induction s as [|c s IH]; intros acc v Hacc H; simpl in H.
  - injection H as <-. lia.
  - destruct (digitVal c) as [d|] eqn:Hd; [|discriminate].
    destruct (Z.ltb_spec d 10); [|discriminate].
    assert (0 <= d).
    { revert Hd. clear. destruct c as [[] [] [] [] [] [] [] []]; vm_compute;
        intros H; try discriminate; injection H as <-; discriminate. }
    apply IH in H; lia.
Qed.

(** On a run of decimal digits whose value fits 64 bits the loop of
    [ParseUint] computes that value. *)
Lemma parseLoop_digits base0 u s : forall acc v,
  allIn 10 s = true -> 0 <= acc -> parseDigits 10 s acc = Some v -> v <= maxUint64 ->
  parseLoop base0 10 s acc u = inr (v, u).
Proof.
  induction s as [|c s IH]; intros acc v Hs Hacc Hp Hv; simpl in *.
  - now injection Hp as <-.
  - apply andb_true_iff in Hs as [Hc Hs].
    destruct (digitOf_decimal c Hc) as [-> ->]. cbn [andb].
    destruct (digitVal c) as [d|] eqn:Hd; [|discriminate].
    destruct (Z.ltb_spec d 10) as [Hlt|]; [|discriminate].
    assert (Hd0 : 0 <= d).
    { revert Hd. clear. destruct c as [[] [] [] [] [] [] [] []]; vm_compute;
        intros H; try discriminate; injection H as <-; discriminate. }
    pose proof Hp as Hge. apply parseDigits_ge in Hge; [|lia].
    unfold maxUint64 in *.
    replace (10 <=? d) with false by (symmetry; apply Z.leb_gt; lia).
    replace ((2 ^ 64 - 1) / 10 + 1 <=? acc) with false
      by (symmetry; apply Z.leb_gt; change ((2 ^ 64 - 1) / 10) with 1844674407370955161; lia).
    replace (2 ^ 64 - 1 <? acc * 10 + d) with false by (symmetry; apply Z.ltb_ge; lia).
    apply IH; auto; lia.
Qed.

Lemma FormatUint_zero : FormatUint 0 = "0"%string.
Proof. reflexivity. Qed.

(** After a number scanned by [%v] the input never goes on with an
    underscore: either it is at its end or the next character is not the
    separator. *)
Lemma scanUint_v_stops bits s v rest :
  scanUint VerbV bits s = inr (v, rest) ->
  expectChar "_" rest = inl ErrUnexpectedEOF \/
  expectChar "_" rest = inl (Errorf "input does not match format").
Proof.
  unfold scanUint. destruct (SkipSpace s) as [e|s1]; [discriminate|].
  destruct s1 as [|c0 r0]; [discriminate|].
  destruct (scanBasePrefix (String c0 r0)) as [[[[base digits] have] buf] s2] eqn:Hpre.
  assert (Hus : accepts digits "_" = true).
  { revert Hpre. unfold scanBasePrefix.
    repeat match goal with
           | |- context [match ?x with _ => _ end] => destruct x
           end; intros H; injection H as <- <- <- <- <-; reflexivity. }
  assert (Hstop : forall run rest',
             scanNumber digits have s2 = inr (run, rest') ->
             match rest' with
             | EmptyString => True
             | String c _ => accepts digits c = false
             end).
  { intros run rest' H. pose proof (acceptRun_rest digits s2) as R.
    assert (E : acceptRun digits s2 = (run, rest')).
    { unfold scanNumber in H. destruct have; [congruence|].
      destruct s2 as [|c2 r2]; [discriminate|].
      destruct (accepts digits c2); [congruence|discriminate]. }
    rewrite E in R. exact R. }
  destruct (scanNumber digits have s2) as [e|[run rest']] eqn:Hnum; [discriminate|].
  specialize (Hstop run rest' eq_refl).
  destruct (ParseUint (buf +:+ run) base) as [e|i]; [discriminate|].
  destruct (i <? 2 ^ bits); [|discriminate].
  intros H. injection H as <- <-.
  destruct rest' as [|c r]; [now left|right]. unfold expectChar.
  destruct (Ascii.eqb_spec "_"%char c) as [<-|_]; [congruence|reflexivity].
Qed.

End FmtFacts.

(** ** [ExtentKey]: the binary encoding is read back, the text is not *)
Module ProtoFacts.
Import Proto Fmt FmtFacts.

Lemma readField_Uint64 set v k rest :
  0 <= v < 2 ^ 64 ->
  readField 8 Uint64 set (k, PutUint64 v ++ rest) = ((set v k, rest), None).
Proof.
  intros Hv. pose proof (Uint64_PutUint64 v [] Hv) as E.
  rewrite app_nil_r in E. unfold readField, readFull, PutUint64 in *.
  cbn [app length Nat.ltb Nat.leb take drop firstn skipn].
  change (take 0 rest) with (@nil Z). change (drop 0 rest) with rest. now rewrite E.
Qed.

Lemma readField_Uint32 set v k rest :
  0 <= v < 2 ^ 32 ->
  readField 4 Uint32 set (k, PutUint32 v ++ rest) = ((set v k, rest), None).
Proof.
  intros Hv. pose proof (Uint32_PutUint32 v [] Hv) as E.
  rewrite app_nil_r in E. unfold readField, readFull, PutUint32 in *.
  cbn [app length Nat.ltb Nat.leb take drop firstn skipn].
  change (take 0 rest) with (@nil Z). change (drop 0 rest) with rest. now rewrite E.
Qed.

Lemma UnmarshalBinary_MarshalBinary k k0 rest :
  in_range k ->
  UnmarshalBinary k0 (fst (MarshalBinary k) ++ rest) = ((k, rest), None).
Proof.
  intros (H1 & H2 & H3 & H4 & H5). destruct k as [fo pid eid sz crc].
  cbn [FileOffset PartitionId ExtentId Size Crc] in *.
  unfold UnmarshalBinary, MarshalBinary, andThen.
  cbn [fst FileOffset PartitionId ExtentId Size Crc]. rewrite <- !app_assoc.
  rewrite readField_Uint64 by assumption.
  rewrite readField_Uint32 by assumption.
  rewrite readField_Uint64 by assumption.
  rewrite readField_Uint32 by assumption.
  rewrite readField_Uint32 by assumption.
  reflexivity.
Qed.

(** [UnMarshal] never gets past the first separator of its format: the
    [%v] that reads [FileOffset] takes every digit and every underscore
    that follows, so the literal [_] of the format finds the end of the
    input or another character.  Only [FileOffset] can have been stored. *)
Lemma UnMarshal_fails k m :
  exists k' e,
    UnMarshal k m = (k', Some e) /\
    (k' = k \/ exists v, k' = set_FileOffset v k).
Proof.
  unfold UnMarshal, andThen, scanField at 1.
  destruct (scanUint VerbV 64 m) as [e|[v rest]] eqn:Hscan.
  - exists k, e. split; [reflexivity|now left].
  - unfold scanSep at 1.
    destruct (scanUint_v_stops _ _ _ _ Hscan) as [-> | ->];
      eexists _, _; (split; [reflexivity|right; now exists v]).
Qed.

(** C9, on the code.  The binary half of the claim holds: for every extent key whose
    fields are in the ranges of their Go types, [MarshalBinary] returns no
    error and [UnmarshalBinary] on its bytes (whatever follows them in the
    buffer, whatever the receiver held) returns no error, consumes exactly
    those bytes and leaves the five fields of the original.  The text half
    does not: [UnMarshal] on the text of [Marshal] returns an error, for
    every key, and leaves [PartitionId], [ExtentId], [Size] and [Crc] of
    the receiver as they were, so the fields of the original are not
    reproduced. *)
Theorem ExtentKey_text_form_is_not_read_back (k k0 : ExtentKey) :
  in_range k ->
  snd (MarshalBinary k) = None /\
  (forall rest, UnmarshalBinary k0 (fst (MarshalBinary k) ++ rest) = ((k, rest), None)) /\
  (exists k' e,
     UnMarshal k0 (Marshal k) = (k', Some e) /\
     PartitionId k' = PartitionId k0 /\ ExtentId k' = ExtentId k0 /\
     Size k' = Size k0 /\ Crc k' = Crc k0).
Proof.
  intros Hk. split; [reflexivity|]. split.
  - intros rest. now apply UnmarshalBinary_MarshalBinary.
  - destruct (UnMarshal_fails k0 (Marshal k)) as (k' & e & E & Hk').
    exists k', e. split; [exact E|].
    destruct Hk' as [->|[v ->]]; repeat split.
Qed.

Lemma ExtentKey_text_form_is_not_read_back_witness :
  in_range key1 /\
  snd (MarshalBinary key1) = None /\
  (forall rest, UnmarshalBinary key0 (fst (MarshalBinary key1) ++ rest) = ((key1, rest), None)) /\
  (exists k' e,
     UnMarshal key0 (Marshal key1) = (k', Some e) /\
     PartitionId k' = PartitionId key0 /\ ExtentId k' = ExtentId key0 /\
     Size k' = Size key0 /\ Crc k' = Crc key0).
Proof.
  assert (Hk : in_range key1) by (unfold in_range, key1; simpl; lia).
  split; [exact Hk | exact (ExtentKey_text_form_is_not_read_back key1 key0 Hk)].
Defined.

(** The key [{4096 7 18446744073709551615 131072 3735928559}] prints as
    one run of digits and underscores, which [%v] takes whole and
    [ParseUint] finds out of range: nothing is stored. *)
Lemma UnMarshal_Marshal_key1 :
  UnMarshal key0 (Marshal key1) = (key0, Some (numError (Marshal key1) ErrRange)).
Proof. vm_compute. reflexivity. Qed.

(** The key [{1 2 3 4 5}] prints as ["1_2_3_4_5"], which [%v] reads as the
    one number 12345: that goes into [FileOffset], and the format finds
    the end of the input where it wants its first separator. *)
Lemma UnMarshal_Marshal_small :
  Marshal (mkExtentKey 1 2 3 4 5) = "1_2_3_4_5"%string /\
  UnMarshal key0 (Marshal (mkExtentKey 1 2 3 4 5))
    = (mkExtentKey 12345 0 0 0 0, Some ErrUnexpectedEOF).
Proof. split; vm_compute; reflexivity. Qed.

(** The binary form is 28 bytes long. *)
Lemma MarshalBinary_length k : length (fst (MarshalBinary k)) = 28%nat.
Proof. reflexivity. Qed.

End ProtoFacts.

(** ** [StreamConn]: one attempt, the retry loop, the cached leader *)
Module StreamFacts.
Import Stream.

Section Attempts.
Context {W : Type} {N : Net W}.

Lemma SendLoop_step n sc w tr :
  SendLoop (S n) sc w tr =
  let '(sc1, w1, tr1, e) := sendToPartition sc w in
  match e with
  | None => (sc1, w1, tr ++ tr1, None)
  | Some _ => SendLoop n sc1 w1 (tr ++ tr1)
  end.
Proof. reflexivity. Qed.

(** One attempt whose delivery to the cached address fails with anything
    but the sentinel ends there. *)
Lemma sendToPartition_other_error sc w w1 w2 e :
  poolGet (currAddr sc) w = (w1, None) ->
  sendToConn (currAddr sc) w1 = (w2, Some e) ->
  isNotLeader e = false ->
  sendToPartition sc w =
    (sc, w2, [EvGet (currAddr sc) true; EvDeliver (currAddr sc); EvPut (currAddr sc) true],
     Some e).
Proof.
  intros Hget Hsend Hnl. unfold sendToPartition. rewrite Hget, Hsend, Hnl. reflexivity.
Qed.

(** The only error [Send] itself returns is the one of its exhausted
    loop. *)
Lemma SendLoop_error n : forall sc w tr sc' w' tr' e,
  SendLoop n sc w tr = (sc', w', tr', Some e) ->
  e = Errorf "StreamConn Send: retried and still failed".
Proof.
  induction n as [|n IH]; intros sc w tr sc' w' tr' e Hrun.
  - simpl in Hrun. congruence.
  - rewrite SendLoop_step in Hrun.
    destruct (sendToPartition sc w) as [[[sc1 w1] tr1] [e1|]].
    + eapply IH. exact Hrun.
    + discriminate.
Qed.

(** When every attempt meets such a failure, [Send] uses up its attempts on
    the cached address. *)
Lemma SendLoop_steady sc :
  (forall w, exists w1 w2 e,
      poolGet (currAddr sc) w = (w1, None) /\
      sendToConn (currAddr sc) w1 = (w2, Some e) /\ e <> NotLeaderError) ->
  forall n w tr, exists w' tr',
    SendLoop n sc w tr =
      (sc, w', tr ++ tr', Some (Errorf "StreamConn Send: retried and still failed")) /\
    delivered tr' = repeat (currAddr sc) n.
Proof.
  intros Hsteady. induction n as [|n IH]; intros w tr.
  - exists w, []. rewrite app_nil_r. split; reflexivity.
  - destruct (Hsteady w) as (w1 & w2 & e & Hget & Hsend & Hne).
    assert (Hnl : isNotLeader e = false) by (destruct e; simpl; congruence).
    rewrite SendLoop_step, (sendToPartition_other_error sc w w1 w2 e Hget Hsend Hnl).
    destruct (IH w2 (tr ++ [EvGet (currAddr sc) true; EvDeliver (currAddr sc);
                             EvPut (currAddr sc) true])) as (w' & tr' & E & Hd).
    exists w'. eexists. rewrite E, <- app_assoc. split; [reflexivity|].
    unfold delivered in *. rewrite flat_map_app, Hd. reflexivity.
Qed.

(** C6, as the code has it.  In every attempt of [Send] (one call of
    [sendToPartition]) in which the connection to the cached address is
    obtained and delivery on it fails with an error that is not
    [NotLeaderError], the attempt ends at once with that error: the request
    was delivered to the cached address only, no host of the host list was
    tried, and the cached address is unchanged.  [Send] does not fail at that
    point: it goes on to its next attempt from the state the failed one left,
    and the only error it ever returns is the one of its loop having used up
    all [StreamSendMaxRetry] attempts.  When every attempt meets such a
    failure, [Send] fails after [StreamSendMaxRetry] deliveries to the cached
    address and none to another host. *)
Theorem sendToPartition_fail_fast (sc : StreamConn) (w w1 w2 : W) (e : error) :
  poolGet (currAddr sc) w = (w1, None) ->
  sendToConn (currAddr sc) w1 = (w2, Some e) ->
  e <> NotLeaderError ->
  (exists tr,
      sendToPartition sc w = (sc, w2, tr, Some e) /\
      delivered tr = [currAddr sc] /\
      (forall a ok, In (EvGet a ok) tr -> a = currAddr sc)) /\
  (forall n tr0, exists tr,
      SendLoop (S n) sc w tr0 = SendLoop n sc w2 (tr0 ++ tr) /\
      delivered tr = [currAddr sc]) /\
  (forall sc' w' tr' e',
      Send sc w = (sc', w', tr', Some e') ->
      e' = Errorf "StreamConn Send: retried and still failed") /\
  ((forall w0, exists w1' w2' e0,
       poolGet (currAddr sc) w0 = (w1', None) /\
       sendToConn (currAddr sc) w1' = (w2', Some e0) /\ e0 <> NotLeaderError) ->
   exists w' tr,
     Send sc w = (sc, w', tr, Some (Errorf "StreamConn Send: retried and still failed")) /\
     delivered tr = repeat (currAddr sc) StreamSendMaxRetry).
Proof.
  intros Hget Hsend Hne.
  assert (Hnl : isNotLeader e = false) by (destruct e; simpl; congruence).
  pose proof (sendToPartition_other_error sc w w1 w2 e Hget Hsend Hnl) as E.
  split; [|split; [|split]].
  - eexists. split; [exact E|]. split; [reflexivity|].
    intros a ok [Hin|[Hin|[Hin|[]]]]; congruence.
  - intros n tr0. eexists. rewrite SendLoop_step, E. split; reflexivity.
  - intros sc' w' tr' e' Hrun. unfold Send in Hrun. eapply SendLoop_error. exact Hrun.
  - intros Hsteady. unfold Send.
    destruct (SendLoop_steady sc Hsteady StreamSendMaxRetry w []) as (w' & tr' & Hrun & Hd).
    exists w', tr'. split; [exact Hrun|exact Hd].
Qed.

End Attempts.

Lemma sendToPartition_fail_fast_witness :
  let N := clockNet in
  (exists tr,
      sendToPartition scABC 0%nat = (scABC, 3%nat, tr, Some (Errorf "read timeout")) /\
      delivered tr = ["A"%string] /\
      (forall a ok, In (EvGet a ok) tr -> a = "A"%string)) /\
  (forall n tr0, exists tr,
      SendLoop (S n) scABC 0%nat tr0 = SendLoop n scABC 3%nat (tr0 ++ tr) /\
      delivered tr = ["A"%string]) /\
  (forall sc' w' tr' e',
      Send scABC 0%nat = (sc', w', tr', Some e') ->
      e' = Errorf "StreamConn Send: retried and still failed").
Proof.
  intros N.
  destruct (@sendToPartition_fail_fast nat clockNet scABC 0%nat 1%nat 3%nat
              (Errorf "read timeout")) as (H1 & H2 & H3 & _);
    [..|exact (conj H1 (conj H2 H3))].
  - reflexivity.
  - reflexivity.
  - discriminate.
Defined.

(** C6, as stated, fails: on [scABC] in the world [clockNet] the first
    delivery to the cached address ["A"] fails with a read timeout, which is
    not [NotLeaderError]; yet [Send] does not fail, and it delivers the
    request to ["B"]. *)
Lemma Send_not_fail_fast :
  let N := clockNet in
  poolGet (currAddr scABC) 0%nat = (1%nat, None) /\
  sendToConn (currAddr scABC) 1%nat = (3%nat, Some (Errorf "read timeout")) /\
  Errorf "read timeout" <> NotLeaderError /\
  exists sc' w' tr,
    Send scABC 0%nat = (sc', w', tr, None) /\
    delivered tr = ["A"; "B"]%string /\
    currAddr sc' = "B"%string.
Proof.
  intros N. split; [reflexivity|]. split; [reflexivity|]. split; [discriminate|].
  do 3 eexists. split; [vm_compute; reflexivity|]. split; reflexivity.
Qed.

Section Leader.
Context {W : Type} {N : Net W}.
Variables A B C : string.
Hypothesis A_not_leader : forall w, snd (sendToConn A w) = Some NotLeaderError.
Hypothesis B_accepts : forall w, snd (sendToConn B w) = None.
Hypothesis B_connects : forall w, snd (poolGet B w) = None.

Lemma delivered_app tr1 tr2 : delivered (tr1 ++ tr2) = delivered tr1 ++ delivered tr2.
Proof. unfold delivered. apply flat_map_app. Qed.

(** The walk over the host list ends at [B], which becomes the cached
    address. *)
Lemma tryHosts_reaches_B sc w tr :
  Forall (fun a => a = A \/ a = B) (delivered tr) ->
  exists w' tr',
    tryHosts [A; B; C] sc w tr = (set_currAddr B sc, w', tr', None) /\ onlyAB A B tr'.
Proof.
  intros Htr. cbn [tryHosts].
  assert (HB : forall sc0 w0 tr0,
    Forall (fun a => a = A \/ a = B) (delivered tr0) ->
    exists w' tr',
      (let (w1, o) := poolGet B w0 in
       match o with
       | Some _ => tryHosts [C] sc0 w1 (tr0 ++ [EvGet B false])
       | None =>
           let (w2, e) := sendToConn B w1 in
           match e with
           | None =>
               (set_currAddr B sc0, w2,
                tr0 ++ [EvGet B true; EvDeliver B; EvPut B false], None)
           | Some er =>
               if isNotLeader er
               then tryHosts [C] (set_currAddr B sc0) w2
                      (tr0 ++ [EvGet B true; EvDeliver B; EvPut B true])
               else (set_currAddr B sc0, w2,
                     tr0 ++ [EvGet B true; EvDeliver B; EvPut B true], Some er)
           end
       end) = (set_currAddr B sc0, w', tr', None) /\ onlyAB A B tr').
  { intros sc0 w0 tr0 H0. pose proof (B_connects w0) as Hc.
    destruct (poolGet B w0) as [w1 o]. simpl in Hc. subst o.
    pose proof (B_accepts w1) as Ha.
    destruct (sendToConn B w1) as [w2 e]. simpl in Ha. subst e.
    do 2 eexists. split; [reflexivity|].
    unfold onlyAB. rewrite delivered_app. simpl. split.
    - apply Forall_app. split; [exact H0|]. constructor; [now right|constructor].
    - apply last_snoc. }
  destruct (poolGet A w) as [w1 [e|]].
  - apply HB. rewrite delivered_app, app_nil_r. exact Htr.
  - pose proof (A_not_leader w1) as Ha.
    destruct (sendToConn A w1) as [w2 e]. simpl in Ha. subst e. simpl isNotLeader. cbv iota.
    destruct (HB (set_currAddr A sc) w2
                (tr ++ [EvGet A true; EvDeliver A; EvPut A true])) as (w' & tr' & E & Hab).
    { rewrite delivered_app. apply Forall_app. split; [exact Htr|].
      simpl. constructor; [now left|constructor]. }
    exists w', tr'. split; [exact E|exact Hab].
Qed.

(** C7.  With host list [[A; B; C]] and cached address [A], where every
    delivery to [A] fails with [NotLeaderError], every delivery to [B]
    succeeds and [B] accepts connections: [Send] returns no error, the
    request was delivered to [A] and [B] only and last to [B], the cached
    address afterwards is [B], and a later [Send], in whatever state the
    world is then, obtains its first connection for [B], delivers to [B]
    alone and succeeds. *)
Theorem Send_caches_leader (part : Z) (w : W) :
  let sc := mkStreamConn part A [A; B; C] in
  exists w' tr,
    Send sc w = (set_currAddr B sc, w', tr, None) /\
    onlyAB A B tr /\
    currAddr (set_currAddr B sc) = B /\
    forall w2, exists w3,
      Send (set_currAddr B sc) w2 =
        (set_currAddr B sc, w3, [EvGet B true; EvDeliver B; EvPut B false], None).
Proof.
  intros sc.
  assert (Hfirst : exists w' tr,
             sendToPartition sc w = (set_currAddr B sc, w', tr, None) /\ onlyAB A B tr).
  { unfold sendToPartition. change (currAddr sc) with A. change (hosts sc) with [A; B; C].
    destruct (poolGet A w) as [w1 [e|]].
    - apply tryHosts_reaches_B. constructor.
    - pose proof (A_not_leader w1) as Ha.
      destruct (sendToConn A w1) as [w2 e]. simpl in Ha. subst e. simpl isNotLeader. cbv iota.
      apply tryHosts_reaches_B. simpl. constructor; [now left|constructor]. }
  destruct Hfirst as (w' & tr & E & Hab).
  exists w', tr. split; [|split; [exact Hab|split; [reflexivity|]]].
  - unfold Send. change StreamSendMaxRetry with (S 99).
    rewrite (@StreamFacts.SendLoop_step W N), E. reflexivity.
  - intros w2. unfold Send. change StreamSendMaxRetry with (S 99).
    rewrite (@StreamFacts.SendLoop_step W N). unfold sendToPartition.
    change (currAddr (set_currAddr B sc)) with B.
    pose proof (B_connects w2) as Hc.
    destruct (poolGet B w2) as [w3 o]. simpl in Hc. subst o.
    pose proof (B_accepts w3) as Ha.
    destruct (sendToConn B w3) as [w4 e]. simpl in Ha. subst e.
    exists w4. reflexivity.
Qed.

End Leader.

Lemma Send_caches_leader_witness :
  let N := steadyNet in
  exists w' tr,
    Send scABC tt = (set_currAddr "B" scABC, w', tr, None) /\
    onlyAB "A" "B" tr /\
    currAddr (set_currAddr "B" scABC) = "B"%string /\
    forall w2, exists w3,
      Send (set_currAddr "B" scABC) w2 =
        (set_currAddr "B" scABC, w3,
         [EvGet "B" true; EvDeliver "B"; EvPut "B" false], None).
Proof.
  intros N.
  apply (@Send_caches_leader unit steadyNet "A" "B" "C").
  - intros w. reflexivity.
  - intros w. reflexivity.
  - intros w. reflexivity.
Defined.

End StreamFacts.

(** ** The data partition *)
Module DatanodeFacts.
Import Datanode.

(** *** Removing the local node *)

Lemma findPeer_present id ps : forall i,
  (exists p, In p ps /\ peer_ID p = id) -> exists j, findPeer id ps i = Some j.
Proof.
  induction ps as [|q ps IH]; intros i (p & Hin & Hid).
  - destruct Hin.
  - simpl. destruct (Z.eqb_spec (peer_ID q) id) as [_|Hne]; [eauto|].
    destruct Hin as [->|Hin]; [congruence|]. apply IH. eauto.
Qed.

Lemma removeSelf_finishes index dir before o after applied :
  Forall (waits index) before ->
  obs_applied o = Some applied -> index <= applied ->
  removeSelf index dir (before ++ o :: after) = (teardown dir o, Finished).
Proof.
  intros Hw Ho Hge. induction Hw as [|o' before (a & Ha & Hlt) _ IH]; simpl.
  - rewrite Ho. destruct (Z.ltb_spec applied index); [lia|reflexivity].
  - rewrite Ha. destruct (Z.ltb_spec a index); [exact IH|lia].
Qed.

Lemma removeSelf_inv index dir rounds :
  (exists before o after applied,
      rounds = before ++ o :: after /\ Forall (waits index) before /\
      obs_applied o = Some applied /\ index <= applied /\
      removeSelf index dir rounds = (teardown dir o, Finished)) \/
  (exists exit, exit <> Finished /\ removeSelf index dir rounds = ([], exit)).
Proof.
  induction rounds as [|o rounds IH]; simpl.
  - right. exists StillWaiting. split; [discriminate|reflexivity].
  - destruct (obs_applied o) as [a|] eqn:Ho.
    + destruct (Z.ltb_spec a index) as [Hlt|Hge].
      * destruct IH as [(before & o1 & after & applied & -> & Hw & Ho1 & Hge & E)|IH].
        -- left. exists (o :: before), o1, after, applied.
           repeat split; try assumption. constructor; [|assumption]. now exists a.
        -- right. exact IH.
      * left. exists [], o, rounds, a. repeat split; try assumption. constructor.
    + right. exists Panicked. split; [discriminate|reflexivity].
Qed.

(** C2.  For a remove-peer entry at [index] whose target is the local node,
    with consensus attached and the peer in the peer list:
    [confRemoveNode] returns at once with [updated = false] and no error,
    leaves the partition as it was, and starts the goroutine with [index].
    Whatever the goroutine observes, it removes the directory only in a
    round in which the applied index it read is at least [index], every
    round before having read a smaller one; in that round it deletes the
    consensus state (when the handle is still set), then stops the
    partition, then removes the directory, in this order and nothing else;
    and as soon as a round reads an applied index of at least [index] the
    goroutine does so and returns. *)
Theorem confRemoveNode_self (p : dataPartition) (req : DataPartitionOfflineRequest)
    (index : Z) (h : RaftPartition) :
  raftPartition p = Some h ->
  (exists q, In q (Peers p) /\ peer_ID q = peer_ID (RemovePeer req)) ->
  peer_ID (RemovePeer req) = NodeId p ->
  confRemoveNode p req index = (p, false, None, Some index) /\
  (forall rounds events exit d,
      removeSelf index (path p) rounds = (events, exit) ->
      In (EvRemoveAll d) events ->
      exists before o after applied,
        rounds = before ++ o :: after /\ Forall (waits index) before /\
        obs_applied o = Some applied /\ index <= applied /\
        exit = Finished /\ d = path p /\
        events = (if obs_attached o then [EvRaftDelete] else [])
                   ++ [EvPartitionStop; EvRemoveAll (path p)]) /\
  (forall before o after applied,
      Forall (waits index) before ->
      obs_applied o = Some applied -> index <= applied ->
      removeSelf index (path p) (before ++ o :: after) =
        ((if obs_attached o then [EvRaftDelete] else [])
           ++ [EvPartitionStop; EvRemoveAll (path p)], Finished)).
Proof.
  intros Hraft Hpeer Hself. split; [|split].
  - unfold confRemoveNode. rewrite Hraft.
    destruct (findPeer_present _ _ 0%nat Hpeer) as [j ->].
    rewrite Hself, Z.eqb_refl. reflexivity.
  - intros rounds events exit d Hrun Hin.
    destruct (removeSelf_inv index (path p) rounds)
      as [(before & o & after & applied & -> & Hw & Ho & Hge & E)|(ex & _ & E)].
    + rewrite E in Hrun. injection Hrun as <- <-.
      exists before, o, after, applied. repeat split; try assumption.
      unfold teardown in Hin. apply in_app_or in Hin as [Hin|Hin].
      * destruct (obs_attached o); [destruct Hin as [Hin|[]]; discriminate|destruct Hin].
      * destruct Hin as [Hin|[Hin|[]]]; congruence.
    + rewrite E in Hrun. injection Hrun as <- <-. destruct Hin.
  - intros before o after applied Hw Ho Hge.
    now apply removeSelf_finishes with applied.
Qed.

Lemma confRemoveNode_self_witness :
  let req := mkOfflineRequest (mkPeer 0 "") (mkPeer 1 "10.0.0.1:6000") in
  confRemoveNode dp0 req 12 = (dp0, false, None, Some 12) /\
  removeSelf 12 (path dp0)
    ([mkObservation (Some 10) true; mkObservation (Some 11) true]
       ++ mkObservation (Some 12) true :: [mkObservation (Some 13) true]) =
    ([EvRaftDelete; EvPartitionStop; EvRemoveAll "/data/dp7"], Finished).
Proof.
  intros req.
  destruct (confRemoveNode_self dp0 req 12 (RaftHandle 7)) as (Hret & _ & Hlive).
  - reflexivity.
  - exists (mkPeer 1 "10.0.0.1:6000"). split; [left; reflexivity|reflexivity].
  - reflexivity.
  - split; [exact Hret|].
    apply (Hlive [mkObservation (Some 10) true; mkObservation (Some 11) true]
             (mkObservation (Some 12) true) [mkObservation (Some 13) true] 12).
    + repeat constructor; eexists; (split; [reflexivity|lia]).
    + reflexivity.
    + lia.
Defined.

(** *** Persisting and reloading the applied index *)

Section Persistence.
Context {E : Env}.

(** C3, on the code.  When all its calls succeed, [storeApplyIndex] opens
    the temporary file, writes the decimal index into it, renames it over
    the applied-index file, and only then, in the deferred function, calls
    [Sync], [Close] and [Remove]: the rename is the third call and the only
    [Sync] is the fourth, so the file is renamed before it is synced, not
    after. *)
Theorem storeApplyIndex_renames_before_sync (p : dataPartition) (applyIndex : Z) :
  let tmp := pathJoin (path p) TempApplyIndexFile in
  let canonical := pathJoin (path p) ApplyIndexFile in
  let calls := fst (storeApplyIndex p applyIndex None None None) in
  storeApplyIndex p applyIndex None None None =
    ([SysOpenFile tmp; SysWriteString tmp (Fmt.FormatUint applyIndex);
      SysRename tmp canonical; SysSync; SysClose; SysRemove tmp], None) /\
  position isWrite calls = Some 1%nat /\
  position isRename calls = Some 2%nat /\
  position isSync calls = Some 3%nat.
Proof. repeat split. Qed.

(** A failed write leaves the applied-index file alone. *)
Lemma storeApplyIndex_write_fails p applyIndex e renameErr :
  position isRename (fst (storeApplyIndex p applyIndex None (Some e) renameErr)) = None /\
  snd (storeApplyIndex p applyIndex None (Some e) renameErr) = Some e.
Proof. split; reflexivity. Qed.

(** C4, as the code has it.  With the applied-index file holding the text
    ["42"], [LoadApplyIndex] sets [applyId] to 42 and returns no error; with
    no such file it returns no error and leaves the partition, hence
    [applyId], as it was; with the file present and empty it returns the
    error "ApplyIndex is empty" and leaves the partition as it was. *)
Theorem LoadApplyIndex_cases (p : dataPartition) (es : gmap string file)
    (o : option string) (onDisk : string) :
  let name := pathJoin (path p) ApplyIndexFile in
  LoadApplyIndex p (mkDisk (<[name := mkFile "42" onDisk true]> es) o)
    = (set_applyId 42 p, None) /\
  LoadApplyIndex p (mkDisk (delete name es) o) = (p, None) /\
  LoadApplyIndex p (mkDisk (<[name := mkFile "" onDisk true]> es) o)
    = (p, Some (Errorf "[loadApplyIndex]: ApplyIndex is empty")).
Proof.
  intros name. unfold LoadApplyIndex, Stat, ReadFile. fold name. cbn [entries].
  rewrite !lookup_insert_eq, lookup_delete_eq. repeat split.
Qed.

End Persistence.

(** C4, as stated, fails: on a partition with [applyId = 0] whose
    applied-index file exists and is empty, [LoadApplyIndex] returns an
    error. *)
Lemma LoadApplyIndex_empty_file_is_error :
  let p := set_applyId 0 dp0 in
  ReadFile (diskWith "") (pathJoin (path p) (@ApplyIndexFile env0)) = inr ""%string /\
  @LoadApplyIndex env0 p (diskWith "") =
    (p, Some (Errorf "[loadApplyIndex]: ApplyIndex is empty")) /\
  snd (@LoadApplyIndex env0 p (diskWith "")) <> None.
Proof. intros p. split; [reflexivity|]. split; [reflexivity|discriminate]. Qed.

(** What the order of the calls costs.  The applied-index file holds ["41"],
    safely on disk; [storeApplyIndex] is called with 42 and the machine
    stops after the rename, before the deferred [Sync]: the file then holds
    neither ["41"] nor ["42"] but nothing, and [LoadApplyIndex] fails.  Had
    the machine stopped one call earlier, ["41"] would still be there. *)
Lemma crash_after_rename :
  let calls := fst (@storeApplyIndex env0 dp0 42 None None None) in
  let name := pathJoin (path dp0) (@ApplyIndexFile env0) in
  ReadFile (crash (sysRun (diskWith "41") (take 2 calls))) name = inr "41"%string /\
  ReadFile (crash (sysRun (diskWith "41") (take 3 calls))) name = inr ""%string /\
  snd (@LoadApplyIndex env0 dp0 (crash (sysRun (diskWith "41") (take 3 calls))))
    = Some (Errorf "[loadApplyIndex]: ApplyIndex is empty") /\
  ReadFile (crash (sysRun (diskWith "41") calls)) name = inr "42"%string.
Proof. intros calls name. repeat split; vm_compute; reflexivity. Qed.

(** *** Repair after an apply error *)

(** C5.  When the local watermark of the extent is fetched: the partition
    is left with consensus stopped and nothing else changed.  A leader
    sends its followers one task set tagged [FixRaftFollower] that holds the
    watermark and one add-task, whose source is the leader address and whose
    extent, size and inode are those of the watermark (so the implicated
    extent, when the store answers for the extent asked); it deletes
    nothing.  A follower that knows a leader address deletes its copy of the
    extent and then hands one add-task with the leader address as source to
    the repair; it notifies nobody.  With no leader address known nothing
    is deleted and nobody is notified. *)
Theorem ApplyErrRepair_roles (E : Env) (p : dataPartition) (extentId : Z)
    (info : FileInfo) (leaderAddr : string) (isLeader : bool) :
  IsLeader p = (leaderAddr, isLeader) ->
  GetOneWatermark (fst (stopRaft p)) extentId = inr info ->
  let task := mkFileInfo leaderAddr (FileId info) (fi_Size info) (Inode info) in
  fst (ApplyErrRepair p extentId) = set_raftPartition None p /\
  (isLeader = true ->
     exists mf,
       snd (ApplyErrRepair p extentId) = snd (stopRaft p) ++ [EvNotifyRaftFollowerRepair mf] /\
       mf_TaskType mf = FixRaftFollower /\
       NeedAddExtentsTasks mf = [task] /\
       files mf !! FileId info = Some info /\
       (FileId info = extentId -> FileId task = extentId)) /\
  (isLeader = false -> leaderAddr <> ""%string ->
     exists mf,
       snd (ApplyErrRepair p extentId) =
         snd (stopRaft p) ++ [EvDeleteDirtyExtent extentId; EvMergeRepair mf] /\
       NeedAddExtentsTasks mf = [task]) /\
  (isLeader = false -> leaderAddr = ""%string ->
     snd (ApplyErrRepair p extentId) = snd (stopRaft p)).
Proof.
  intros Hlead Hmark task. unfold ApplyErrRepair. rewrite Hlead.
  destruct (stopRaft p) as [p1 ev] eqn:Hstop. cbn [fst snd] in *. rewrite Hmark.
  assert (Hp1 : p1 = set_raftPartition None p).
  { unfold stopRaft in Hstop. destruct p as [? ? ? ? [r|] ? ? ? ? ? ? ?]; cbn in Hstop;
      injection Hstop as <- _; reflexivity. }
  split; [|split; [|split]].
  - destruct isLeader; [exact Hp1|]. destruct (negb (String.eqb leaderAddr "")); exact Hp1.
  - intros ->. eexists. split; [reflexivity|]. cbn.
    split; [reflexivity|]. split; [reflexivity|]. split; [apply lookup_insert_eq|].
    intros Hid. exact Hid.
  - intros -> Hne. apply String.eqb_neq in Hne. rewrite Hne. cbn [negb].
    eexists. split; [reflexivity|reflexivity].
  - intros -> ->. reflexivity.
Qed.

Lemma ApplyErrRepair_roles_witness :
  exists mf,
    snd (@ApplyErrRepair env0 dp0 5) = [EvRaftStop; EvNotifyRaftFollowerRepair mf] /\
    mf_TaskType mf = FixRaftFollower /\
    NeedAddExtentsTasks mf = [mkFileInfo "10.0.0.1:6000" 5 4096 9].
Proof.
  destruct (ApplyErrRepair_roles env0 dp0 5 (mkFileInfo "" 5 4096 9) "10.0.0.1:6000" true)
    as (_ & Hleader & _).
  - reflexivity.
  - reflexivity.
  - destruct (Hleader eq_refl) as (mf & Hev & Htag & Htasks & _).
    exists mf. split; [exact Hev|]. split; [exact Htag|exact Htasks].
Defined.

(** *** The applied-index poll and the truncation cycle *)

Section Poll.
Context {E : Env}.

(** The loop never raises its minimum, and ends no higher than any
    non-zero applied index a replica reported. *)
Lemma pollLoop_bounds net : forall targets i m0 m exit,
  pollLoop net i targets m0 = (m, exit) ->
  m <= m0 /\
  (exit = PollDone ->
   forall j data r,
     (i <= j < i + length targets)%nat ->
     net j = Reply data -> Uint64 data = Some r -> r <> 0 -> m <= r).
Proof.
  induction targets as [|t targets IH]; intros i m0 m exit Hrun; simpl in Hrun.
  - injection Hrun as <- <-. split; [lia|]. intros _ j data r Hj. simpl in Hj. lia.
  - destruct (net i) as [e|e|e|data0] eqn:Hnet;
      try (injection Hrun as <- <-; split; [lia|discriminate]).
    destruct (Uint64 data0) as [r0|] eqn:Hdec;
      [|injection Hrun as <- <-; split; [lia|discriminate]].
    apply IH in Hrun as [Hle Hall].
    assert (Hstep : (if (r0 <? m0) && negb (r0 =? 0) then r0 else m0) <= m0).
    { destruct (Z.ltb_spec r0 m0); simpl; [destruct (r0 =? 0); simpl|]; lia. }
    split; [lia|].
    intros Hdone j data r Hj Hnetj Hr Hnz.
    destruct (Nat.eq_dec j i) as [->|Hne].
    + rewrite Hnet in Hnetj. injection Hnetj as <-. rewrite Hdec in Hr. injection Hr as <-.
      destruct (Z.ltb_spec r0 m0); simpl in Hle.
      * destruct (Z.eqb_spec r0 0); simpl in Hle; [congruence|lia].
      * lia.
    + apply (Hall Hdone j data r); try assumption. simpl in Hj. lia.
Qed.

(** A poll that fails at some replica, and the call on a node that is not
    the coordinator, leave the partition as it was. *)
Lemma getMinAppliedId_failure_keeps (p : dataPartition) net :
  match snd (getMinAppliedId p net) with
  | Polled _ (PollErr _) | NotCoordinator | NoHosts => fst (getMinAppliedId p net) = p
  | Polled _ _ => fst (getMinAppliedId p net) = set_minAppliedId 0 p
  end.
Proof.
  unfold getMinAppliedId. destruct (replicaHosts p) as [|first others]; [reflexivity|].
  destruct (negb (String.eqb (hostOf first) LocalIP)); [reflexivity|].
  destruct (pollLoop net 1 others (applyId p)) as [m [| |]]; reflexivity.
Qed.

Lemma getMinAppliedId_fields (p : dataPartition) net :
  let p' := fst (getMinAppliedId p net) in
  applyId p' = applyId p /\ lastTruncateId p' = lastTruncateId p /\
  raftPartition p' = raftPartition p /\ replicaHosts p' = replicaHosts p /\
  (minAppliedId p' = minAppliedId p \/ minAppliedId p' = 0).
Proof.
  pose proof (getMinAppliedId_failure_keeps p net) as H.
  destruct (snd (getMinAppliedId p net)) as [| |m [| |]]; cbn zeta; rewrite H;
    repeat split; auto.
Qed.

Lemma truncCycle_poll_bounds (p : dataPartition) (net : nat -> pollStep) :
  let '(p', out, acts) := truncCycle p net in
  (forall index, In (GoTruncate index) acts ->
     index = minAppliedId p' /\ index = minAppliedId (fst (getMinAppliedId p net)) /\
     lastTruncateId p < index /\ lastTruncateId p' = index) /\
  (0 <= applyId p -> minAppliedId p <= applyId p -> minAppliedId p' <= applyId p') /\
  (forall m exit, out = Polled m exit ->
     m <= applyId p /\
     (exit = PollDone ->
      forall j data r,
        (1 <= j < length (replicaHosts p))%nat ->
        net j = Reply data -> Uint64 data = Some r -> r <> 0 -> m <= r)).
Proof.
  unfold truncCycle.
  pose proof (getMinAppliedId_fields p net) as (Ha & Hl & Hr & Hh & Hm). cbn zeta in *.
  assert (Hpoll : forall m exit, snd (getMinAppliedId p net) = Polled m exit ->
            m <= applyId p /\
            (exit = PollDone ->
             forall j data r,
               (1 <= j < length (replicaHosts p))%nat ->
               net j = Reply data -> Uint64 data = Some r -> r <> 0 -> m <= r)).
  { intros m exit Hout. unfold getMinAppliedId in Hout.
    destruct (replicaHosts p) as [|first others]; [discriminate|].
    destruct (negb (String.eqb (hostOf first) LocalIP)); [discriminate|].
    destruct (pollLoop net 1 others (applyId p)) as [m' exit'] eqn:Hloop.
    cbn in Hout. injection Hout as <- <-.
    apply pollLoop_bounds in Hloop as [Hle Hall]. split; [exact Hle|].
    intros Hdone j data r Hj. apply Hall; [exact Hdone|]. simpl in Hj. lia. }
  destruct (getMinAppliedId p net) as [p1 out]. cbn [fst snd] in *.
  assert (Hinv : 0 <= applyId p -> minAppliedId p <= applyId p ->
                 minAppliedId p1 <= applyId p1) by (intros; destruct Hm; lia).
  assert (Hquiet : forall index, In (GoTruncate index) [Panic] -> False)
    by (intros index [H|[]]; discriminate).
  assert (Hbody :
    let '(p', out', acts) :=
      if lastTruncateId p1 <? minAppliedId p1
      then match raftPartition p1 with
           | Some _ => (set_lastTruncateId (minAppliedId p1) p1, out,
                        [GoTruncate (minAppliedId p1)])
           | None => (p1, out, [Panic])
           end
      else (p1, out, []) in
    out' = out /\
    (forall index, In (GoTruncate index) acts ->
       index = minAppliedId p' /\ index = minAppliedId p1 /\
       lastTruncateId p < index /\ lastTruncateId p' = index) /\
    (0 <= applyId p -> minAppliedId p <= applyId p -> minAppliedId p' <= applyId p')).
  { destruct (Z.ltb_spec (lastTruncateId p1) (minAppliedId p1)) as [Hlt|Hge].
    - destruct (raftPartition p1).
      + split; [reflexivity|]. split; [|exact Hinv].
        intros index [Hin|[]]. injection Hin as <-. cbn. repeat split; lia.
      + split; [reflexivity|]. split; [|exact Hinv]. intros index Hin. now apply Hquiet in Hin.
    - split; [reflexivity|]. split; [|exact Hinv]. intros index []. }
  destruct out as [| |m exit].
  - split; [intros index Hin; now apply Hquiet in Hin|]. split; [exact Hinv|].
    intros m exit Hout; discriminate.
  - destruct (lastTruncateId p1 <? minAppliedId p1);
      [destruct (raftPartition p1)|]; destruct Hbody as (_ & Hacts & Hi);
      (split; [exact Hacts|]; split; [exact Hi|];
       intros m exit Hout; discriminate).
  - destruct exit.
    + destruct (lastTruncateId p1 <? minAppliedId p1);
        [destruct (raftPartition p1)|]; destruct Hbody as (_ & Hacts & Hi);
        (split; [exact Hacts|]; split; [exact Hi|];
         intros m' exit' Hout; apply Hpoll; exact Hout).
    + destruct (lastTruncateId p1 <? minAppliedId p1);
        [destruct (raftPartition p1)|]; destruct Hbody as (_ & Hacts & Hi);
        (split; [exact Hacts|]; split; [exact Hi|];
         intros m' exit' Hout; apply Hpoll; exact Hout).
    + split; [intros index Hin; now apply Hquiet in Hin|]. split; [exact Hinv|].
      intros m' exit' Hout; apply Hpoll; exact Hout.
Qed.

(** A replica that reports zero is passed over. *)
Lemma pollLoop_zero_reply net i t rest m0 data :
  net i = Reply data -> Uint64 data = Some 0 ->
  pollLoop net i (t :: rest) m0 = pollLoop net (S i) rest m0.
Proof.
  intros Hnet Hdec. simpl. rewrite Hnet, Hdec.
  now rewrite Z.eqb_refl, andb_false_r.
Qed.

(** C1, as the code has it.  In every truncation cycle: each index handed
    to [Truncate] is the partition's [minAppliedId] as the poll left it and
    exceeds the previous [lastTruncateId], which it then replaces; the cycle
    keeps [minAppliedId <= applyId] when it held before; the minimum the
    poll computes never exceeds the local [applyId], and after a poll that
    reached every replica it never exceeds the applied index reported by any
    replica that reported a non-zero one.  A replica that reports zero does
    not lower the minimum. *)
Theorem truncCycle_bounds (p : dataPartition) (net : nat -> pollStep) :
  (let '(p', out, acts) := truncCycle p net in
   (forall index, In (GoTruncate index) acts ->
      index = minAppliedId p' /\ index = minAppliedId (fst (getMinAppliedId p net)) /\
      lastTruncateId p < index /\ lastTruncateId p' = index) /\
   (0 <= applyId p -> minAppliedId p <= applyId p -> minAppliedId p' <= applyId p') /\
   (forall m exit, out = Polled m exit ->
      m <= applyId p /\
      (exit = PollDone ->
       forall j data r,
         (1 <= j < length (replicaHosts p))%nat ->
         net j = Reply data -> Uint64 data = Some r -> r <> 0 -> m <= r))) /\
  (forall i t rest m0 data,
     net i = Reply data -> Uint64 data = Some 0 ->
     pollLoop net i (t :: rest) m0 = pollLoop net (S i) rest m0).
Proof.
  split; [apply truncCycle_poll_bounds|].
  intros i t rest m0 data. apply pollLoop_zero_reply.
Qed.

End Poll.

(** C1, as stated, fails: the coordinator [dp0] has [applyId = 10] and polls
    two replicas, which report 0 and 9; the minimum the poll computes is 9,
    above the applied index 0 the first replica reported. *)
Lemma poll_minimum_exceeds_zero_report :
  let net := replies [0; 9] in
  net 1%nat = Reply (PutUint64 0) /\
  Uint64 (PutUint64 0) = Some 0 /\
  snd (@getMinAppliedId env0 dp0 net) = Polled 9 PollDone /\
  0 < 9.
Proof. intros net. repeat split. Qed.

(** C10, on the code.  A poll that fails leaves [minAppliedId] alone, but a
    poll in which every step succeeded does not store the minimum it
    computed: the argument of the deferred call was evaluated when the
    [defer] statement ran, when the local [minAppliedId] was still zero, so
    zero is stored.  On the coordinator [dp0] ([applyId = 10],
    [minAppliedId = 3]) with replicas reporting 7 and 9 the poll computes 7
    and stores 0. *)
Theorem getMinAppliedId_stores_zero :
  (forall (E : Env) (p : dataPartition) (net : nat -> pollStep),
     match snd (getMinAppliedId p net) with
     | Polled _ (PollErr _) => fst (getMinAppliedId p net) = p
     | Polled _ PollDone => minAppliedId (fst (getMinAppliedId p net)) = 0
     | _ => True
     end) /\
  @getMinAppliedId env0 dp0 (replies [7; 9]) = (set_minAppliedId 0 dp0, Polled 7 PollDone) /\
  minAppliedId dp0 = 3.
Proof.
  split; [|split; reflexivity].
  intros E p net. pose proof (getMinAppliedId_failure_keeps p net) as H.
  destruct (snd (getMinAppliedId p net)) as [| |m [| |]]; try exact I; try exact H.
  now rewrite H.
Qed.

(** *** The timers of the control loop *)

Section Loop.
Context {E : Env}.

(** No move gives a timer a value to deliver, and taking the case of a
    timer uses one up. *)
Lemma step_pending t l s s' acts :
  step l s = Some (s', acts) ->
  (pending t s' + (if isTick t l then 1 else 0) <= pending t s)%nat.
Proof.
  unfold step, selectStep, loopHead, timerExpire, timerReceive, pending, timerOf,
    with_dp, with_pc.
  intros Hstep.
  destruct (truncRaftlogTimer s) as [a1 f1] eqn:Ht1.
  destruct (storeAppliedTimer s) as [a2 f2] eqn:Ht2.
  destruct l as [[|]| | | | | |c]; cbn in Hstep.
  - destruct a1; simplify_eq. destruct t; cbn; rewrite ?Ht1, ?Ht2; cbn; destruct f1, a2, f2; cbn; lia.
  - destruct a2; simplify_eq. destruct t; cbn; rewrite ?Ht1, ?Ht2; cbn; destruct f2, a1, f1; cbn; lia.
  - simplify_eq. destruct t; cbn; rewrite ?Ht1, ?Ht2; cbn; lia.
  - simplify_eq. destruct t; cbn; rewrite ?Ht1, ?Ht2; cbn; lia.
  - simplify_eq. destruct t; cbn; rewrite ?Ht1, ?Ht2; cbn; lia.
  - simplify_eq. destruct t; cbn; rewrite ?Ht1, ?Ht2; cbn; lia.
  - destruct (pc s); simplify_eq.
    destruct (indexes s); [|destruct (isRunning s)];
      destruct t; cbn; rewrite ?Ht1, ?Ht2; cbn; lia.
  - destruct (pc s); try discriminate.
    destruct c as [| | |started| |net|]; cbn in Hstep.
    + destruct (stopC s); simplify_eq.
      destruct t; cbn; destruct a1, f1, a2, f2; cbn; lia.
    + destruct (readyChan s); simplify_eq. destruct t; cbn; rewrite ?Ht1, ?Ht2; cbn; lia.
    + destruct (storeC (dp s)); simplify_eq. destruct t; cbn; rewrite ?Ht1, ?Ht2; cbn; lia.
    + destruct (raftC (dp s)) as [|code rest]; [discriminate|].
      cbn in Hstep. destruct (raftPartition (dp s));
        [|destruct (opRaftCode_eqb code opStartRaft); [destruct started|]];
        simplify_eq; destruct t; cbn; rewrite ?Ht1, ?Ht2; cbn; lia.
    + destruct (repairC (dp s)) as [|extentId rest]; [discriminate|].
      destruct (ApplyErrRepair (set_repairC rest (dp s)) extentId) as [p1 ev].
      simplify_eq. destruct t; cbn; rewrite ?Ht1, ?Ht2; cbn; lia.
    + destruct f1; [|discriminate].
      destruct (truncCycle (dp s) net) as [[p1 out] acts0].
      simplify_eq. destruct t; cbn; rewrite ?Ht2; destruct a1; cbn; lia.
    + destruct f2; [|discriminate].
      simplify_eq. destruct t; cbn; rewrite ?Ht1; destruct a2; cbn; lia.
Qed.

(** The case of the truncation timer is a truncation cycle on the
    partition of the loop. *)
Lemma truncation_case_is_truncCycle net s s' acts :
  selectStep (CaseTruncTimer net) s = Some (s', acts) ->
  fired (truncRaftlogTimer s) = true /\
  dp s' = fst (fst (truncCycle (dp s) net)) /\
  acts = snd (truncCycle (dp s) net).
Proof.
  unfold selectStep, timerReceive. intros Hstep.
  destruct (fired (truncRaftlogTimer s)); [|discriminate].
  destruct (truncCycle (dp s) net) as [[p1 out] acts0]. simplify_eq. auto.
Qed.

Lemma run_pending t : forall ls s s' acts,
  run ls s = Some (s', acts) -> (ticks t ls + pending t s' <= pending t s)%nat.
Proof.
  induction ls as [|l ls IH]; intros s s' acts Hrun; simpl in Hrun.
  - simplify_eq. simpl. lia.
  - destruct (step l s) as [[s1 acts1]|] eqn:Hstep; [|discriminate].
    pose proof (step_pending t l s s1 acts1 Hstep) as H1.
    destruct (hasPanic acts1).
    + destruct ls; [|discriminate]. simplify_eq. simpl. lia.
    + destruct (run ls s1) as [[s2 acts2]|] eqn:Hrest; [|discriminate].
      simplify_eq. apply IH in Hrest. simpl. lia.
Qed.

Lemma ticks_app t ls1 ls2 : ticks t (ls1 ++ ls2) = (ticks t ls1 + ticks t ls2)%nat.
Proof. induction ls1 as [|l ls1 IH]; simpl; [reflexivity|]. rewrite IH. lia. Qed.

(** C8, on the code.  In every run of the control loop started by
    [StartSchedule], the loop takes the case of the truncation timer at most
    once and the case of the applied-index timer at most once: both are
    [time.NewTimer] timers that the loop never resets, so a firing of either
    is never followed by a later firing of the same timer. *)
Theorem timers_fire_at_most_once (p : dataPartition) (t : timerName)
    (ls : list label) (s : loopState) (acts : list action) :
  run ls (StartSchedule p) = Some (s, acts) ->
  (ticks t ls <= 1)%nat /\
  (forall before l after,
      ls = before ++ l :: after -> isTick t l = true -> ticks t after = 0%nat).
Proof.
  intros Hrun. apply (run_pending t) in Hrun.
  assert (Hstart : pending t (StartSchedule p) = 1%nat) by (destruct t; reflexivity).
  split; [lia|].
  intros before l after -> Htick.
  rewrite ticks_app in Hrun. simpl in Hrun. rewrite Htick in Hrun. lia.
Qed.

End Loop.

Lemma timers_fire_at_most_once_witness :
  let ls := [TimerExpires TruncRaftlog; LoopHead;
             Select (CaseTruncTimer (replies [7; 9])); LoopHead] in
  (ticks TruncRaftlog ls = 1)%nat /\
  (ticks TruncRaftlog ls <= 1)%nat /\
  (forall before l after,
      ls = before ++ l :: after -> isTick TruncRaftlog l = true ->
      ticks TruncRaftlog after = 0%nat).
Proof.
  intros ls. split; [reflexivity|].
  refine (@timers_fire_at_most_once env0 dp0 TruncRaftlog ls
            (fst (default (StartSchedule dp0, []) (@run env0 ls (StartSchedule dp0))))
            [] _).
  reflexivity.
Defined.

(** After its one firing the truncation timer cannot expire again, and the
    loop cannot take its case again, whatever the poll would answer. *)
Lemma truncation_timer_is_spent :
  let once := [TimerExpires TruncRaftlog; LoopHead;
               Select (CaseTruncTimer (replies [7; 9])); LoopHead] in
  (exists s, @run env0 once (StartSchedule dp0) = Some (s, []) /\
             truncRaftlogTimer s = mkTimer false false) /\
  @run env0 (once ++ [TimerExpires TruncRaftlog]) (StartSchedule dp0) = None /\
  forall net, @run env0 (once ++ [Select (CaseTruncTimer net)]) (StartSchedule dp0) = None.
Proof.
  intros once. split; [eexists; split; reflexivity|]. split; [reflexivity|].
  intros net. reflexivity.
Qed.

End DatanodeFacts.

(** ** The asynchronous log writer *)
Module LogFacts.
Import Log.

Lemma flushToFile_held w : mu w = true -> flushToFile w = (w, Blocked).
Proof. intros H. unfold flushToFile, Lock. now rewrite H. Qed.

Lemma flushToFile_empty w :
  mu w = false -> buffer w = [] -> flushToFile w = (w, Returned).
Proof.
  intros Hm Hb. unfold flushToFile, Lock. rewrite Hm. cbn. rewrite Hb. cbn.
  destruct w; cbn in *; subst; reflexivity.
Qed.

Lemma flushToFile_flushes w :
  mu w = false -> buffer w <> [] ->
  flushToFile w =
    (mkWriter (fileSync (fileWrite (buffer w) (file w))) [] false (closeC w) (closeOnce w),
     Returned).
Proof.
  intros Hm Hb. unfold flushToFile, Lock. rewrite Hm. cbn.
  destruct (buffer w) as [|x b] eqn:E; [congruence|].
  cbn [length Nat.eqb]. cbn. now rewrite firstn_all.
Qed.

(** What a flush can do to an open file. *)
Lemma flushToFile_keeps w :
  fileClosed (file w) = false ->
  let (w', ex) := flushToFile w in
  held w' = held w /\ fileClosed (file w') = false /\
  closeOnce w' = closeOnce w /\ closeC w' = closeC w /\ mu w' = mu w /\
  (length (buffer w') <= length (buffer w))%nat /\
  (ex = Returned -> mu w = false /\ buffer w' = []) /\
  (ex = Blocked -> mu w = true /\ w' = w) /\
  (file w' = file w \/ onDisk (file w') = written (file w')).
Proof.
  intros Hopen. destruct (mu w) eqn:Hm.
  - rewrite flushToFile_held by assumption.
    repeat split; auto; try discriminate.
  - destruct (buffer w) as [|x b] eqn:Hb.
    + rewrite flushToFile_empty by assumption. rewrite Hb.
      repeat split; auto; try discriminate.
    + rewrite flushToFile_flushes by congruence. rewrite Hb.
      unfold held, fileSync, fileWrite. rewrite Hopen. cbn. rewrite Hb, app_nil_r.
      repeat split; auto; try discriminate; lia.
Qed.

Section WithLimits.
Context {L : Limits}.

(** What a [Write] that gets the mutex does. *)
Lemma Write_free (p : list Z) (w : asyncFileWriter) :
  mu w = false -> fileClosed (file w) = false ->
  let '(w', n, err, ex) := Write p w in
  n = 0 /\ err = None /\ ex = Returned /\
  held w' = held w ++ p /\
  (length (buffer w') <= WriterBufferLenLimit)%nat /\
  ((WriterBufferLenLimit < length (buffer w ++ p))%nat -> buffer w' = []) /\
  mu w' = false.
Proof.
  intros Hm Hopen. unfold Write, Lock. rewrite Hm.
  set (w2 := mkWriter (file w) (buffer w ++ p) false (closeC w) (closeOnce w)).
  change (Unlock (set_buffer (buffer (set_mu true w) ++ p) (set_mu true w))) with w2.
  change (buffer w2) with (buffer w ++ p).
  assert (Hheld : held w2 = held w ++ p) by (unfold held; cbn; now rewrite app_assoc).
  destruct (Nat.ltb_spec WriterBufferLenLimit (length (buffer w ++ p))) as [Hbig|Hsmall].
  - pose proof (flushToFile_keeps w2 Hopen) as K.
    destruct (flushToFile w2) as [w3 ex].
    destruct K as (Hh & _ & _ & _ & Hmu & Hlen & Hret & Hblk & _).
    destruct ex.
    + destruct (Hret eq_refl) as [_ Hb]. rewrite Hb. cbn [length].
      repeat split; auto; try lia. congruence.
    + destruct (Hblk eq_refl) as [Hcontra _]. discriminate.
  - repeat split; auto. intros Hbig. lia.
Qed.


(** Once the mutex is held for good nothing goes through. *)
Lemma held_mutex_blocks w :
  mu w = true ->
  (forall p, Write p w = (w, 0, None, Blocked)) /\
  Flush w = (w, Blocked) /\
  Close w = (w, None, Blocked).
Proof.
  intros Hm. split; [|split].
  - intros p. unfold Write, Lock. now rewrite Hm.
  - unfold Flush. now apply flushToFile_held.
  - unfold Close, Lock. now rewrite Hm.
Qed.

Lemma Close_first w :
  mu w = false -> closeOnce w = false ->
  Close w = (mkWriter (file w) (buffer w) true true false, None, Blocked).
Proof.
  intros Hm Ho. unfold Close, Lock. rewrite Hm. cbn. rewrite Ho.
  unfold set_closeC, set_mu. cbn. now rewrite Ho.
Qed.

Lemma apply_sound o s s' ex :
  apply o s = Some (s', ex) -> sound s ->
  sound s' /\
  held (writer s') =
    held (writer s) ++ match o, ex with OpWrite p, Returned => p | _, _ => [] end /\
  ((length (buffer (writer s)) <= WriterBufferLenLimit)%nat ->
   (length (buffer (writer s')) <= WriterBufferLenLimit)%nat) /\
  (file (writer s') = file (writer s) \/
   onDisk (file (writer s')) = written (file (writer s'))).
Proof.
  intros Hap (Honce & Hopen & Hmu). destruct s as [w sc]. cbn in *.
  destruct o as [p| | | |]; cbn in Hap.
  - destruct (mu w) eqn:Hm.
    + destruct (held_mutex_blocks w Hm) as (Hw & _ & _). rewrite Hw in Hap.
      simplify_eq. cbn. rewrite app_nil_r. unfold sound. cbn. auto 10.
    + pose proof (Write_free p w Hm Hopen) as K.
      pose proof (flushToFile_keeps
                    (mkWriter (file w) (buffer w ++ p) false (closeC w) (closeOnce w)) Hopen) as F.
      unfold Write, Lock in *. rewrite Hm in *.
      change (Unlock (set_buffer (buffer (set_mu true w) ++ p) (set_mu true w)))
        with (mkWriter (file w) (buffer w ++ p) false (closeC w) (closeOnce w)) in *.
      cbn [buffer] in *.
      destruct (WriterBufferLenLimit <? length (buffer w ++ p))%nat.
      * destruct (flushToFile _) as [w3 ex3]. simplify_eq. cbn.
        destruct K as (_ & _ & -> & Hh & Hlen & _ & Hm').
        destruct F as (_ & Hopen' & Ho' & Hc' & _ & _ & _ & _ & Hfile).
        cbn in *. unfold sound. cbn. rewrite Hm'.
        repeat split; auto; try congruence.
      * simplify_eq. cbn. destruct K as (_ & _ & _ & Hh & Hlen & _ & _).
        unfold sound. cbn. repeat split; auto; try congruence.
  - pose proof (flushToFile_keeps w Hopen) as F. unfold Flush in Hap.
    destruct (flushToFile w) as [w1 ex1]. simplify_eq. cbn.
    destruct F as (Hh & Hopen' & Ho' & Hc' & Hm' & Hlen & _ & _ & Hfile).
    unfold sound. cbn. rewrite app_nil_r, Hm', Hc'.
    repeat split; auto; try congruence; lia.
  - destruct (mu w) eqn:Hm.
    + destruct (held_mutex_blocks w Hm) as (_ & _ & Hc). rewrite Hc in Hap.
      simplify_eq. cbn. rewrite app_nil_r. unfold sound. cbn. auto 10.
    + rewrite (Close_first w Hm Honce) in Hap. simplify_eq. cbn.
      rewrite app_nil_r. unfold sound, held. cbn. auto 10.
  - destruct sc; try discriminate.
    pose proof (flushToFile_keeps w Hopen) as F.
    destruct (flushToFile w) as [w1 ex1]. simplify_eq. cbn.
    destruct F as (Hh & Hopen' & Ho' & Hc' & Hm' & Hlen & _ & _ & Hfile).
    unfold sound. cbn. rewrite Hm', Hc'.
    destruct ex; rewrite app_nil_r; repeat split; auto; try congruence; lia.
  - destruct sc; try discriminate. destruct (closeC w) eqn:Hc; [|discriminate].
    simplify_eq. cbn. rewrite app_nil_r. unfold sound. cbn. auto 10.
Qed.

Lemma runOps_sound : forall os s s' bytes,
  runOps os s = Some (s', bytes) -> sound s ->
  sound s' /\
  held (writer s') = held (writer s) ++ bytes /\
  ((length (buffer (writer s)) <= WriterBufferLenLimit)%nat ->
   (length (buffer (writer s')) <= WriterBufferLenLimit)%nat) /\
  (file (writer s') = file (writer s) \/
   onDisk (file (writer s')) = written (file (writer s'))).
Proof.
  induction os as [|o os IH]; intros s s' bytes Hrun Hs; cbn in Hrun.
  - simplify_eq. rewrite app_nil_r. auto.
  - destruct (apply o s) as [[s1 ex]|] eqn:Hap; [|discriminate].
    destruct (runOps os s1) as [[s2 bytes2]|] eqn:Hrest; [|discriminate].
    simplify_eq.
    destruct (apply_sound o s s1 ex Hap Hs) as (Hs1 & Hh1 & Hl1 & Hf1).
    destruct (IH s1 s' bytes2 Hrest Hs1) as (Hs' & Hh' & Hl' & Hf').
    split; [exact Hs'|]. split.
    + rewrite Hh', Hh1, <- app_assoc. f_equal. destruct o, ex; reflexivity.
    + split; [auto|]. destruct Hf' as [Hf'|Hf']; [|now right].
      rewrite Hf'. exact Hf1.
Qed.

(** X3.  [Close] never returns.  After any sequence of operations on a new
    writer, a call of [Close] blocks: either the mutex is already held, or
    [Close] takes it and then waits for it again in [flushToFile].  It
    leaves the file and the buffer as they were, so the buffered bytes are
    not written and the file is neither synced nor closed; [closeC] is
    closed and the mutex stays held, so that every later [Write], [Flush]
    and [Close] blocks as well and changes nothing. *)
Theorem Close_never_returns (out : osFile) (os : list op) (s : system) (bytes : list Z) :
  fileClosed out = false ->
  runOps os (NewAsyncFileWriter out) = Some (s, bytes) ->
  let '(w', err, ex) := Close (writer s) in
  ex = Blocked /\
  file w' = file (writer s) /\ buffer w' = buffer (writer s) /\
  mu w' = true /\ closeC w' = true /\
  (forall p, Write p w' = (w', 0, None, Blocked)) /\
  Flush w' = (w', Blocked) /\
  Close w' = (w', None, Blocked).
Proof.
  intros Hopen Hrun.
  destruct (runOps_sound os _ _ _ Hrun) as ((Honce & _ & Hmu) & _).
  { unfold sound. cbn. auto. }
  destruct (mu (writer s)) eqn:Hm.
  - destruct (held_mutex_blocks (writer s) Hm) as (Hw & Hf & Hc).
    rewrite Hc. repeat split; auto.
  - rewrite (Close_first _ Hm Honce).
    destruct (held_mutex_blocks (mkWriter (file (writer s)) (buffer (writer s)) true true false)
                eq_refl) as (Hw & Hf & Hc).
    repeat split; auto.
Qed.

End WithLimits.


Lemma Close_never_returns_witness :
  let os := [OpWrite [1; 2; 3]; OpTick; OpWrite [4]] in
  let s := mkSystem (mkWriter (mkOsFile [1; 2; 3] [1; 2; 3] false) [4] false false false)
             Running in
  @runOps limits8 os (NewAsyncFileWriter (mkOsFile [] [] false)) = Some (s, [1; 2; 3; 4]) /\
  let '(w', err, ex) := Close (writer s) in
  ex = Blocked /\
  file w' = file (writer s) /\ buffer w' = buffer (writer s) /\
  mu w' = true /\ closeC w' = true /\
  (forall p, @Write limits8 p w' = (w', 0, None, Blocked)) /\
  Flush w' = (w', Blocked) /\
  Close w' = (w', None, Blocked).
Proof.
  intros os s.
  assert (Hrun : @runOps limits8 os (NewAsyncFileWriter (mkOsFile [] [] false))
                 = Some (s, [1; 2; 3; 4])) by (vm_compute; reflexivity).
  split; [exact Hrun|].
  exact (@Close_never_returns limits8 (mkOsFile [] [] false) os s [1; 2; 3; 4] eq_refl Hrun).
Defined.

End LogFacts.

(** ** Raft ports, starting the engine, and peer changes *)
Module ConfigFacts.
Import Datanode Fmt FmtFacts.

Lemma splitColon_length s : length (splitColon s) = S (colons s).
Proof.
  induction s as [|c s IH]; [reflexivity|]. simpl.
  destruct (Ascii.eqb c ":"); simpl; [now rewrite IH|].
  destruct (splitColon s); simpl in *; [discriminate|exact IH].
Qed.

Lemma splitColon_one host port :
  colons host = 0%nat -> colons port = 0%nat ->
  splitColon (host +:+ ":" +:+ port) = [host; port].
Proof.
  intros Hh Hp.
  assert (Hport : splitColon port = [port]).
  { clear Hh. induction port as [|c r IH]; [reflexivity|]. simpl in *.
    destruct (Ascii.eqb c ":"); [discriminate|]. now rewrite IH. }
  induction host as [|c r IH].
  - rewrite append_nil, append_cons, append_nil. simpl. now rewrite Hport.
  - rewrite append_cons. simpl in *.
    destruct (Ascii.eqb c ":"); [discriminate|]. now rewrite IH.
Qed.

(** A decimal digit is neither a colon, nor a sign, nor white space. *)
Lemma digit_plain c :
  inBase 10 c = true ->
  Ascii.eqb c ":" = false /\ c <> "-"%char /\ c <> "+"%char /\
  isSpace c = false /\ (nat_of_ascii c =? 10)%nat = false.
Proof.
  destruct c as [[] [] [] [] [] [] [] []]; vm_compute; intros H;
    try discriminate; repeat split; discriminate.
Qed.

Lemma allIn_colons s : allIn 10 s = true -> colons s = 0%nat.
Proof.
  induction s as [|c s IH]; [reflexivity|]. simpl. intros H.
  apply andb_true_iff in H as [Hc Hs]. destruct (digit_plain c Hc) as (-> & _).
  now apply IH.
Qed.

(** What [FormatUint] prints is a non-empty run of decimal digits whose
    value is the number printed. *)
Lemma FormatUint_digits v :
  0 <= v < 2 ^ 64 ->
  exists c t, FormatUint v = String c t /\ allIn 10 (String c t) = true /\
              parseDigits 10 (String c t) 0 = Some v.
Proof.
  intros Hv.
  assert (H20 : 0 <= v < 10 ^ Z.of_nat 20)
    by (change (10 ^ Z.of_nat 20) with 100000000000000000000; lia).
  pose proof (fmtDigits_allIn 20 v ltac:(lia)) as Hall.
  pose proof (parseDigits_fmtDigits 20 v H20) as Hparse.
  unfold FormatUint. destruct (fmtDigits 20 v "") as [|c t] eqn:E.
  - exfalso. simpl in Hparse. injection Hparse as <-. vm_compute in E. discriminate.
  - exists c, t. auto.
Qed.

Lemma Atoi_FormatUint v : 0 <= v < 2 ^ 63 -> Atoi (FormatUint v) = (v, None).
Proof.
  intros Hv.
  destruct (FormatUint_digits v) as (c & t & -> & Hall & Hparse); [lia|].
  simpl in Hall. apply andb_true_iff in Hall as [Hc _].
  destruct (digit_plain c Hc) as (_ & Hminus & Hplus & _).
  unfold Atoi.
  assert (Hsign : match String c t with
                  | String "-" r => (true, r)
                  | String "+" r => (false, r)
                  | _ => (false, String c t)
                  end = (false, String c t)).
  { destruct c as [[] [] [] [] [] [] [] []]; try reflexivity; congruence. }
  rewrite Hsign, Hparse.
  destruct (Z.ltb_spec v (- 2 ^ 63)); [lia|].
  destruct (Z.leb_spec (2 ^ 63) v); [lia|reflexivity].
Qed.

(** X4.  [getRaftPort] fails with "illegal heartbeat address" whenever the
    heartbeat address does not have exactly one colon, whatever the
    replicate address is, and with "illegal replicate address" when only the
    replicate address does not; both ports are then 0.  When it returns no
    error, each address has exactly one colon. *)
Theorem getRaftPort_illegal (raftConfig : RaftConfig) :
  let '(heartbeat, replicate, err) := getRaftPort raftConfig in
  (colons (HeartbeatAddr raftConfig) <> 1%nat ->
     err = Some (Errorf "illegal heartbeat address") /\ heartbeat = 0 /\ replicate = 0) /\
  (colons (HeartbeatAddr raftConfig) = 1%nat -> colons (ReplicateAddr raftConfig) <> 1%nat ->
     err = Some (Errorf "illegal replicate address") /\ heartbeat = 0 /\ replicate = 0) /\
  (err = None ->
     colons (HeartbeatAddr raftConfig) = 1%nat /\ colons (ReplicateAddr raftConfig) = 1%nat).
Proof.
  unfold getRaftPort. rewrite !splitColon_length.
  destruct (Nat.eqb_spec (S (colons (HeartbeatAddr raftConfig))) 2) as [Hh|Hh]; cbn [negb].
  - destruct (Nat.eqb_spec (S (colons (ReplicateAddr raftConfig))) 2) as [Hr|Hr]; cbn [negb].
    + destruct (Atoi _) as [h [e|]].
      * repeat split; try lia; discriminate.
      * destruct (Atoi _) as [r e]. repeat split; try lia.
    + repeat split; try lia; try discriminate.
  - repeat split; try lia; try discriminate.
Qed.

(** X5.  For addresses of the form [host:port], with no colon in [host] and
    the port a decimal number below [2^63], [getRaftPort] returns the two
    ports and no error. *)
Theorem getRaftPort_ports (hHost rHost : string) (hPort rPort : Z) :
  colons hHost = 0%nat -> colons rHost = 0%nat ->
  0 <= hPort < 2 ^ 63 -> 0 <= rPort < 2 ^ 63 ->
  getRaftPort (mkRaftConfig (hHost +:+ ":" +:+ FormatUint hPort)
                            (rHost +:+ ":" +:+ FormatUint rPort))
    = (hPort, rPort, None).
Proof.
  intros Hh Hr Hhp Hrp.
  assert (Hdig : forall v, 0 <= v < 2 ^ 63 -> colons (FormatUint v) = 0%nat).
  { intros v Hv. destruct (FormatUint_digits v) as (c & t & -> & Hall & _); [lia|].
    now apply allIn_colons. }
  unfold getRaftPort. cbn [HeartbeatAddr ReplicateAddr].
  rewrite !splitColon_one by auto. cbn [length Nat.eqb negb nth].
  now rewrite !Atoi_FormatUint.
Qed.

Lemma getRaftPort_ports_witness :
  getRaftPort (mkRaftConfig ("10.0.0.1" +:+ ":" +:+ FormatUint 5901)
                            ("10.0.0.1" +:+ ":" +:+ FormatUint 5902))
    = (5901, 5902, None).
Proof.
  apply (getRaftPort_ports "10.0.0.1" "10.0.0.1" 5901 5902); try reflexivity; lia.
Defined.

(** *** [StartRaft] *)

Lemma hostOf_colons s : colons (hostOf s) = 0%nat.
Proof.
  induction s as [|c s IH]; [reflexivity|]. simpl.
  destruct (Ascii.eqb c ":") eqn:E; [reflexivity|]. simpl. now rewrite E.
Qed.

(** The host part is what stands before the first colon. *)
Lemma hostOf_prefix s :
  s = hostOf s \/ exists rest, s = hostOf s +:+ String ":" rest.
Proof.
  induction s as [|c s IH]; [now left|]. simpl.
  destruct (Ascii.eqb_spec c ":") as [->|Hc].
  - right. now exists s.
  - destruct IH as [IH|[rest IH]].
    + left. now rewrite <- IH.
    + right. exists rest. rewrite append_cons. now rewrite <- IH.
Qed.

(** X6.  [StartRaft] calls the engine only when the raft ports were
    obtained; otherwise it returns that error and leaves the partition as
    it was.  When it calls, the configuration carries the partition id, the
    current [applyId], the partition path and one peer per configured peer,
    in the same order: each with the id of that peer, with the part of that
    peer's address that stands before its first colon (the whole address
    when it has none), and with the node's own two ports.  The handle the
    engine returns becomes [raftPartition], whether or not the engine
    reports an error, and nothing else in the partition changes. *)
Theorem StartRaft_config (raftConfig : RaftConfig)
    (CreatePartition : PartitionConfig -> option RaftPartition * option error)
    (p : dataPartition) :
  let '(heartbeat, replicate, portErr) := getRaftPort raftConfig in
  let '(p', err, call) := StartRaft raftConfig CreatePartition p in
  (portErr <> None -> p' = p /\ err = portErr /\ call = None) /\
  (portErr = None ->
     exists cfg,
       call = Some cfg /\
       pc_ID cfg = partitionId p /\ pc_Applied cfg = applyId p /\ pc_WalPath cfg = path p /\
       Forall2 (fun peer a =>
                  pa_ID a = peer_ID peer /\
                  colons (pa_Address a) = 0%nat /\
                  (peer_Addr peer = pa_Address a \/
                   exists rest, peer_Addr peer = pa_Address a +:+ String ":" rest) /\
                  HeartbeatPort a = heartbeat /\ ReplicatePort a = replicate)
               (Peers p) (pc_Peers cfg) /\
       p' = set_raftPartition (fst (CreatePartition cfg)) p /\
       err = snd (CreatePartition cfg)).
Proof.
  unfold StartRaft. destruct (getRaftPort raftConfig) as [[h r] [e|]]; cbv beta iota zeta.
  - split; [auto|discriminate].
  - set (cfg := mkPartitionConfig _ _ _ _).
    destruct (CreatePartition cfg) as [handle err] eqn:Hc.
    split; [congruence|]. intros _.
    exists cfg. rewrite Hc. repeat split; try reflexivity.
    unfold cfg. cbn [pc_Peers]. clear. generalize (Peers p) as qs.
    induction qs as [|q qs IH]; constructor; [|exact IH].
    cbn. repeat split; [apply hostOf_colons|apply hostOf_prefix].
Qed.

(** *** [confAddNode] and [confRemoveNode] *)

Lemma existsb_peer id ps :
  existsb (fun peer => peer_ID peer =? id) ps = true <-> In id (peerIDs ps).
Proof.
  unfold peerIDs. rewrite existsb_exists, in_map_iff. split.
  - intros (q & Hin & Hq). exists q. split; [now apply Z.eqb_eq|assumption].
  - intros (q & Hq & Hin). exists q. split; [assumption|now apply Z.eqb_eq].
Qed.





(** X7.  [confAddNode], the raft ports being available: a peer whose id is
    already in the list changes nothing, reports "not updated" and makes no
    call on the raft store; a peer whose id is new is appended at the end
    of the list, reported as an update, and registered with the raft store
    under its id, the host part of its address and the node's own ports.
    Either way the id is in the list afterwards, so that adding the same
    peer again changes nothing. *)
Theorem confAddNode_once (raftConfig : RaftConfig) (heartbeat replicate : Z)
    (p : dataPartition) (req : DataPartitionOfflineRequest) (index index' : Z) :
  getRaftPort raftConfig = (heartbeat, replicate, None) ->
  let id := peer_ID (AddPeer req) in
  let '(p1, updated, err, call) := confAddNode raftConfig p req index in
  err = None /\
  In id (peerIDs (Peers p1)) /\
  (In id (peerIDs (Peers p)) -> p1 = p /\ updated = false /\ call = None) /\
  (~ In id (peerIDs (Peers p)) ->
     p1 = set_Peers (Peers p ++ [AddPeer req]) p /\ updated = true /\
     call = Some (mkAddNodeCall id (hostOf (peer_Addr (AddPeer req))) heartbeat replicate)) /\
  confAddNode raftConfig p1 req index' = (p1, false, None, None).
Proof.
  intros Hport id. unfold confAddNode. rewrite Hport.
  destruct (existsb (fun peer => peer_ID peer =? peer_ID (AddPeer req)) (Peers p)) eqn:Hfind;
    cbn [negb].
  - pose proof (proj1 (existsb_peer _ _) Hfind) as Hin.
    cbv beta iota zeta. rewrite ?Hport, ?Hfind. cbn [negb].
    repeat split; auto; try exact Hin;
      try (intros Hni; exfalso; apply Hni; exact Hin);
      try (match goal with H : ~ _ |- _ => exfalso; apply H; exact Hin end).
  - assert (Hni : ~ In id (peerIDs (Peers p))).
    { intros Hin. apply existsb_peer in Hin. unfold id in Hin. congruence. }
    assert (Hin' : In id (peerIDs (Peers p ++ [AddPeer req]))).
    { unfold peerIDs. rewrite map_app. apply in_or_app. right. now left. }
    apply existsb_peer in Hin'. unfold id in Hin'.
    cbv beta iota zeta. rewrite ?Hport. cbn [Peers set_Peers]. rewrite Hin'. cbn [negb].
    repeat split; auto; try (intros Hin; exfalso; apply Hni; exact Hin);
      try (match goal with H : In _ _ |- _ => exfalso; apply Hni; exact H end).
    unfold peerIDs. rewrite map_app. apply in_or_app. right. now left.
Qed.

Lemma confAddNode_once_witness :
  let req := mkOfflineRequest (mkPeer 9 "10.0.0.9:6000") (mkPeer 0 "") in
  let '(p1, updated, err, call) := confAddNode raftConfig0 dp0 req 5 in
  err = None /\ updated = true /\
  call = Some (mkAddNodeCall 9 "10.0.0.9" 5901 5902) /\
  confAddNode raftConfig0 p1 req 6 = (p1, false, None, None).
Proof.
  intros req.
  pose proof (confAddNode_once raftConfig0 5901 5902 dp0 req 5 6 eq_refl) as H.
  cbv zeta in H. destruct (confAddNode raftConfig0 dp0 req 5) as [[[p1 updated] err] call].
  destruct H as (He & _ & _ & Hnew & Hagain).
  destruct Hnew as (Hp1 & Hu & Hc).
  { cbn. intros [H|[H|[H|[]]]]; discriminate. }
  repeat split; assumption.
Defined.





End ConfigFacts.

(** ** More on the data partition *)
Module PartitionFacts.
Import Datanode Fmt FmtFacts.

(** *** Repair always detaches *)

(** X10.  Whatever the engine and the store answer, [ApplyErrRepair] leaves
    the partition detached from consensus and otherwise as it was; it stops
    the engine first, and only if one was attached; and when the watermark
    cannot be fetched it does nothing more: no follower is notified, no
    extent deleted, no repair started. *)
Theorem ApplyErrRepair_detaches (E : Env) (p : dataPartition) (extentId : Z) :
  let '(p', ev) := ApplyErrRepair p extentId in
  p' = set_raftPartition None p /\
  raftPartition p' = None /\
  (exists rest, ev = snd (stopRaft p) ++ rest /\ ~ In EvRaftStop rest) /\
  (snd (stopRaft p) = match raftPartition p with Some _ => [EvRaftStop] | None => [] end) /\
  (forall e, GetOneWatermark (set_raftPartition None p) extentId = inl e ->
             ev = snd (stopRaft p)).
Proof.
  unfold ApplyErrRepair.
  destruct (IsLeader p) as [leaderAddr isLeader].
  assert (Hstop : stopRaft p =
                  (set_raftPartition None p,
                   match raftPartition p with Some _ => [EvRaftStop] | None => [] end)).
  { unfold stopRaft. destruct p as [? ? ? ? [r|] ? ? ? ? ? ? ?]; reflexivity. }
  rewrite Hstop. cbn [fst snd].
  destruct (GetOneWatermark (set_raftPartition None p) extentId) as [e|info].
  - split; [reflexivity|]. split; [reflexivity|]. split; [|split; [reflexivity|auto]].
    exists []. rewrite app_nil_r. auto.
  - destruct isLeader; [|destruct (negb (String.eqb leaderAddr ""))];
      (split; [reflexivity|]; split; [reflexivity|];
       split; [|split; [reflexivity|intros e He; discriminate]]).
    + eexists. split; [reflexivity|]. intros [H|[]]. discriminate.
    + eexists. split; [reflexivity|]. unfold ExtentRepair.
      intros [H|[H|[]]]; discriminate.
    + exists []. rewrite app_nil_r. auto.
Qed.

(** *** The poll *)

(** X11.  The request [NewGetAppliedId] builds carries the hint as eight
    bytes in big-endian order: [Size] is 8, every byte is below 256, and
    [BigEndian.Uint64] of the payload gives the hint back. *)
Theorem NewGetAppliedId_payload (op magic reqID partition minApplied : Z) :
  0 <= minApplied < 2 ^ 64 ->
  let pkt := NewGetAppliedId op magic reqID partition minApplied in
  pk_Size pkt = 8 /\ length (Data pkt) = 8%nat /\
  Forall (fun b => 0 <= b < 256) (Data pkt) /\
  Uint64 (Data pkt) = Some minApplied /\
  Opcode pkt = op /\ pk_PartitionID pkt = partition /\ Magic pkt = magic /\ ReqID pkt = reqID.
Proof.
  intros Hm pkt. unfold pkt, NewGetAppliedId. cbn [pk_Size Data Opcode pk_PartitionID Magic ReqID].
  split; [reflexivity|]. split; [reflexivity|]. split.
  - unfold PutUint64, byte_of. repeat constructor;
      (apply Z.land_nonneg; lia) ||
      (change 255 with (Z.ones 8); rewrite Z.land_ones by lia; apply Z.mod_pos_bound; lia).
  - split; [|auto]. pose proof (Uint64_PutUint64 minApplied [] Hm) as H.
    now rewrite app_nil_r in H.
Qed.

Lemma NewGetAppliedId_payload_witness :
  Uint64 (Data (NewGetAppliedId 1 2 3 7 42)) = Some 42.
Proof.
  refine (proj1 (proj2 (proj2 (proj2 (NewGetAppliedId_payload 1 2 3 7 42 _))))). lia.
Defined.

(** X12.  The minimum the poll loop ends with is attained: it is either the
    value the loop started from or a non-zero applied index one of the
    replicas reached in the loop reported, and in the second case it is
    below the starting value. *)
Theorem pollLoop_attained (net : nat -> pollStep) :
  forall targets i m0,
    let '(m, exit) := pollLoop net i targets m0 in
    m = m0 \/
    (m < m0 /\ m <> 0 /\
     exists j data, (i <= j < i + length targets)%nat /\
                    net j = Reply data /\ Uint64 data = Some m).
Proof.
  induction targets as [|t targets IH]; intros i m0; simpl; [now left|].
  destruct (net i) as [e|e|e|data] eqn:Hnet; try (now left).
  destruct (Uint64 data) as [r|] eqn:Hdec; [|now left].
  specialize (IH (S i) (if (r <? m0) && negb (r =? 0) then r else m0)).
  destruct (pollLoop net (S i) targets _) as [m exit].
  destruct (Z.ltb_spec r m0) as [Hlt|Hge]; cbn [andb] in IH.
  - destruct (Z.eqb_spec r 0) as [Hz|Hnz]; cbn [negb] in IH.
    + destruct IH as [->|(Hm & Hn & j & d & Hj & Hr & Hd)]; [now left|].
      right. repeat split; auto. exists j, d. repeat split; auto; lia.
    + destruct IH as [->|(Hm & Hn & j & d & Hj & Hr & Hd)].
      * right. repeat split; auto. exists i, data. repeat split; auto; lia.
      * right. repeat split; auto; try lia. exists j, d. repeat split; auto; lia.
  - destruct IH as [->|(Hm & Hn & j & d & Hj & Hr & Hd)]; [now left|].
    right. repeat split; auto. exists j, d. repeat split; auto; lia.
Qed.

(** X13.  [getMinAppliedId] on a node whose address is not that of the
    first replica host contacts nobody and changes nothing, whatever the
    other replicas would answer; and in every case it leaves every field of
    the partition but [minAppliedId] as it was. *)
Theorem getMinAppliedId_only_coordinator (E : Env) (p : dataPartition)
    (net : nat -> pollStep) (first : string) (others : list string) :
  replicaHosts p = first :: others ->
  (hostOf first <> LocalIP -> getMinAppliedId p net = (p, NotCoordinator)) /\
  (hostOf first = LocalIP -> exists m exit, snd (getMinAppliedId p net) = Polled m exit) /\
  exists v, fst (getMinAppliedId p net) = set_minAppliedId v p.
Proof.
  intros Hhosts. unfold getMinAppliedId. rewrite Hhosts.
  destruct (String.eqb_spec (hostOf first) LocalIP) as [Heq|Hne]; cbn [negb].
  - split; [congruence|]. destruct (pollLoop net 1 others (applyId p)) as [m exit].
    split; [intros _; eauto|].
    destruct exit; cbn; eauto. exists (minAppliedId p). destruct p; reflexivity.
  - split; [auto|]. split; [congruence|].
    exists (minAppliedId p). destruct p; reflexivity.
Qed.

Lemma getMinAppliedId_only_coordinator_witness :
  @getMinAppliedId env0 dp1 (replies [7; 9]) = (dp1, NotCoordinator).
Proof.
  refine (proj1 (@getMinAppliedId_only_coordinator env0 dp1 (replies [7; 9]) "10.0.0.2:6000"
                   ["10.0.0.1:6000"; "10.0.0.3:6000"] eq_refl) _).
  discriminate.
Defined.

(** *** Storing and loading the applied index *)

Section StoreLoad.
Context {E : Env}.

Lemma pathJoin_inj dir a b : pathJoin dir a = pathJoin dir b -> a = b.
Proof.
  unfold pathJoin. intros H. apply String.app_inj in H.
  rewrite !append_cons, !append_nil in H. now injection H.
Qed.

Lemma scanUint_d_FormatUint v :
  0 <= v < 2 ^ 64 -> scanUint VerbD 64 (FormatUint v) = inr (v, EmptyString).
Proof.
  intros Hv.
  destruct (ConfigFacts.FormatUint_digits v Hv) as (c & t & -> & Hall & Hparse).
  pose proof Hall as Hall'. simpl in Hall'. apply andb_true_iff in Hall' as [Hc _].
  destruct (ConfigFacts.digit_plain c Hc) as (_ & _ & _ & Hsp & Hnl).
  unfold scanUint. simpl SkipSpace. rewrite Hnl, Hsp. unfold scanNumber.
  rewrite accepts_decimal, Hc.
  rewrite acceptRun_all by (try exact Hall; intros a Ha; now rewrite accepts_decimal).
  rewrite append_nil. unfold ParseUint. change (10 =? 0) with false. cbv iota beta.
  rewrite (parseLoop_digits false false (String c t) 0 v Hall ltac:(lia) Hparse)
    by (unfold maxUint64; lia).
  cbn [andb].
  replace (v <? 2 ^ 64) with true by (symmetry; apply Z.ltb_lt; lia).
  reflexivity.
Qed.

Lemma FormatUint_nonempty v : 0 <= v < 2 ^ 64 -> (String.length (FormatUint v) =? 0)%nat = false.
Proof.
  intros Hv. destruct (ConfigFacts.FormatUint_digits v Hv) as (c & t & -> & _). reflexivity.
Qed.

(** X14.  Store, then load, for a call that runs alone.  With distinct
    names for the temporary and the applied-index file, and no unreadable
    file in the way under the temporary name: when the calls of one
    successful [storeApplyIndex] of an index below [2^64] run one after
    the other, no other call on the two files coming in between (so no
    second [storeApplyIndex] of the partition at the same time), then, on
    whatever the disk held before, the temporary file is gone afterwards,
    the applied-index file holds the decimal text of the index, and
    [LoadApplyIndex] sets [applyId] to that index without error. *)
Theorem store_then_load (p : dataPartition) (applyIndex : Z) (d : disk) :
  TempApplyIndexFile <> ApplyIndexFile ->
  (forall f, entries d !! pathJoin (path p) TempApplyIndexFile = Some f -> readable f = true) ->
  0 <= applyIndex < 2 ^ 64 ->
  let d' := sysRun d (fst (storeApplyIndex p applyIndex None None None)) in
  ReadFile d' (pathJoin (path p) ApplyIndexFile) = inr (FormatUint applyIndex) /\
  entries d' !! pathJoin (path p) TempApplyIndexFile = None /\
  LoadApplyIndex p d' = (set_applyId applyIndex p, None).
Proof.
  intros Hnames Hread Hv d'.
  set (tmp := pathJoin (path p) TempApplyIndexFile) in *.
  set (canonical := pathJoin (path p) ApplyIndexFile).
  assert (Hne : tmp <> canonical) by (intros H; apply pathJoin_inj in H; auto).
  assert (Hentry : exists es o,
             d' = mkDisk es o /\
             es !! canonical = Some (mkFile (FormatUint applyIndex) (FormatUint applyIndex) true) /\
             es !! tmp = None).
  { unfold d', storeApplyIndex, storeDeferred, sysRun. fold tmp canonical.
    cbn [fst snd app fold_left].
    assert (H1 : exists s0, sysStep d (SysOpenFile tmp) =
                            mkDisk (<[tmp := mkFile "" s0 true]> (entries d)) (Some tmp)).
    { cbn. destruct (entries d !! tmp) as [f|] eqn:Hf; eexists;
        [rewrite (Hread f eq_refl)|]; reflexivity. }
    destruct H1 as [s0 ->].
    unfold sysStep at 5. cbn [entries opened]. rewrite lookup_insert_eq.
    cbn [contents synced readable]. rewrite append_nil.
    unfold sysStep at 4. cbn [entries opened]. rewrite lookup_insert_eq.
    rewrite decide_True by reflexivity.
    unfold sysStep at 3. cbn [entries opened]. rewrite lookup_insert_eq.
    cbn [contents synced readable].
    unfold sysStep. cbn [entries opened].
    do 2 eexists. split; [reflexivity|]. split.
    - rewrite lookup_delete_ne by auto. now rewrite lookup_insert_eq.
    - apply lookup_delete_eq. }
  destruct Hentry as (es & o & -> & Hcan & Htmp).
  assert (Hscan := scanUint_d_FormatUint applyIndex Hv).
  assert (Hlen := FormatUint_nonempty applyIndex Hv).
  repeat split.
  - unfold ReadFile. cbn [entries]. now rewrite Hcan.
  - exact Htmp.
  - unfold LoadApplyIndex, Stat, ReadFile. fold canonical. cbn [entries].
    rewrite Hcan. cbn [readable contents]. now rewrite Hlen, Hscan.
Qed.

End StoreLoad.

Lemma store_then_load_witness :
  let d' := sysRun (diskWith "41") (fst (@storeApplyIndex env0 dp0 42 None None None)) in
  ReadFile d' "/data/dp7/APPLY" = inr "42"%string /\
  entries d' !! "/data/dp7/.apply"%string = None /\
  @LoadApplyIndex env0 dp0 d' = (set_applyId 42 dp0, None).
Proof.
  apply (@store_then_load env0 dp0 42 (diskWith "41")).
  - discriminate.
  - intros f Hf. vm_compute in Hf. discriminate.
  - lia.
Defined.

(** Why the call has to run alone.  The control loop starts one
    [dumpFunc] goroutine for every queued index, and all of them use the
    same temporary name.  Let a call for 11 and a call for 12 open the
    temporary file one after the other and then write one after the other:
    both texts land in the same file, the first rename moves it into place
    and the call for 11 returns no error, the rename of the other call finds
    no temporary file.  The applied-index file then holds ["1112"], and
    [LoadApplyIndex] reads an index nobody stored. *)
Lemma interleaved_stores_mix :
  let a := @storeApplyIndex env0 dp0 11 None None None in
  let b := @storeApplyIndex env0 dp0 12 None None (Some ErrNotExist) in
  let calls := take 1 (fst a) ++ take 1 (fst b) ++
               take 1 (drop 1 (fst a)) ++ take 1 (drop 1 (fst b)) ++
               drop 2 (fst a) ++ drop 2 (fst b) in
  snd a = None /\
  ReadFile (sysRun (diskWith "10") calls) "/data/dp7/APPLY" = inr "1112"%string /\
  @LoadApplyIndex env0 dp0 (sysRun (diskWith "10") calls) = (set_applyId 1112 dp0, None).
Proof. intros a b calls. repeat split; vm_compute; reflexivity. Qed.

End PartitionFacts.

(** ** More on the control loop *)
Module LoopFacts.
Import Datanode.

Section WithEnv.
Context {E : Env}.

(** What the calls of the loop leave alone. *)
Lemma ApplyErrRepair_frame p extentId :
  fst (ApplyErrRepair p extentId) = set_raftPartition None p.
Proof.
  unfold ApplyErrRepair. destruct (IsLeader p) as [leaderAddr isLeader].
  assert (Hstop : fst (stopRaft p) = set_raftPartition None p).
  { unfold stopRaft. destruct p as [? ? ? ? [r|] ? ? ? ? ? ? ?]; reflexivity. }
  destruct (stopRaft p) as [p1 ev]. cbn [fst] in Hstop. subst p1.
  destruct (GetOneWatermark _ extentId); [reflexivity|].
  destruct isLeader; [reflexivity|]. destruct (negb _); reflexivity.
Qed.

Lemma getMinAppliedId_frame p net :
  exists v, fst (getMinAppliedId p net) = set_minAppliedId v p.
Proof.
  assert (Hid : p = set_minAppliedId (minAppliedId p) p) by (destruct p; reflexivity).
  unfold getMinAppliedId. destruct (replicaHosts p) as [|first others]; [eauto|].
  destruct (negb _); [eauto|].
  destruct (pollLoop net 1 others (applyId p)) as [m [| |]]; cbn; eauto.
Qed.

Lemma truncCycle_frame p net :
  let '(p', out, acts) := truncCycle p net in
  storeC p' = storeC p /\ applyId p' = applyId p /\ dumps acts = [].
Proof.
  unfold truncCycle. destruct (getMinAppliedId_frame p net) as [v Hv].
  destruct (getMinAppliedId p net) as [p1 out]. cbn [fst] in Hv. subst p1.
  destruct out as [| |m [| |]]; cbn [storeC applyId set_minAppliedId];
    try (repeat split; reflexivity);
    destruct (_ <? _); try (repeat split; reflexivity);
    destruct (raftPartition _); repeat split; reflexivity.
Qed.

Lemma dumps_GoDump l : dumps (map GoDump l) = l.
Proof. induction l as [|x l IH]; [reflexivity|]. cbn. now f_equal. Qed.

Lemma dumps_Repair ev : dumps (map Repair ev) = [].
Proof. induction ev as [|x ev IH]; [reflexivity|]. exact IH. Qed.

Lemma dumps_app a b : dumps (a ++ b) = dumps a ++ dumps b.
Proof. unfold dumps. apply flat_map_app. Qed.

Lemma sent_app a l1 l2 : sent a (l1 ++ l2) = sent a l1 ++ sent a l2.
Proof. unfold sent. apply flat_map_app. Qed.

(** One move: what was dumped, what waits in [indexes] and what waits on
    [storeC] are, in this order, what waited before followed by what the
    move sent. *)
Lemma step_queue l s s' acts :
  step l s = Some (s', acts) ->
  dumps acts ++ indexes s' ++ storeC (dp s') =
    indexes s ++ storeC (dp s) ++ sent (applyId (dp s)) [l] /\
  applyId (dp s') = applyId (dp s).
Proof.
  unfold step, selectStep, loopHead, timerExpire, timerReceive, with_dp, with_pc.
  intros Hstep.
  destruct l as [t|v|e| |v err| |c].
  - destruct t; cbn in Hstep; destruct (armed _); simplify_eq; cbn; rewrite ?app_nil_r; auto.
  - simplify_eq. cbn. rewrite ?app_nil_r, <- ?app_assoc. auto.
  - simplify_eq. cbn. rewrite ?app_nil_r. auto.
  - simplify_eq. cbn. rewrite ?app_nil_r. auto.
  - destruct err; simplify_eq; cbn; rewrite ?app_nil_r, <- ?app_assoc; auto.
  - destruct (pc s); try discriminate. simplify_eq.
    destruct (indexes s); [|destruct (isRunning s)]; cbn; rewrite ?app_nil_r; auto.
  - destruct (pc s); try discriminate.
    destruct c as [| | |started| |net|]; cbn in Hstep.
    + destruct (stopC s); simplify_eq. cbn. rewrite ?app_nil_r. auto.
    + destruct (readyChan s); simplify_eq. cbn. rewrite dumps_GoDump, ?app_nil_r. auto.
    + destruct (storeC (dp s)) as [|x rest] eqn:Hq; simplify_eq. cbn.
      rewrite ?app_nil_r, <- app_assoc. auto.
    + destruct (raftC (dp s)) as [|code rest]; [discriminate|]. cbn in Hstep.
      destruct (raftPartition (dp s));
        [|destruct (opRaftCode_eqb code opStartRaft); [destruct started|]];
        simplify_eq; cbn; rewrite ?app_nil_r; auto.
    + destruct (repairC (dp s)) as [|extentId rest]; [discriminate|].
      pose proof (ApplyErrRepair_frame (set_repairC rest (dp s)) extentId) as Hf.
      destruct (ApplyErrRepair (set_repairC rest (dp s)) extentId) as [p1 ev].
      cbn [fst] in Hf. subst p1. simplify_eq. cbn. rewrite dumps_Repair, ?app_nil_r. auto.
    + destruct (fired (truncRaftlogTimer s)); [|discriminate].
      pose proof (truncCycle_frame (dp s) net) as Hf.
      destruct (truncCycle (dp s) net) as [[p1 out] acts0]. simplify_eq. cbn.
      destruct Hf as (-> & -> & ->). rewrite ?app_nil_r. auto.
    + destruct (fired (storeAppliedTimer s)); [|discriminate].
      simplify_eq. cbn. auto.
Qed.

Lemma run_queue : forall ls s s' acts,
  run ls s = Some (s', acts) ->
  dumps acts ++ indexes s' ++ storeC (dp s') =
    indexes s ++ storeC (dp s) ++ sent (applyId (dp s)) ls /\
  applyId (dp s') = applyId (dp s).
Proof.
  induction ls as [|l ls IH]; intros s s' acts Hrun; cbn [run] in Hrun.
  - simplify_eq. cbn. rewrite ?app_nil_r. auto.
  - destruct (step l s) as [[s1 acts1]|] eqn:Hstep; [|discriminate].
    destruct (step_queue l s s1 acts1 Hstep) as [Hq1 Ha1].
    destruct (hasPanic acts1).
    + destruct ls; [|discriminate]. simplify_eq. auto.
    + destruct (run ls s1) as [[s2 acts2]|] eqn:Hrest; [|discriminate]. simplify_eq.
      destruct (IH s1 s' acts2 Hrest) as [Hq2 Ha2].
      split; [|congruence].
      change (l :: ls) with ([l] ++ ls). rewrite sent_app, dumps_app.
      rewrite <- app_assoc, Hq2, Ha1, !app_assoc.
      f_equal. rewrite <- !app_assoc. rewrite <- Hq1. now rewrite !app_assoc.
Qed.

(** X15.  The persistence queue loses nothing and keeps the order.  In
    every run of the control loop started by [StartSchedule], the indexes
    for which a [dumpFunc] was started, followed by those waiting in
    [indexes], followed by those still on [storeC], are exactly the values
    that were on [storeC] at the start followed by the values sent on it
    during the run (by other goroutines, by a failed dump, by the
    applied-index timer), in the order they were sent: an index is dumped at
    most once per time it was sent, never before one sent earlier. *)
Theorem persistence_queue_is_fifo (p : dataPartition) (ls : list label)
    (s : loopState) (acts : list action) :
  run ls (StartSchedule p) = Some (s, acts) ->
  dumps acts ++ indexes s ++ storeC (dp s) = storeC p ++ sent (applyId p) ls.
Proof. intros Hrun. apply run_queue in Hrun as [Hq _]. exact Hq. Qed.

(** A goroutine that is blocked or gone makes no move. *)
Lemma step_dead l s s' acts :
  loopAlive s = false -> step l s = Some (s', acts) ->
  acts = [] /\ pc s' = pc s /\ indexes s' = indexes s /\ isLoopMove l = false /\
  raftPartition (dp s') = raftPartition (dp s) /\
  lastTruncateId (dp s') = lastTruncateId (dp s).
Proof.
  unfold loopAlive, step, timerExpire. intros Hdead Hstep.
  destruct (pc s) eqn:Hpc; try discriminate;
    destruct l as [[|]| | | |v [e|]| |c]; cbn in Hstep;
    repeat match type of Hstep with
           | context [armed ?t] => destruct (armed t)
           end; rewrite ?Hpc in Hstep; simplify_eq; cbn; auto 10.
Qed.

Lemma run_dead : forall ls s s' acts,
  loopAlive s = false -> run ls s = Some (s', acts) ->
  acts = [] /\ pc s' = pc s /\ indexes s' = indexes s /\
  forallb (fun l => negb (isLoopMove l)) ls = true /\
  raftPartition (dp s') = raftPartition (dp s) /\
  lastTruncateId (dp s') = lastTruncateId (dp s).
Proof.
  induction ls as [|l ls IH]; intros s s' acts Hdead Hrun; cbn [run] in Hrun.
  - simplify_eq. auto 10.
  - destruct (step l s) as [[s1 acts1]|] eqn:Hstep; [|discriminate].
    destruct (step_dead l s s1 acts1 Hdead Hstep) as (-> & Hpc & Hi & Hl & Hr & Ht).
    cbn [hasPanic existsb] in Hrun.
    destruct (run ls s1) as [[s2 acts2]|] eqn:Hrest; [|discriminate]. simplify_eq.
    assert (Hdead1 : loopAlive s1 = false) by (unfold loopAlive in *; now rewrite Hpc).
    destruct (IH s1 s' acts2 Hdead1 Hrest) as (-> & Hpc' & Hi' & Hl' & Hr' & Ht').
    cbn. rewrite Hl, Hl'. repeat split; congruence.
Qed.

(** X16.  After the loop has taken the case of [stopC] it has returned for
    good: both timers were stopped, and in whatever happens afterwards
    (values sent on the channels, dumps returning) no move of the loop
    occurs and nothing is started, no dump, no truncation, no repair; the
    indexes that waited in [indexes] are never dumped. *)
Theorem stop_is_final (s s1 : loopState) (acts1 : list action) :
  pc s = AtSelect ->
  step (Select CaseStop) s = Some (s1, acts1) ->
  acts1 = [] /\ pc s1 = Exited /\
  armed (truncRaftlogTimer s1) = false /\ armed (storeAppliedTimer s1) = false /\
  forall ls s' acts,
    run ls s1 = Some (s', acts) ->
    acts = [] /\ pc s' = Exited /\ indexes s' = indexes s /\
    forallb (fun l => negb (isLoopMove l)) ls = true.
Proof.
  intros Hpc Hstep. unfold step in Hstep. rewrite Hpc in Hstep. cbn in Hstep.
  destruct (stopC s); [|discriminate]. simplify_eq.
  split; [reflexivity|]. split; [reflexivity|]. split; [reflexivity|]. split; [reflexivity|].
  intros ls s' acts Hrun. apply run_dead in Hrun; [|reflexivity].
  destruct Hrun as (Ha & Hp & Hi & Hl & _). auto.
Qed.

(** X17.  The loop can block itself for good.  Two indexes [a] and [b] are
    received and dumped together; while the two dumps run, [c] is received;
    the first dump returns, the head of the loop puts a value on
    [readyChan]; the [select] takes [d] from [storeC] instead; the second
    dump returns and clears [isRunning]; the head of the loop then sends on
    [readyChan] again, which is full, and only the loop itself receives from
    it.  From then on the loop makes no move: [c] and [d] are never dumped
    and nothing else is ever started. *)
Theorem loop_can_block_itself (p : dataPartition) (a b c d : Z) :
  let ls := [SendStoreC a; SendStoreC b; LoopHead; Select CaseStore; LoopHead;
             Select CaseStore; LoopHead; Select CaseReady; DumpReturns a None;
             SendStoreC c; LoopHead; Select CaseStore; LoopHead; SendStoreC d;
             Select CaseStore; DumpReturns b None; LoopHead] in
  let s := mkLoopState (set_storeC [] p) true [c; d] true NewTimer NewTimer false
             BlockedOnReady in
  run ls (StartSchedule (set_storeC [] p)) = Some (s, [GoDump a; GoDump b]) /\
  forall ls' s' acts',
    run ls' s = Some (s', acts') ->
    acts' = [] /\ pc s' = BlockedOnReady /\ indexes s' = [c; d] /\
    forallb (fun l => negb (isLoopMove l)) ls' = true.
Proof.
  intros ls s. split; [vm_compute; reflexivity|].
  intros ls' s' acts' Hrun. apply run_dead in Hrun; [|reflexivity].
  destruct Hrun as (Ha & Hp & Hi & Hl & _). auto.
Qed.

Lemma hasPanic_Repair ev : hasPanic (map Repair ev) = false.
Proof. induction ev as [|x ev IH]; [reflexivity|]. exact IH. Qed.

Lemma truncCycle_frame_raft p net :
  let '(p', out, acts) := truncCycle p net in
  raftPartition p' = raftPartition p /\ raftC p' = raftC p.
Proof.
  unfold truncCycle. destruct (getMinAppliedId_frame p net) as [v Hv].
  destruct (getMinAppliedId p net) as [p1 out]. cbn [fst] in Hv. subst p1.
  destruct out as [| |m [| |]]; try (split; reflexivity);
    (destruct (_ <? _); [|split; reflexivity]);
    destruct (raftPartition (set_minAppliedId v p)); split; reflexivity.
Qed.

(** No move but the case of [raftC] attaches consensus or takes a request
    from [raftC]. *)
Lemma step_detached base l s s' acts :
  isRaftOp l = false -> step l s = Some (s', acts) ->
  detached base s -> detached base s'.
Proof.
  unfold detached, step, selectStep, loopHead, timerExpire, timerReceive, with_dp, with_pc.
  intros Hl Hstep [Hnone [more Hq]].
  destruct l as [t|v|e| |v err| |c].
  - destruct t; cbn in Hstep; destruct (armed _); simplify_eq; cbn; eauto.
  - simplify_eq. cbn. eauto.
  - simplify_eq. cbn. eauto.
  - simplify_eq. cbn. eauto.
  - destruct err; simplify_eq; cbn; eauto.
  - destruct (pc s); try discriminate. simplify_eq.
    destruct (indexes s); [|destruct (isRunning s)]; cbn; eauto.
  - destruct (pc s); try discriminate.
    destruct c as [| | |started| |net|]; cbn in Hstep; try discriminate Hl.
    + destruct (stopC s); simplify_eq. cbn. eauto.
    + destruct (readyChan s); simplify_eq. cbn. eauto.
    + destruct (storeC (dp s)) as [|x rest] eqn:Hs; simplify_eq. cbn. eauto.
    + destruct (repairC (dp s)) as [|extentId rest]; [discriminate|].
      pose proof (ApplyErrRepair_frame (set_repairC rest (dp s)) extentId) as Hf.
      destruct (ApplyErrRepair (set_repairC rest (dp s)) extentId) as [p1 ev].
      cbn [fst] in Hf. subst p1. simplify_eq. cbn. split; [reflexivity|].
      exists (more ++ [opStartRaft]). rewrite Hq. now rewrite app_assoc.
    + destruct (fired (truncRaftlogTimer s)); [|discriminate].
      pose proof (truncCycle_frame_raft (dp s) net) as Hf.
      destruct (truncCycle (dp s) net) as [[p1 out] acts0]. simplify_eq. cbn.
      destruct Hf as (-> & ->). eauto.
    + destruct (fired (storeAppliedTimer s)); [|discriminate].
      simplify_eq. cbn. eauto.
Qed.

Lemma run_detached base : forall ls s s' acts,
  forallb (fun l => negb (isRaftOp l)) ls = true ->
  run ls s = Some (s', acts) -> detached base s -> detached base s'.
Proof.
  induction ls as [|l ls IH]; intros s s' acts Hls Hrun Hd; cbn [run] in Hrun.
  - now simplify_eq.
  - cbn [forallb] in Hls. apply andb_true_iff in Hls as [Hl Hls].
    apply negb_true_iff in Hl.
    destruct (step l s) as [[s1 acts1]|] eqn:Hstep; [|discriminate].
    pose proof (step_detached base l s s1 acts1 Hl Hstep Hd) as Hd1.
    destruct (hasPanic acts1).
    + destruct ls; [|discriminate]. now simplify_eq.
    + destruct (run ls s1) as [[s2 acts2]|] eqn:Hrest; [|discriminate]. simplify_eq.
      exact (IH s1 s' acts2 Hls Hrest Hd1).
Qed.

(** X18.  A repair leaves consensus detached until the loop serves the
    restart request.  When the [select] takes an extent from [repairC],
    the loop runs [ApplyErrRepair] on it, which detaches consensus, and puts
    one [opStartRaft] on [raftC] behind what waits there (the send is taken
    to go through: the capacity of [raftC] is set where the partition is
    made).  From then on, in every run in which the [select] does not take
    the case of [raftC], whatever else happens (timers, other repairs,
    dumps, values sent), consensus stays detached and that request stays on
    [raftC].  When nothing else waited on [raftC] and no index waits, and
    the loop takes the case of [raftC] next, it calls [StartRaft]: the
    partition is attached to the handle obtained, or the process panics
    when [StartRaft] failed. *)
Theorem repair_detaches_until_restart (s : loopState) (extentId : Z) (rest : list Z) :
  pc s = AtSelect -> repairC (dp s) = extentId :: rest ->
  let ev := snd (ApplyErrRepair (set_repairC rest (dp s)) extentId) in
  exists s1,
    step (Select CaseRepair) s = Some (s1, map Repair ev) /\
    pc s1 = AtHead /\ repairC (dp s1) = rest /\
    raftPartition (dp s1) = None /\ raftC (dp s1) = raftC (dp s) ++ [opStartRaft] /\
    (forall ls s' acts,
        forallb (fun l => negb (isRaftOp l)) ls = true ->
        run ls s1 = Some (s', acts) ->
        raftPartition (dp s') = None /\
        exists more, raftC (dp s') = raftC (dp s) ++ opStartRaft :: more) /\
    (raftC (dp s) = [] -> indexes s = [] ->
     (forall h, exists s',
         run [LoopHead; Select (CaseRaftOp (Some h))] s1 = Some (s', []) /\
         raftPartition (dp s') = Some h /\ raftC (dp s') = []) /\
     (exists s',
         run [LoopHead; Select (CaseRaftOp None)] s1 = Some (s', [Panic]) /\
         raftPartition (dp s') = None)).
Proof.
  intros Hpc Hrep ev.
  pose proof (ApplyErrRepair_frame (set_repairC rest (dp s)) extentId) as Hf.
  unfold ev. destruct (ApplyErrRepair (set_repairC rest (dp s)) extentId) as [p0 ev1] eqn:Hrun.
  cbn [fst snd] in *. subst p0.
  set (p1 := set_raftC (raftC (dp s) ++ [opStartRaft])
               (set_raftPartition None (set_repairC rest (dp s)))).
  set (s1 := with_pc AtHead (with_dp p1 s)).
  assert (Hstep1 : step (Select CaseRepair) s = Some (s1, map Repair ev1)).
  { unfold step. rewrite Hpc. unfold selectStep. rewrite Hrep, Hrun. reflexivity. }
  exists s1. split; [exact Hstep1|].
  do 4 (split; [reflexivity|]).
  assert (Hd : detached (raftC (dp s) ++ [opStartRaft]) s1).
  { split; [reflexivity|]. exists []. now rewrite app_nil_r. }
  split.
  - intros ls s' acts Hls Hr.
    destruct (run_detached _ ls s1 s' acts Hls Hr Hd) as [Hnone [more Hq]].
    split; [exact Hnone|]. exists more. rewrite Hq. now rewrite <- app_assoc.
  - intros Hraft Hidx.
    assert (Hhead : step LoopHead s1 = Some (with_pc AtSelect s1, [])).
    { unfold step, loopHead. cbn [pc with_pc s1 indexes with_dp]. now rewrite Hidx. }
    split.
    + intros h. eexists. cbn [run]. rewrite Hhead. cbn [hasPanic existsb].
      unfold step. cbn [pc with_pc]. unfold selectStep, s1, p1.
      cbn [dp with_pc with_dp raftC set_raftC]. rewrite Hraft. cbn.
      repeat split; reflexivity.
    + eexists. cbn [run]. rewrite Hhead. cbn [hasPanic existsb].
      unfold step. cbn [pc with_pc]. unfold selectStep, s1, p1.
      cbn [dp with_pc with_dp raftC set_raftC]. rewrite Hraft. cbn.
      split; reflexivity.
Qed.

End WithEnv.

Lemma repair_detaches_until_restart_witness :
  let s := mkLoopState (set_repairC [5; 6] dp0) false [] false NewTimer NewTimer false AtSelect in
  exists s1,
    @step env0 (Select CaseRepair) s
      = Some (s1, map Repair (snd (@ApplyErrRepair env0 (set_repairC [6] (dp s)) 5))) /\
    raftPartition (dp s1) = None /\ raftC (dp s1) = [opStartRaft] /\
    (forall ls s' acts,
        forallb (fun l => negb (isRaftOp l)) ls = true ->
        @run env0 ls s1 = Some (s', acts) ->
        raftPartition (dp s') = None).
Proof.
  intros s.
  destruct (@repair_detaches_until_restart env0 s 5 [6] eq_refl eq_refl)
    as (s1 & Hstep & _ & _ & Hnone & Hq & Hinv & _).
  exists s1. split; [exact Hstep|]. split; [exact Hnone|]. split; [exact Hq|].
  intros ls s' acts Hls Hr. exact (proj1 (Hinv ls s' acts Hls Hr)).
Defined.

Lemma stop_is_final_witness :
  let s := mkLoopState dp0 false [5] false NewTimer NewTimer true AtSelect in
  exists s1,
    @step env0 (Select CaseStop) s = Some (s1, []) /\ pc s1 = Exited /\
    forall ls s' acts, @run env0 ls s1 = Some (s', acts) -> acts = [] /\ indexes s' = [5].
Proof.
  intros s.
  destruct (@stop_is_final env0 s
              (mkLoopState dp0 false [5] false (mkTimer false false) (mkTimer false false)
                 false Exited) [] eq_refl eq_refl) as (_ & Hpc & _ & _ & Hafter).
  eexists. split; [reflexivity|]. split; [reflexivity|].
  intros ls s' acts Hrun. destruct (Hafter ls s' acts Hrun) as (Ha & _ & Hi & _). auto.
Defined.

Lemma persistence_queue_is_fifo_witness :
  let ls := [SendStoreC 11; SendStoreC 12; LoopHead; Select CaseStore; LoopHead;
             Select CaseReady; LoopHead; Select CaseStore] in
  let s := mkLoopState dp0 true [12] false NewTimer NewTimer false AtHead in
  @run env0 ls (StartSchedule dp0) = Some (s, [GoDump 11]) /\
  dumps [GoDump 11] ++ indexes s ++ storeC (dp s) = storeC dp0 ++ sent (applyId dp0) ls.
Proof.
  intros ls s.
  assert (Hrun : @run env0 ls (StartSchedule dp0) = Some (s, [GoDump 11]))
    by (vm_compute; reflexivity).
  split; [exact Hrun|].
  exact (@persistence_queue_is_fifo env0 dp0 ls s [GoDump 11] Hrun).
Defined.

End LoopFacts.

(** ** More on [StreamConn] *)
Module StreamMore.
Import Stream.

Lemma renderAll_app a b : renderAll (a ++ b) = renderAll a ++ renderAll b.
Proof. unfold renderAll. apply flat_map_app. Qed.

Lemma deliveredTo_app a b : deliveredTo (a ++ b) = deliveredTo a ++ deliveredTo b.
Proof. unfold deliveredTo. apply flat_map_app. Qed.

Lemma allBroken_app a b : allBroken (a ++ b) = allBroken a && allBroken b.
Proof. unfold allBroken. apply forallb_app. Qed.

Lemma delivered_renderAll bs : delivered (renderAll bs) = deliveredTo bs.
Proof.
  induction bs as [|[a|a br] bs IH]; [reflexivity|exact IH|]. cbn. now f_equal.
Qed.

Lemma bracketed_renderAll bs : bracketed (renderAll bs) = true.
Proof.
  induction bs as [|[a|a br] bs IH]; [reflexivity|exact IH|].
  change (renderAll (Delivered a br :: bs))
    with (EvGet a true :: EvDeliver a :: EvPut a br :: renderAll bs).
  cbn [bracketed]. now rewrite String.eqb_refl, IH.
Qed.

Lemma healthyPuts_renderAll bs : allBroken bs = true -> healthyPuts (renderAll bs) = [].
Proof.
  induction bs as [|[a|a [|]] bs IH]; intros H; [reflexivity| | |discriminate].
  - apply IH. exact H.
  - apply IH. exact H.
Qed.

Lemma healthyPuts_app a b : healthyPuts (a ++ b) = healthyPuts a ++ healthyPuts b.
Proof. unfold healthyPuts. apply flat_map_app. Qed.

Lemma poolCalls_renderAll bs : length (poolCalls (renderAll bs)) = length bs.
Proof.
  induction bs as [|[a|a br] bs IH]; [reflexivity| |]; cbn [length]; now rewrite <- IH.
Qed.

Lemma last_indep {A} (l : list A) : l <> [] -> forall d d', List.last l d = List.last l d'.
Proof.
  induction l as [|x l IH]; [congruence|]. intros _ d d'.
  destruct l as [|y l]; [reflexivity|].
  change (List.last (y :: l) d = List.last (y :: l) d'). apply IH. discriminate.
Qed.

Lemma last_app_default {A} (l1 l2 : list A) d :
  List.last (l1 ++ l2) d = List.last l2 (List.last l1 d).
Proof.
  induction l1 as [|x l1 IH]; [reflexivity|].
  destruct l1 as [|y l1].
  - destruct l2 as [|z l2]; [reflexivity|].
    change (List.last (z :: l2) d = List.last (z :: l2) x). apply last_indep. discriminate.
  - change (List.last ((y :: l1) ++ l2) d = List.last l2 (List.last (y :: l1) d)).
    exact IH.
Qed.

Lemma last_in_default {A} (l : list A) d (P : A -> Prop) :
  P d -> Forall P l -> P (List.last l d).
Proof.
  intros Hd Hl. induction Hl as [|x l Hx Hl IH]; [exact Hd|].
  destruct l; [exact Hx|exact IH].
Qed.

Section WithNet.
Context {W : Type} {N : Net W}.

Lemma tryHosts_pieces : forall hs sc w tr,
  exists bs,
    let '(sc', w', tr', e) := tryHosts hs sc w tr in
    tr' = tr ++ renderAll bs /\ pieces hs (length hs) sc sc' (renderAll bs) e bs.
Proof.
  induction hs as [|addr hs IH]; intros sc w tr; cbn [tryHosts].
  - exists []. cbn. rewrite app_nil_r. unfold pieces.
    repeat split; auto; try discriminate.
  - destruct (poolGet addr w) as [w1 [e1|]].
    + destruct (IH sc w1 (tr ++ [EvGet addr false])) as [bs Hbs].
      destruct (tryHosts hs sc w1 (tr ++ [EvGet addr false])) as [[[sc' w'] tr'] e].
      destruct Hbs as (-> & _ & Hh & Hp & Hk & Hl & Hc & Hok & Hko).
      exists (Refused addr :: bs). split; [now rewrite <- app_assoc|].
      unfold pieces. repeat split; auto.
      * constructor; [now left|]. eapply Forall_impl; [exact Hk|]. intros b Hb. now right.
      * cbn [length]. lia.
      * intros He. destruct (Hok He) as (bs0 & -> & Hb0).
        exists (Refused addr :: bs0). split; [reflexivity|exact Hb0].
    + destruct (sendToConn addr w1) as [w2 [er|]].
      * destruct (isNotLeader er).
        -- destruct (IH (set_currAddr addr sc) w2
                       (tr ++ [EvGet addr true; EvDeliver addr; EvPut addr true])) as [bs Hbs].
           destruct (tryHosts hs (set_currAddr addr sc) w2 _) as [[[sc' w'] tr'] e].
           destruct Hbs as (-> & _ & Hh & Hp & Hk & Hl & Hc & Hok & Hko).
           exists (Delivered addr true :: bs). split; [now rewrite <- app_assoc|].
           unfold pieces. repeat split; auto.
           ++ constructor; [now left|]. eapply Forall_impl; [exact Hk|]. intros b Hb. now right.
           ++ cbn [length]. lia.
           ++ rewrite Hc. change (deliveredTo (Delivered addr true :: bs))
                with ([addr] ++ deliveredTo bs).
              rewrite last_app_default. reflexivity.
           ++ intros He. destruct (Hok He) as (bs0 & -> & Hb0).
              exists (Delivered addr true :: bs0). split; [reflexivity|exact Hb0].
        -- exists [Delivered addr true]. split; [reflexivity|].
           unfold pieces. repeat split; auto; try discriminate.
           ++ constructor; [now left|constructor].
           ++ cbn [length]. lia.
      * exists [Delivered addr false]. split; [reflexivity|].
        unfold pieces. repeat split; auto; try congruence.
        -- constructor; [now left|constructor].
        -- cbn [length]. lia.
        -- intros _. exists []. split; reflexivity.
Qed.

Lemma pieces_weaken known known' bound bound' sc sc' tr e bs :
  pieces known bound sc sc' tr e bs ->
  (forall a, In a known -> In a known') -> (bound <= bound')%nat ->
  pieces known' bound' sc sc' tr e bs.
Proof.
  intros (H1 & H2 & H3 & H4 & H5 & H6 & H7 & H8) Hk Hb.
  unfold pieces. repeat split; auto; [|lia].
  eapply Forall_impl; [exact H4|]. intros b. apply Hk.
Qed.

Lemma sendToPartition_pieces sc w :
  exists bs,
    let '(sc', w', tr, e) := sendToPartition sc w in
    pieces (currAddr sc :: hosts sc) (1 + length (hosts sc)) sc sc' tr e bs.
Proof.
  unfold sendToPartition.
  destruct (poolGet (currAddr sc) w) as [w1 [e1|]].
  - destruct (tryHosts_pieces (hosts sc) sc w1 [EvGet (currAddr sc) false]) as [bs Hbs].
    destruct (tryHosts (hosts sc) sc w1 _) as [[[sc' w'] tr'] e].
    destruct Hbs as (-> & _ & Hh & Hp & Hk & Hl & Hc & Hok & Hko).
    exists (Refused (currAddr sc) :: bs). unfold pieces. repeat split; auto.
    + constructor; [now left|]. eapply Forall_impl; [exact Hk|]. intros b Hb. now right.
    + cbn [length]. lia.
    + intros He. destruct (Hok He) as (bs0 & -> & Hb0).
      exists (Refused (currAddr sc) :: bs0). split; [reflexivity|exact Hb0].
  - destruct (sendToConn (currAddr sc) w1) as [w2 [er|]].
    + destruct (isNotLeader er).
      * destruct (tryHosts_pieces (hosts sc) sc w2
                    [EvGet (currAddr sc) true; EvDeliver (currAddr sc); EvPut (currAddr sc) true])
          as [bs Hbs].
        destruct (tryHosts (hosts sc) sc w2 _) as [[[sc' w'] tr'] e].
        destruct Hbs as (-> & _ & Hh & Hp & Hk & Hl & Hc & Hok & Hko).
        exists (Delivered (currAddr sc) true :: bs). unfold pieces. repeat split; auto.
        -- constructor; [now left|]. eapply Forall_impl; [exact Hk|]. intros b Hb. now right.
        -- cbn [length]. lia.
        -- rewrite Hc. change (deliveredTo (Delivered (currAddr sc) true :: bs))
             with ([currAddr sc] ++ deliveredTo bs).
           rewrite last_app_default. reflexivity.
        -- intros He. destruct (Hok He) as (bs0 & -> & Hb0).
           exists (Delivered (currAddr sc) true :: bs0). split; [reflexivity|exact Hb0].
      * exists [Delivered (currAddr sc) true]. unfold pieces.
        repeat split; auto; try discriminate.
        -- constructor; [now left|constructor].
        -- cbn [length]. lia.
    + exists [Delivered (currAddr sc) false]. unfold pieces.
      repeat split; auto; try congruence.
      * constructor; [now left|constructor].
      * cbn [length]. lia.
      * intros _. exists []. split; reflexivity.
Qed.

Lemma pieces_known known bound sc sc' tr e bs :
  pieces known bound sc sc' tr e bs -> In (currAddr sc) known -> In (currAddr sc') known.
Proof.
  intros (_ & _ & _ & Hk & _ & Hc & _) Hin. rewrite Hc.
  apply (last_in_default _ _ (fun a => In a known)); [exact Hin|].
  clear -Hk. induction Hk as [|[a|a br] bs Hb Hk IH]; cbn; auto.
Qed.

Lemma SendLoop_pieces : forall n sc w tr0,
  exists bs,
    let '(sc', w', tr, e) := SendLoop n sc w tr0 in
    tr = tr0 ++ renderAll bs /\
    hosts sc' = hosts sc /\ partition sc' = partition sc /\
    Forall (fun b => In (blockAddr b) (currAddr sc :: hosts sc)) bs /\
    (length bs <= n * (1 + length (hosts sc)))%nat /\
    currAddr sc' = List.last (deliveredTo bs) (currAddr sc) /\
    (e = None ->
       exists bs0, bs = bs0 ++ [Delivered (currAddr sc') false] /\ allBroken bs0 = true) /\
    (e <> None -> allBroken bs = true).
Proof.
  induction n as [|n IH]; intros sc w tr0.
  - exists []. cbn. rewrite app_nil_r. repeat split; auto. discriminate.
  - rewrite StreamFacts.SendLoop_step.
    destruct (sendToPartition_pieces sc w) as [bs1 H1].
    destruct (sendToPartition sc w) as [[[sc1 w1] tr1] e1].
    pose proof (pieces_known _ _ _ _ _ _ _ H1 (or_introl eq_refl)) as Hcur.
    destruct H1 as (-> & Hh1 & Hp1 & Hk1 & Hl1 & Hc1 & Hok1 & Hko1).
    destruct e1 as [e1|].
    + destruct (IH sc1 w1 (tr0 ++ renderAll bs1)) as [bs2 H2].
      destruct (SendLoop n sc1 w1 _) as [[[sc' w'] tr] e].
      destruct H2 as (-> & Hh2 & Hp2 & Hk2 & Hl2 & Hc2 & Hok2 & Hko2).
      exists (bs1 ++ bs2). rewrite renderAll_app, app_assoc.
      split; [reflexivity|]. split; [congruence|]. split; [congruence|]. split.
      { apply Forall_app. split; [exact Hk1|].
        eapply Forall_impl; [exact Hk2|]. intros b [Hb|Hb].
        - rewrite <- Hb. exact Hcur.
        - right. now rewrite <- Hh1. }
      split. { rewrite length_app, Hh1 in *. cbn [Nat.mul]. lia. }
      split. { rewrite deliveredTo_app, last_app_default, <- Hc1. exact Hc2. }
      split.
      * intros He. destruct (Hok2 He) as (bs0 & -> & Hb0).
        exists (bs1 ++ bs0). split; [now rewrite app_assoc|].
        rewrite allBroken_app, Hb0, Hko1 by discriminate. reflexivity.
      * intros He. rewrite allBroken_app, (Hko1 ltac:(discriminate)), (Hko2 He). reflexivity.
    + exists bs1. split; [reflexivity|].
      repeat split; auto. cbn [Nat.mul]. lia.
Qed.

(** X19.  After [Send], however it ends: the partition id and the host
    list are unchanged; the cached address is the address of the last
    delivery of the call, or unchanged when the call delivered nothing; and
    every delivery went to the address cached at the start or to a host of
    the host list. *)
Theorem Send_caches_last_delivery (sc : StreamConn) (w : W) :
  let '(sc', w', tr, e) := Send sc w in
  hosts sc' = hosts sc /\ partition sc' = partition sc /\
  currAddr sc' = List.last (delivered tr) (currAddr sc) /\
  Forall (fun a => In a (currAddr sc :: hosts sc)) (delivered tr).
Proof.
  unfold Send. destruct (SendLoop_pieces StreamSendMaxRetry sc w []) as [bs H].
  destruct (SendLoop StreamSendMaxRetry sc w []) as [[[sc' w'] tr] e].
  destruct H as (-> & Hh & Hp & Hk & _ & Hc & _). cbn [app].
  rewrite delivered_renderAll. repeat split; auto.
  clear -Hk. induction Hk as [|[a|a br] bs Hb Hk IH]; cbn; auto.
Qed.

(** X20.  Every connection [Send] obtains from the pool is delivered on
    once and put back at once, under its own address.  When [Send] returns
    no error, the last event of the call is the connection of the cached
    address going back as healthy, and every connection put back before was
    marked broken; when [Send] fails, every connection it used went back
    marked broken. *)
Theorem Send_returns_connections (sc : StreamConn) (w : W) :
  let '(sc', w', tr, e) := Send sc w in
  bracketed tr = true /\
  (e = None ->
     exists tr0, tr = tr0 ++ [EvPut (currAddr sc') false] /\ healthyPuts tr0 = [] /\
                 healthyPuts tr = [currAddr sc']) /\
  (e <> None -> healthyPuts tr = []).
Proof.
  unfold Send. destruct (SendLoop_pieces StreamSendMaxRetry sc w []) as [bs H].
  destruct (SendLoop StreamSendMaxRetry sc w []) as [[[sc' w'] tr] e].
  destruct H as (-> & _ & _ & _ & _ & _ & Hok & Hko). cbn [app].
  split; [apply bracketed_renderAll|]. split.
  - intros He. destruct (Hok He) as (bs0 & -> & Hb0).
    exists (renderAll bs0 ++ [EvGet (currAddr sc') true; EvDeliver (currAddr sc')]).
    rewrite renderAll_app, !healthyPuts_app, healthyPuts_renderAll by assumption.
    rewrite <- app_assoc. repeat split; reflexivity.
  - intros He. apply healthyPuts_renderAll. auto.
Qed.

(** X21.  [Send] is bounded: it calls the pool at most
    [StreamSendMaxRetry * (1 + len(hosts))] times, and delivers the request
    at most as often. *)
Theorem Send_is_bounded (sc : StreamConn) (w : W) :
  let '(sc', w', tr, e) := Send sc w in
  (length (poolCalls tr) <= StreamSendMaxRetry * (1 + length (hosts sc)))%nat /\
  (length (delivered tr) <= StreamSendMaxRetry * (1 + length (hosts sc)))%nat.
Proof.
  unfold Send. destruct (SendLoop_pieces StreamSendMaxRetry sc w []) as [bs H].
  destruct (SendLoop StreamSendMaxRetry sc w []) as [[[sc' w'] tr] e].
  destruct H as (-> & _ & _ & _ & Hl & _). cbn [app].
  rewrite poolCalls_renderAll, delivered_renderAll. split; [exact Hl|].
  eapply Nat.le_trans; [|exact Hl].
  clear. induction bs as [|[a|a br] bs IH]; [reflexivity| |].
  - change (deliveredTo (Refused a :: bs)) with (deliveredTo bs). cbn [length]. lia.
  - change (deliveredTo (Delivered a br :: bs)) with (a :: deliveredTo bs). cbn [length]. lia.
Qed.

(** [sendToConn] on the counting world. *)
Lemma sendToConnLoop_counted : forall n conn err w c,
  let '((w', c'), e) := @sendToConnLoop _ (counting N) n conn err (w, c) in
  sendToConnLoop n conn err w = (w', e) /\
  gets c' = gets c /\
  (writes c <= writes c' <= writes c + n)%nat /\
  (reads c' - reads c <= writes c' - writes c <= reads c' - reads c + 1)%nat /\
  (reads c <= reads c')%nat /\
  (n <> 0%nat -> writes c < writes c')%nat.
Proof.
  induction n as [|n IH]; intros conn err w c.
  - cbn. repeat split; auto; lia.
  - cbn [sendToConnLoop]. cbn [writeToConn getReply counting fst snd].
    destruct (@writeToConn W N conn w) as [w1 [e1|]].
    + cbn. repeat split; auto; try lia.
    + cbn [getReply counting fst snd gets writes reads].
      destruct (@getReply W N conn w1) as [w2 [e2 again]].
      destruct again.
      * specialize (IH conn e2 w2 (mkCalls (gets c) (S (writes c)) (S (reads c)))).
        destruct (@sendToConnLoop _ (counting N) n conn e2 _) as [[w' c'] e].
        destruct IH as (-> & Hg & Hw & Hr & Hr' & _).
        cbn [gets writes reads] in *.
        split; [reflexivity|]. split; [exact Hg|]. split; [lia|]. split; [lia|].
        split; [lia|]. intros _. lia.
      * cbn [gets writes reads].
        split; [reflexivity|]. split; [reflexivity|]. split; [lia|]. split; [lia|].
        split; [lia|]. intros _. lia.
Qed.

(** X22.  One [sendToConn] writes the request at least once and at most
    [StreamSendMaxRetry] times, reads a reply after every write but
    possibly the last, and never calls the pool; a failed write ends it at
    once with that error, no reply being read for it. *)
Theorem sendToConn_is_bounded (conn : string) (w : W) (c : calls) :
  let '((w', c'), e) := @sendToConn _ (counting N) conn (w, c) in
  sendToConn conn w = (w', e) /\
  gets c' = gets c /\
  (writes c < writes c' <= writes c + StreamSendMaxRetry)%nat /\
  (reads c' - reads c <= writes c' - writes c <= reads c' - reads c + 1)%nat /\
  (forall w1 e1, writeToConn conn w = (w1, Some e1) ->
     e = Some e1 /\ w' = w1 /\ writes c' = S (writes c) /\ reads c' = reads c).
Proof.
  unfold sendToConn.
  pose proof (sendToConnLoop_counted StreamSendMaxRetry conn None w c) as H.
  destruct (@sendToConnLoop _ (counting N) StreamSendMaxRetry conn None (w, c))
    as [[w' c'] e] eqn:Hrun.
  destruct H as (Hsame & Hg & Hw & Hr & _ & Hpos).
  split; [exact Hsame|]. split; [exact Hg|].
  split; [split; [apply Hpos; discriminate|lia]|]. split; [exact Hr|].
  intros w1 e1 Hwr. change StreamSendMaxRetry with (S 99) in Hrun.
  cbn [sendToConnLoop] in Hrun. cbn [writeToConn counting fst snd] in Hrun.
  rewrite Hwr in Hrun. injection Hrun as <- <- <-. cbn. auto.
Qed.

End WithNet.

End StreamMore.

(** ** More on [ExtentKey] *)
Module ProtoMore.
Import Proto Fmt FmtFacts.

(** Bit [i] of a byte put at offset [k]. *)
Lemma lane_bit b k i :
  0 <= b < 256 -> 0 <= k -> 0 <= i ->
  Z.testbit (Z.shiftl b k) i = (k <=? i) && (i <? k + 8) && Z.testbit b (i - k).
Proof.
  intros Hb Hk Hi. rewrite Z.shiftl_spec by lia.
  destruct (Z.leb_spec k i) as [Hle|Hgt]; cbn [andb].
  - destruct (Z.ltb_spec i (k + 8)) as [Hlt|Hge]; cbn [andb]; [reflexivity|].
    apply (high_bits_zero b 8); [exact Hb|lia].
  - apply Z.testbit_neg_r. lia.
Qed.

Lemma byte_bit v k i :
  0 <= k -> 0 <= i -> Z.testbit (byte_of (Z.shiftr v k)) i = (i <? 8) && Z.testbit v (i + k).
Proof.
  intros Hk Hi. unfold byte_of.
  rewrite Z.land_spec, Z.shiftr_spec, testbit_255 by lia. apply andb_comm.
Qed.

(** The bits of a value assembled from bytes, lane by lane. *)
Lemma Uint64_bits b0 b1 b2 b3 b4 b5 b6 b7 v i :
  0 <= b0 < 256 -> 0 <= b1 < 256 -> 0 <= b2 < 256 -> 0 <= b3 < 256 ->
  0 <= b4 < 256 -> 0 <= b5 < 256 -> 0 <= b6 < 256 -> 0 <= b7 < 256 ->
  Uint64 [b0; b1; b2; b3; b4; b5; b6; b7] = Some v -> 0 <= i ->
  Z.testbit v i =
    (0 <=? i) && (i <? 0 + 8) && Z.testbit b7 (i - 0) ||
    (8 <=? i) && (i <? 8 + 8) && Z.testbit b6 (i - 8) ||
    (16 <=? i) && (i <? 16 + 8) && Z.testbit b5 (i - 16) ||
    (24 <=? i) && (i <? 24 + 8) && Z.testbit b4 (i - 24) ||
    (32 <=? i) && (i <? 32 + 8) && Z.testbit b3 (i - 32) ||
    (40 <=? i) && (i <? 40 + 8) && Z.testbit b2 (i - 40) ||
    (48 <=? i) && (i <? 48 + 8) && Z.testbit b1 (i - 48) ||
    (56 <=? i) && (i <? 56 + 8) && Z.testbit b0 (i - 56).
Proof.
  intros H0 H1 H2 H3 H4 H5 H6 H7 Hv Hi. cbn in Hv. injection Hv as <-.
  rewrite !Z.lor_spec. rewrite <- (Z.shiftl_0_r b7) at 1.
  rewrite !lane_bit by (assumption || lia). reflexivity.
Qed.

Lemma Uint32_bits b0 b1 b2 b3 v i :
  0 <= b0 < 256 -> 0 <= b1 < 256 -> 0 <= b2 < 256 -> 0 <= b3 < 256 ->
  Uint32 [b0; b1; b2; b3] = Some v -> 0 <= i ->
  Z.testbit v i =
    (0 <=? i) && (i <? 0 + 8) && Z.testbit b3 (i - 0) ||
    (8 <=? i) && (i <? 8 + 8) && Z.testbit b2 (i - 8) ||
    (16 <=? i) && (i <? 16 + 8) && Z.testbit b1 (i - 16) ||
    (24 <=? i) && (i <? 24 + 8) && Z.testbit b0 (i - 24).
Proof.
  intros H0 H1 H2 H3 Hv Hi. cbn in Hv. injection Hv as <-.
  rewrite !Z.lor_spec. rewrite <- (Z.shiftl_0_r b3) at 1.
  rewrite !lane_bit by (assumption || lia). reflexivity.
Qed.

(** Decides the lane tests of the goal on the index [j]. *)
Ltac lane_pick j :=
  repeat match goal with
  | |- context [Z.leb ?a j] =>
      first [ replace (Z.leb a j) with true by (symmetry; apply Z.leb_le; lia)
            | replace (Z.leb a j) with false by (symmetry; apply Z.leb_gt; lia) ]
  | |- context [Z.ltb j ?a] =>
      first [ replace (Z.ltb j a) with true by (symmetry; apply Z.ltb_lt; lia)
            | replace (Z.ltb j a) with false by (symmetry; apply Z.ltb_ge; lia) ]
  end;
  cbn [andb orb]; rewrite ?orb_false_r; try reflexivity; try (f_equal; lia).

(** One byte of the value, taken back out. *)
Lemma byte_of_lane v b k :
  0 <= b < 256 -> 0 <= k ->
  (forall i, 0 <= i < 8 -> Z.testbit v (i + k) = Z.testbit b i) ->
  byte_of (Z.shiftr v k) = b.
Proof.
  intros Hb Hk Hbits. apply Z.bits_inj'. intros i Hi. rewrite byte_bit by lia.
  destruct (Z.ltb_spec i 8) as [Hlt|Hge]; cbn [andb].
  - apply Hbits. lia.
  - symmetry. apply (high_bits_zero b 8); [exact Hb|lia].
Qed.

Lemma below_pow2 v n :
  0 <= n -> 0 <= v -> (forall i, n <= i -> Z.testbit v i = false) -> v < 2 ^ n.
Proof.
  intros Hn Hv Hbits.
  assert (E : Z.land v (Z.ones n) = v).
  { apply Z.bits_inj'. intros i Hi. rewrite Z.land_spec.
    destruct (Z.lt_ge_cases i n) as [Hlt|Hge].
    - rewrite Z.ones_spec_low by lia. apply andb_true_r.
    - rewrite (Hbits i Hge). reflexivity. }
  rewrite Z.land_ones in E by lia. rewrite <- E. apply Z.mod_pos_bound.
  apply Z.pow_pos_nonneg; lia.
Qed.

Lemma Uint64_nonneg b0 b1 b2 b3 b4 b5 b6 b7 v :
  0 <= b0 -> 0 <= b1 -> 0 <= b2 -> 0 <= b3 -> 0 <= b4 -> 0 <= b5 -> 0 <= b6 -> 0 <= b7 ->
  Uint64 [b0; b1; b2; b3; b4; b5; b6; b7] = Some v -> 0 <= v.
Proof.
  intros. cbn in *. simplify_eq.
  repeat (apply Z.lor_nonneg; split); try apply Z.shiftl_nonneg; assumption.
Qed.

Lemma Uint32_nonneg b0 b1 b2 b3 v :
  0 <= b0 -> 0 <= b1 -> 0 <= b2 -> 0 <= b3 ->
  Uint32 [b0; b1; b2; b3] = Some v -> 0 <= v.
Proof.
  intros. cbn in *. simplify_eq.
  repeat (apply Z.lor_nonneg; split); try apply Z.shiftl_nonneg; assumption.
Qed.

(** Eight bytes always decode, to a 64-bit value whose encoding they
    are. *)
Lemma PutUint64_Uint64 b0 b1 b2 b3 b4 b5 b6 b7 :
  0 <= b0 < 256 -> 0 <= b1 < 256 -> 0 <= b2 < 256 -> 0 <= b3 < 256 ->
  0 <= b4 < 256 -> 0 <= b5 < 256 -> 0 <= b6 < 256 -> 0 <= b7 < 256 ->
  exists v, Uint64 [b0; b1; b2; b3; b4; b5; b6; b7] = Some v /\
            0 <= v < 2 ^ 64 /\ PutUint64 v = [b0; b1; b2; b3; b4; b5; b6; b7].
Proof.
  intros H0 H1 H2 H3 H4 H5 H6 H7.
  destruct (Uint64 [b0; b1; b2; b3; b4; b5; b6; b7]) as [v|] eqn:Hv; [|discriminate].
  pose proof (Uint64_bits b0 b1 b2 b3 b4 b5 b6 b7 v) as Hbits.
  specialize (fun i => Hbits i H0 H1 H2 H3 H4 H5 H6 H7 Hv).
  exists v. split; [reflexivity|]. split; [split|].
  - eapply Uint64_nonneg; [..|exact Hv]; lia.
  - apply below_pow2; [lia|eapply Uint64_nonneg; [..|exact Hv]; lia|].
    intros i Hi. rewrite Hbits by lia. lane_pick i.
  - unfold PutUint64. change (byte_of v) with (byte_of (Z.shiftr v 0)).
    repeat f_equal; (apply byte_of_lane; [assumption|lia|]);
      intros i Hi; rewrite Hbits by lia;
      match goal with |- context [Z.leb 0 ?j] => lane_pick j end.
Qed.

Lemma PutUint32_Uint32 b0 b1 b2 b3 :
  0 <= b0 < 256 -> 0 <= b1 < 256 -> 0 <= b2 < 256 -> 0 <= b3 < 256 ->
  exists v, Uint32 [b0; b1; b2; b3] = Some v /\
            0 <= v < 2 ^ 32 /\ PutUint32 v = [b0; b1; b2; b3].
Proof.
  intros H0 H1 H2 H3.
  destruct (Uint32 [b0; b1; b2; b3]) as [v|] eqn:Hv; [|discriminate].
  pose proof (Uint32_bits b0 b1 b2 b3 v) as Hbits.
  specialize (fun i => Hbits i H0 H1 H2 H3 Hv).
  exists v. split; [reflexivity|]. split; [split|].
  - eapply Uint32_nonneg; [..|exact Hv]; lia.
  - apply below_pow2; [lia|eapply Uint32_nonneg; [..|exact Hv]; lia|].
    intros i Hi. rewrite Hbits by lia. lane_pick i.
  - unfold PutUint32. change (byte_of v) with (byte_of (Z.shiftr v 0)).
    repeat f_equal; (apply byte_of_lane; [assumption|lia|]);
      intros i Hi; rewrite Hbits by lia;
      match goal with |- context [Z.leb 0 ?j] => lane_pick j end.
Qed.

Lemma decode64 (x : list Z) :
  length x = 8%nat -> isBytes x ->
  exists v, Uint64 x = Some v /\ 0 <= v < 2 ^ 64 /\ PutUint64 v = x.
Proof.
  intros Hlen Hx.
  do 8 (destruct x as [|? x]; [discriminate|]). destruct x; [|discriminate].
  unfold isBytes in Hx.
  repeat match goal with
         | H : Forall _ (_ :: _) |- _ => apply Forall_cons_iff in H as [? H]
         end.
  now apply PutUint64_Uint64.
Qed.

Lemma decode32 (x : list Z) :
  length x = 4%nat -> isBytes x ->
  exists v, Uint32 x = Some v /\ 0 <= v < 2 ^ 32 /\ PutUint32 v = x.
Proof.
  intros Hlen Hx.
  do 4 (destruct x as [|? x]; [discriminate|]). destruct x; [|discriminate].
  unfold isBytes in Hx.
  repeat match goal with
         | H : Forall _ (_ :: _) |- _ => apply Forall_cons_iff in H as [? H]
         end.
  now apply PutUint32_Uint32.
Qed.

(** A read of [n] bytes from a buffer that starts with them. *)
Lemma readField_app n dec set k x rest :
  length x = n -> n <> 0%nat ->
  readField n dec set (k, x ++ rest) =
  match dec x with
  | Some v => ((set v k, rest), None)
  | None => ((k, rest), Some ErrUnexpectedEOF)
  end.
Proof.
  intros Hlen Hn. unfold readField, readFull.
  destruct (x ++ rest) as [|b t] eqn:E.
  - apply app_eq_nil in E as [-> _]. cbn in Hlen. congruence.
  - rewrite <- E.
    replace (length (x ++ rest) <? n)%nat with false
      by (symmetry; apply Nat.ltb_ge; rewrite length_app; lia).
    rewrite take_app_length', drop_app_length' by congruence. reflexivity.
Qed.

(** The first [n] bytes of a buffer that has them. *)
Lemma split_field n (buf : list Z) :
  (n <= length buf)%nat -> isBytes buf ->
  exists x r, buf = x ++ r /\ length x = n /\ isBytes x /\ isBytes r /\
              length r = (length buf - n)%nat.
Proof.
  intros Hlen Hb. exists (take n buf), (drop n buf).
  split; [symmetry; apply take_drop|]. split; [rewrite length_take; lia|].
  split; [now apply Forall_take|]. split; [now apply Forall_drop|].
  apply length_drop.
Qed.

(** X23.  [UnmarshalBinary] accepts every buffer of at least 28 bytes,
    whatever the bytes are: it returns no error, consumes exactly the first
    28 bytes, leaves a key whose five fields are in the ranges of their
    types, and [MarshalBinary] of that key gives those 28 bytes back. *)
Theorem UnmarshalBinary_accepts_any_bytes (k : ExtentKey) (buf : list Z) :
  isBytes buf -> (28 <= length buf)%nat ->
  exists k', UnmarshalBinary k buf = ((k', drop 28 buf), None) /\
             in_range k' /\ MarshalBinary k' = (take 28 buf, None).
Proof.
  intros Hb Hlen.
  destruct (split_field 8 buf) as (x1 & r1 & -> & L1 & B1 & Hr1 & Lr1); [lia|exact Hb|].
  destruct (split_field 4 r1) as (x2 & r2 & -> & L2 & B2 & Hr2 & Lr2); [lia|exact Hr1|].
  destruct (split_field 8 r2) as (x3 & r3 & -> & L3 & B3 & Hr3 & Lr3); [lia|exact Hr2|].
  destruct (split_field 4 r3) as (x4 & r4 & -> & L4 & B4 & Hr4 & Lr4); [lia|exact Hr3|].
  destruct (split_field 4 r4) as (x5 & r5 & -> & L5 & B5 & Hr5 & Lr5); [lia|exact Hr4|].
  destruct (decode64 x1 L1 B1) as (v1 & D1 & R1 & P1).
  destruct (decode32 x2 L2 B2) as (v2 & D2 & R2 & P2).
  destruct (decode64 x3 L3 B3) as (v3 & D3 & R3 & P3).
  destruct (decode32 x4 L4 B4) as (v4 & D4 & R4 & P4).
  destruct (decode32 x5 L5 B5) as (v5 & D5 & R5 & P5).
  exists (mkExtentKey v1 v2 v3 v4 v5).
  assert (E : x1 ++ x2 ++ x3 ++ x4 ++ x5 ++ r5 = (x1 ++ x2 ++ x3 ++ x4 ++ x5) ++ r5)
    by now rewrite <- !app_assoc.
  assert (L : length (x1 ++ x2 ++ x3 ++ x4 ++ x5) = 28%nat)
    by (rewrite !length_app; lia).
  split; [|split].
  - unfold UnmarshalBinary, andThen.
    rewrite readField_app, D1 by (try exact L1; lia).
    rewrite readField_app, D2 by (try exact L2; lia).
    rewrite readField_app, D3 by (try exact L3; lia).
    rewrite readField_app, D4 by (try exact L4; lia).
    rewrite readField_app, D5 by (try exact L5; lia).
    rewrite E, drop_app_length' by (symmetry; exact L). reflexivity.
  - unfold in_range. cbn [FileOffset PartitionId ExtentId Size Crc]. tauto.
  - unfold MarshalBinary. cbn [FileOffset PartitionId ExtentId Size Crc].
    rewrite P1, P2, P3, P4, P5, E, take_app_length' by (symmetry; exact L). reflexivity.
Qed.

Lemma UnmarshalBinary_accepts_any_bytes_witness :
  exists k', UnmarshalBinary key0 (fst (MarshalBinary key1) ++ [255; 0]) =
               ((k', drop 28 (fst (MarshalBinary key1) ++ [255; 0])), None) /\
             in_range k' /\
             MarshalBinary k' = (take 28 (fst (MarshalBinary key1) ++ [255; 0]), None).
Proof.
  apply UnmarshalBinary_accepts_any_bytes.
  - unfold isBytes. vm_compute. repeat constructor; discriminate.
  - vm_compute. lia.
Defined.

(** X24.  On a buffer of fewer than 28 bytes [UnmarshalBinary] fails and
    leaves the buffer empty: with [io.EOF] when the bytes end between two
    fields (0, 8, 12, 20 or 24 bytes), with [io.ErrUnexpectedEOF] when they
    end inside a field.  The fields read before the failure are already
    stored: [FileOffset] keeps the receiver's value only when fewer than 8
    bytes were there, while [Crc], the last field, always keeps it. *)
Theorem UnmarshalBinary_short_buffer (k : ExtentKey) (buf : list Z) :
  (length buf < 28)%nat ->
  let '((k', rest), err) := UnmarshalBinary k buf in
  rest = [] /\
  err = Some (if atFieldBoundary (length buf) then EOF else ErrUnexpectedEOF) /\
  Crc k' = Crc k /\
  ((length buf < 8)%nat -> k' = k) /\
  ((8 <= length buf)%nat -> Uint64 (take 8 buf) = Some (FileOffset k')).
Proof.
  intros Hlen.
  do 28 (destruct buf as [|? buf];
         [cbn; repeat split; try reflexivity; cbn; intros; try lia; destruct k; reflexivity|]).
  cbn in Hlen. lia.
Qed.

Lemma UnmarshalBinary_short_buffer_witness :
  let '((k', rest), err) := UnmarshalBinary key0 (PutUint64 4096 ++ [1; 2]%Z) in
  rest = [] /\
  err = Some (if atFieldBoundary (length (PutUint64 4096 ++ [1; 2]%Z))
              then EOF else ErrUnexpectedEOF) /\
  Crc k' = Crc key0 /\
  ((length (PutUint64 4096 ++ [1; 2]%Z) < 8)%nat -> k' = key0) /\
  ((8 <= length (PutUint64 4096 ++ [1; 2]%Z))%nat ->
   Uint64 (take 8 (PutUint64 4096 ++ [1; 2]%Z)) = Some (FileOffset k')).
Proof.
  apply (UnmarshalBinary_short_buffer key0 (PutUint64 4096 ++ [1; 2]%Z)).
  vm_compute. lia.
Defined.

(** Decimal printing of a 64-bit value loses nothing. *)
Lemma FormatUint_inj a b :
  0 <= a < 2 ^ 64 -> 0 <= b < 2 ^ 64 -> FormatUint a = FormatUint b -> a = b.
Proof.
  intros Ha Hb E.
  assert (Hfa : 0 <= a < 10 ^ Z.of_nat 20)
    by (change (10 ^ Z.of_nat 20) with 100000000000000000000; lia).
  assert (Hfb : 0 <= b < 10 ^ Z.of_nat 20)
    by (change (10 ^ Z.of_nat 20) with 100000000000000000000; lia).
  pose proof (parseDigits_fmtDigits 20 a Hfa) as Pa.
  pose proof (parseDigits_fmtDigits 20 b Hfb) as Pb.
  unfold FormatUint in E. rewrite E in Pa. congruence.
Qed.

(** X25.  The map key of an extent key identifies exactly the keys that
    the ordering does not tell apart: for file offsets in the range of
    uint64, two keys have the same [GetExtentKey] string if and only if
    neither is [Less] than the other, whatever their other fields. *)
Theorem GetExtentKey_matches_Less (a b : ExtentKey) :
  0 <= FileOffset a < 2 ^ 64 -> 0 <= FileOffset b < 2 ^ 64 ->
  (GetExtentKey a = GetExtentKey b <-> Less a b = false /\ Less b a = false).
Proof.
  intros Ha Hb. unfold GetExtentKey, Less. split.
  - intros E. apply FormatUint_inj in E; [|assumption..]. rewrite E.
    split; apply Z.ltb_irrefl.
  - intros [H1 H2]. apply Z.ltb_ge in H1, H2. f_equal. lia.
Qed.

Lemma GetExtentKey_matches_Less_witness :
  GetExtentKey key1 = GetExtentKey (set_Crc 9 key1) <->
  Less key1 (set_Crc 9 key1) = false /\ Less (set_Crc 9 key1) key1 = false.
Proof.
  apply (GetExtentKey_matches_Less key1 (set_Crc 9 key1)); vm_compute; split; congruence.
Defined.

(** Two runs of decimal digits, each followed by the separator, are
    told apart by what they are. *)
Lemma split_at_sep s1 : forall s2 r1 r2,
  allIn 10 s1 = true -> allIn 10 s2 = true ->
  s1 +:+ String "_" r1 = s2 +:+ String "_" r2 -> s1 = s2 /\ r1 = r2.
Proof.
  induction s1 as [|c s1 IH]; intros [|c2 s2] r1 r2 H1 H2 E;
    rewrite ?append_nil, ?append_cons in E.
  - split; congruence.
  - assert (c2 = "_"%char) by congruence. subst c2. simpl in H2. discriminate.
  - assert (c = "_"%char) by congruence. subst c. simpl in H1. discriminate.
  - assert (c = c2) by congruence. subst c2.
    assert (E' : s1 +:+ String "_" r1 = s2 +:+ String "_" r2) by congruence.
    simpl in H1, H2.
    apply andb_true_iff in H1 as [_ H1]. apply andb_true_iff in H2 as [_ H2].
    destruct (IH s2 r1 r2 H1 H2 E') as [-> ->]. now split.
Qed.

Lemma FormatUint_allIn v : 0 <= v -> allIn 10 (FormatUint v) = true.
Proof. intros Hv. now apply fmtDigits_allIn. Qed.

Lemma Marshal_inj a b : in_range a -> in_range b -> Marshal a = Marshal b -> a = b.
Proof.
  intros (A1 & A2 & A3 & A4 & A5) (B1 & B2 & B3 & B4 & B5) E.
  destruct a as [fo pid eid sz crc], b as [fo' pid' eid' sz' crc'].
  cbn [FileOffset PartitionId ExtentId Size Crc] in *. unfold Marshal in E.
  cbn [FileOffset PartitionId ExtentId Size Crc] in E.
  repeat match type of E with
         | _ +:+ "_" +:+ _ = _ +:+ "_" +:+ _ =>
             rewrite !(append_cons "_"), !append_nil in E
         end.
  apply split_at_sep in E as [E1 E]; [|apply FormatUint_allIn; lia..].
  apply split_at_sep in E as [E2 E]; [|apply FormatUint_allIn; lia..].
  apply split_at_sep in E as [E3 E]; [|apply FormatUint_allIn; lia..].
  apply split_at_sep in E as [E4 E5]; [|apply FormatUint_allIn; lia..].
  apply FormatUint_inj in E1, E2, E3, E4, E5; try lia. now subst.
Qed.

(** X26.  Neither encoding confuses two keys: extent keys whose fields
    are in the ranges of their types and that have the same binary form, or
    the same text form, are equal. *)
Theorem encodings_are_injective (a b : ExtentKey) :
  in_range a -> in_range b ->
  (fst (MarshalBinary a) = fst (MarshalBinary b) -> a = b) /\
  (Marshal a = Marshal b -> a = b).
Proof.
  intros Ha Hb. split; intros E.
  - pose proof (ProtoFacts.UnmarshalBinary_MarshalBinary a key0 [] Ha) as Da.
    pose proof (ProtoFacts.UnmarshalBinary_MarshalBinary b key0 [] Hb) as Db.
    rewrite E in Da. congruence.
  - now apply Marshal_inj.
Qed.

Lemma encodings_are_injective_witness :
  (fst (MarshalBinary key1) = fst (MarshalBinary key0) -> key1 = key0) /\
  (Marshal key1 = Marshal key0 -> key1 = key0).
Proof.
  apply (encodings_are_injective key1 key0); unfold in_range; vm_compute;
    repeat split; congruence.
Defined.

(** [%v] reads a single printed number to the end of the input. *)
Lemma scanUint_v_FormatUint v :
  0 <= v < 2 ^ 64 -> scanUint VerbV 64 (FormatUint v) = inr (v, EmptyString).
Proof.
  intros Hv. destruct (Z.eq_dec v 0) as [->|Hnz]; [reflexivity|].
  assert (H20 : 0 < v < 10 ^ Z.of_nat 20)
    by (change (10 ^ Z.of_nat 20) with 100000000000000000000; lia).
  destruct (fmtDigits_head 20 v H20) as (d & t & Hd & E).
  pose proof (fmtDigits_allIn 20 v ltac:(lia)) as Hall.
  pose proof (parseDigits_fmtDigits 20 v ltac:(lia)) as Hparse.
  destruct (digitChar_plain d Hd) as (Hnl & Hsp & Hpre).
  unfold FormatUint. rewrite E in *. unfold scanUint.
  simpl SkipSpace. rewrite Hnl, Hsp, Hpre. unfold scanNumber.
  pose proof Hall as Hall'. simpl in Hall'. apply andb_true_iff in Hall' as [Hc _].
  assert (Hacc : forall c, inBase 10 c = true -> accepts (decimalDigits +:+ "_") c = true)
    by (intros c Hin; now rewrite accepts_app, accepts_decimal, Hin).
  rewrite (Hacc _ Hc), acceptRun_all by assumption. rewrite append_nil.
  assert (Hparse0 : ParseUint (String (digitChar d) t) 0 = inr v).
  { unfold ParseUint. change (0 =? 0) with true. cbv iota beta.
    clear -Hd Hall Hparse Hv.
    pose proof (parseLoop_digits true false (String (digitChar d) t) 0 v Hall
                  ltac:(lia) Hparse ltac:(unfold maxUint64; lia)) as Hloop.
    digit_cases d; try lia;
      match goal with
      | |- context [digitChar ?n] =>
          let c := eval vm_compute in (digitChar n) in change (digitChar n) with c in *
      end; cbv iota beta; rewrite Hloop; reflexivity. }
  rewrite Hparse0.
  replace (v <? 2 ^ 64) with true by (symmetry; apply Z.ltb_lt; lia).
  reflexivity.
Qed.

(** X27.  [UnMarshal] returns an error on every text, whatever the text
    and the receiver: the [%v] that reads [FileOffset] takes the digits and
    the underscores that follow, and the separator of the format then finds
    none.  It stores nothing but [FileOffset]: [PartitionId], [ExtentId],
    [Size] and [Crc] are never changed.  On the empty text it returns
    [io.EOF] and changes nothing; on the decimal text of one number below
    [2^64] it stores that number in [FileOffset] and returns
    [io.ErrUnexpectedEOF]. *)
Theorem UnMarshal_never_succeeds (k : ExtentKey) (m : string) (fo : Z) :
  0 <= fo < 2 ^ 64 ->
  (exists k' e,
     UnMarshal k m = (k', Some e) /\
     PartitionId k' = PartitionId k /\ ExtentId k' = ExtentId k /\
     Size k' = Size k /\ Crc k' = Crc k) /\
  UnMarshal k "" = (k, Some EOF) /\
  UnMarshal k (FormatUint fo) = (set_FileOffset fo k, Some ErrUnexpectedEOF).
Proof.
  intros Hfo. split; [|split].
  - destruct (ProtoFacts.UnMarshal_fails k m) as (k' & e & E & Hk').
    exists k', e. split; [exact E|]. destruct Hk' as [->|[v ->]]; repeat split.
  - reflexivity.
  - unfold UnMarshal, andThen, scanField at 1.
    rewrite (scanUint_v_FormatUint fo Hfo). reflexivity.
Qed.

Lemma UnMarshal_never_succeeds_witness :
  (exists k' e,
     UnMarshal key1 "5_4294967296_1_2_3" = (k', Some e) /\
     PartitionId k' = PartitionId key1 /\ ExtentId k' = ExtentId key1 /\
     Size k' = Size key1 /\ Crc k' = Crc key1) /\
  UnMarshal key1 "" = (key1, Some EOF) /\
  UnMarshal key1 (FormatUint 5) = (set_FileOffset 5 key1, Some ErrUnexpectedEOF).
Proof.
  apply (UnMarshal_never_succeeds key1 "5_4294967296_1_2_3" 5). vm_compute.
  split; congruence.
Defined.

End ProtoMore.

(** ** The log writer under interleaving *)
Module LogConcFacts.
Import Log LogConc.

Lemma filedOf_app a b : filedOf (a ++ b) = filedOf a ++ filedOf b.
Proof. unfold filedOf. now rewrite !flat_map_app. Qed.

Lemma bufferedOf_app a b : bufferedOf (a ++ b) = bufferedOf a ++ bufferedOf b.
Proof. unfold bufferedOf. now rewrite !flat_map_app. Qed.

(** Replacing one goroutine changes what is in flight by what the two
    hold. *)
Lemma holds_insert g' : forall (l : list goroutine) i g,
  l !! i = Some g ->
  Permutation (holds g ++ flat_map holds (<[i := g']> l)) (holds g' ++ flat_map holds l).
Proof.
  induction l as [|x l IH]; intros [|i] g Hi; try discriminate; cbn in Hi.
  - injection Hi as ->. cbn [flat_map]. change (<[0%nat := g']> (g :: l)) with (g' :: l).
    cbn [flat_map]. apply Permutation_app_swap_app.
  - change (<[S i := g']> (x :: l)) with (x :: <[i := g']> l). cbn [flat_map].
    rewrite (Permutation_app_swap_app (holds g)), (Permutation_app_swap_app (holds g')).
    apply Permutation_app_head. now apply IH.
Qed.

Section WithLimits.
Context {L : Limits}.

(** What one step of a goroutine does to the writer, to the bytes and to
    the pieces. *)
Lemma goStep_spec g w w' g' ev :
  goStep g w = Some (w', g', ev) ->
  closeOnce w = false -> fileClosed (file w) = false -> closing (mu w) g ->
  closeOnce w' = false /\ fileClosed (file w') = false /\
  (mu w = true -> mu w' = true) /\ closing (mu w') g' /\
  written (file w') = written (file w) ++ concat (filedOf ev) /\
  exists tk,
    concat tk ++ buffer w' = buffer w ++ concat (bufferedOf ev) /\
    Permutation (tk ++ holds g) (filedOf ev ++ holds g').
Proof.
  intros Hstep Honce Hopen Hg.
  assert (Hflush : forall pc w1 pc1 ev1,
             flushStep pc w = Some (w1, pc1, ev1) ->
             (pc = AtLock -> mu w = false) /\
             closeOnce w1 = false /\ fileClosed (file w1) = false /\ mu w1 = mu w /\
             written (file w1) = written (file w) ++ concat (filedOf ev1) /\
             bufferedOf ev1 = [] /\
             exists tk,
               concat tk ++ buffer w1 = buffer w /\
               Permutation
                 (tk ++ match pc with AtFileWrite b => [b] | _ => [] end)
                 (filedOf ev1 ++
                  match pc1 with Some (AtFileWrite b) => [b] | _ => [] end)).
  { intros pc w1 pc1 ev1 H. destruct pc as [|b|]; cbn in H.
    - unfold Lock in H. destruct (mu w) eqn:Hm; [discriminate|]. cbn -[take] in H.
      destruct (buffer w) as [|x bs] eqn:Hb; cbn -[take] in H;
        simplify_eq; cbn -[take]; rewrite ?app_nil_r; repeat split; auto.
      + exists []. rewrite ?Hb. split; [reflexivity|constructor].
      + exists [x :: bs]. cbn -[take].
        change (take (S (length bs)) (x :: bs)) with (take (length (x :: bs)) (x :: bs)).
        rewrite firstn_all, !app_nil_r. split; reflexivity.
    - simplify_eq. unfold fileWrite. rewrite Hopen. cbn. rewrite ?app_nil_r.
      repeat split; auto; try discriminate. exists []. split; reflexivity.
    - simplify_eq. unfold fileSync. rewrite Hopen. cbn. rewrite ?app_nil_r.
      repeat split; auto; try discriminate. exists []. split; [reflexivity|constructor]. }
  destruct g as [|pc|p| |pc| |pc| |]; cbn -[Nat.ltb] in Hstep; try discriminate.
  - destruct (flushStep pc w) as [[[w1 pc1] ev1]|] eqn:Hf; [|discriminate].
    destruct (Hflush _ _ _ _ Hf) as (_ & H1 & H2 & H3 & H4 & H5 & tk & H6 & H7).
    destruct pc1 as [pc1|]; simplify_eq; rewrite H5, app_nil_r; repeat split; auto;
      try congruence; try (destruct pc1; exact I);
      (exists tk; split; [exact H6|]); destruct pc; try destruct pc1; exact H7.
  - unfold Lock in Hstep. destruct (mu w) eqn:Hm; [discriminate|]. simplify_eq. cbn.
    rewrite ?app_nil_r. repeat split; auto; try discriminate.
    exists []. split; [reflexivity|constructor].
  - simplify_eq. cbn -[Nat.ltb]. rewrite ?app_nil_r.
    destruct (WriterBufferLenLimit <? length (buffer w'))%nat; cbn;
      (repeat split; auto; exists []; split; [reflexivity|constructor]).
  - destruct (flushStep pc w) as [[[w1 pc1] ev1]|] eqn:Hf; [|discriminate].
    destruct (Hflush _ _ _ _ Hf) as (_ & H1 & H2 & H3 & H4 & H5 & tk & H6 & H7).
    destruct pc1 as [pc1|]; simplify_eq; rewrite H5, app_nil_r; repeat split; auto;
      try congruence; try (destruct pc1; exact I);
      (exists tk; split; [exact H6|]); destruct pc; try destruct pc1; exact H7.
  - unfold Lock in Hstep. destruct (mu w) eqn:Hm; [discriminate|]. cbn in Hstep.
    rewrite Honce in Hstep. simplify_eq. cbn. rewrite ?app_nil_r.
    repeat split; auto. exists []. split; [reflexivity|constructor].
  - destruct (flushStep pc w) as [[[w1 pc1] ev1]|] eqn:Hf; [|discriminate].
    destruct (Hflush _ _ _ _ Hf) as (Hl & _).
    destruct pc; cbn in Hg; try contradiction. rewrite Hl in Hg by reflexivity. discriminate.
  - cbn in Hg. contradiction.
Qed.

(** One move keeps the bytes and keeps [Close] where it is. *)
Lemma step_conserved out acc m s s' ev :
  step m s = Some (s', ev) -> closeStuck s -> conserved out acc s ->
  closeStuck s' /\ conserved out (acc ++ ev) s'.
Proof.
  intros Hstep (Honce & Hopen & Hall) (Hfile & taken & Hbytes & Hperm).
  unfold closeStuck, conserved, inFlight in *.
  destruct m as [c|i|i|i]; cbn in Hstep.
  - simplify_eq. cbn. rewrite app_nil_r, flat_map_app.
    assert (Hc : holds (enter c) = []) by (destruct c; reflexivity).
    cbn [flat_map]. rewrite Hc, !app_nil_r. repeat split; auto.
    + apply Forall_app. split; [exact Hall|]. constructor; [|constructor].
      destruct c; exact I.
    + exists taken. auto.
  - destruct (goroutines s !! i) as [g|] eqn:Hi; [|discriminate].
    destruct (goStep g (shared s)) as [[[w1 g1] ev1]|] eqn:Hg; [|discriminate].
    simplify_eq. cbn [shared goroutines].
    assert (Hgi : closing (mu (shared s)) g).
    { rewrite Forall_lookup in Hall. exact (Hall i g Hi). }
    destruct (goStep_spec _ _ _ _ _ Hg Honce Hopen Hgi)
      as (H1 & H2 & H3 & H4 & H5 & tk & H6 & H7).
    pose proof (holds_insert g1 _ _ _ Hi) as Hins.
    repeat split; auto.
    + apply Forall_insert; [|exact H4].
      eapply Forall_impl; [exact Hall|]. intros h Hh.
      destruct h as [|pc|p| |pc| |pc| |]; cbn in *; auto. destruct pc; auto.
    + rewrite H5, Hfile, filedOf_app, concat_app. now rewrite app_assoc.
    + exists (taken ++ tk). split.
      * rewrite concat_app, <- app_assoc, H6, app_assoc, Hbytes, bufferedOf_app, concat_app.
        reflexivity.
      * apply (Permutation_app_inv_r (holds g)).
        rewrite <- !app_assoc, H7, filedOf_app, <- !app_assoc.
        rewrite Hperm, <- !app_assoc. apply Permutation_app_head.
        rewrite (Permutation_app_comm (flat_map holds (<[i:=g1]> (goroutines s)))), Hins.
        rewrite Permutation_app_swap_app. apply Permutation_app_head.
        apply Permutation_app_comm.
  - destruct (goroutines s !! i) as [[]|] eqn:Hi; try discriminate.
    simplify_eq. cbn [shared goroutines].
    pose proof (holds_insert (SchedFlush AtLock) _ _ _ Hi) as Hins. cbn in Hins.
    rewrite app_nil_r. repeat split; auto.
    + apply Forall_insert; [exact Hall|exact I].
    + exists taken. split; [exact Hbytes|]. now rewrite Hins.
  - destruct (goroutines s !! i) as [[]|] eqn:Hi; try discriminate.
    destruct (closeC (shared s)); [|discriminate].
    simplify_eq. cbn [shared goroutines].
    pose proof (holds_insert Finished _ _ _ Hi) as Hins. cbn in Hins.
    rewrite app_nil_r. repeat split; auto.
    + apply Forall_insert; [exact Hall|exact I].
    + exists taken. split; [exact Hbytes|]. now rewrite Hins.
Qed.

Lemma run_conserved out : forall ms acc s s' ev,
  run ms s = Some (s', ev) -> closeStuck s -> conserved out acc s ->
  closeStuck s' /\ conserved out (acc ++ ev) s'.
Proof.
  induction ms as [|m ms IH]; intros acc s s' ev Hrun Hs Hc; cbn [run] in Hrun.
  - simplify_eq. now rewrite app_nil_r.
  - destruct (step m s) as [[s1 ev1]|] eqn:Hstep; [|discriminate].
    destruct (run ms s1) as [[s2 ev2]|] eqn:Hrest; [|discriminate]. simplify_eq.
    destruct (step_conserved out acc m s s1 ev1 Hstep Hs Hc) as [Hs1 Hc1].
    rewrite app_assoc. exact (IH _ _ _ _ Hrest Hs1 Hc1).
Qed.

(** X2.  The writer loses no byte and writes none twice, whatever the
    interleaving.  In every run of goroutines calling [Write], [Flush] and
    [Close] on a new writer over an open file, the scheduler ticking in
    between and every goroutine stopping wherever another can come in: the
    file holds what it held at the start followed by the pieces handed to
    [file.Write], in the order they were handed over; the pieces taken out
    of the buffer, in the order they were taken and followed by what is
    still in the buffer, are exactly the bytes the [Write] calls buffered,
    in the order of their critical sections; and every piece taken is
    either in the file or held by one goroutine that has yet to write it,
    once.  The file is never closed.  Nothing is said of the order in
    which the pieces reach the file: one flush can overtake another. *)
Theorem writer_conserves_bytes (out : osFile) (ms : list move) (s : conc) (ev : list event) :
  fileClosed out = false ->
  run ms (NewAsyncFileWriter out) = Some (s, ev) ->
  written (file (shared s)) = written out ++ concat (filedOf ev) /\
  (exists taken,
      concat taken ++ buffer (shared s) = concat (bufferedOf ev) /\
      Permutation taken (filedOf ev ++ inFlight s)) /\
  fileClosed (file (shared s)) = false.
Proof.
  intros Hopen Hrun.
  assert (Hs0 : closeStuck (NewAsyncFileWriter out)).
  { unfold closeStuck. cbn. repeat split; auto. repeat constructor. }
  assert (Hc0 : conserved out [] (NewAsyncFileWriter out)).
  { unfold conserved. cbn. rewrite app_nil_r. split; [reflexivity|].
    exists []. split; [reflexivity|constructor]. }
  destruct (run_conserved out ms [] _ _ _ Hrun Hs0 Hc0) as [(_ & Hopen' & _) [Hf Ht]].
  repeat split; assumption.
Qed.

(** A flush can overtake another.  [p] is buffered and a first [Flush]
    takes it out of the buffer; before that goroutine writes, [q] is
    buffered and a second [Flush] takes it, writes it and returns; then
    the first one writes: the file holds [q] before [p]. *)
Lemma flushes_can_overtake (out : osFile) (p q : list Z) :
  fileClosed out = false -> p <> [] -> q <> [] ->
  let all := written out ++ q ++ p in
  run [Go (CallWrite p); Step 1; Go CallFlush; Step 2;
       Go (CallWrite q); Step 3; Go CallFlush; Step 4; Step 4; Step 4; Step 2; Step 2]
      (NewAsyncFileWriter out)
    = Some (mkConc (mkWriter (mkOsFile all all false) [] false false false)
              [SchedSelect; InWriteCheck; Finished; InWriteCheck; Finished],
            [Buffered p; Buffered q; ToFile q; ToFile p]).
Proof.
  intros Hopen Hp Hq all. subst all.
  destruct out as [wr od cl]. cbn in Hopen. subst cl.
  destruct p as [|x p]; [congruence|]. destruct q as [|y q]; [congruence|].
  assert (Tp : take (S (length p)) (x :: p) = x :: p) by apply (firstn_all (x :: p)).
  assert (Tq : take (S (length q)) (y :: q) = y :: q) by apply (firstn_all (y :: q)).
  cbn -[take]. rewrite Tp, Tq. cbn. rewrite <- !app_assoc. reflexivity.
Qed.

End WithLimits.

Lemma writer_conserves_bytes_witness :
  let out := mkOsFile [7] [7] false in
  let ms := [Go (CallWrite [1; 2; 3]); Step 1; Go CallFlush; Step 2;
             Go (CallWrite [4]); Step 3; Go CallFlush; Step 4; Step 4; Step 4; Step 2] in
  let s := mkConc (mkWriter (mkOsFile [7; 4; 1; 2; 3] [7; 4] false) [] false false false)
             [SchedSelect; InWriteCheck; InFlush AtFileSync; InWriteCheck; Finished] in
  let ev := [Buffered [1; 2; 3]; Buffered [4]; ToFile [4]; ToFile [1; 2; 3]] in
  written (file (shared s)) = written out ++ concat (filedOf ev) /\
  (exists taken,
      concat taken ++ buffer (shared s) = concat (bufferedOf ev) /\
      Permutation taken (filedOf ev ++ inFlight s)) /\
  fileClosed (file (shared s)) = false.
Proof.
  intros out ms s ev.
  apply (@writer_conserves_bytes limits8 out ms s ev); [reflexivity|].
  vm_compute. reflexivity.
Defined.

End LogConcFacts.
